(** * tldfetch: path resolution, URL computation and store bookkeeping

    A shallow embedding of [src/store/useCanvasStore.ts] (the zustand
    store), of the request assembly in [components/Blocks/MethodBlock.tsx]
    and of the sibling URL computation in [components/Blocks/RequestNode.tsx].

    Conventions of the embedding:
    - JS strings are [string]s; a character stands for the UTF-16 code unit
      of the same number, so the model is exact for strings whose code units
      are below 256 (in that range [\w] is [A-Za-z0-9_] and the only line
      terminators are LF and CR).
    - A JS [Set<string>] is a [gset string].  A plain object used as a
      dictionary ([Record<string, string>]) is the [gmap string string] of
      its own properties; reading and assigning go through [getProperty]
      and [setProperty], which follow the prototype chain to
      [Object.prototype] as the language does.
    - [null]/[undefined] are [None].
    - The recursive closures [traceBackwards] are defined by recursion on a
      fuel counter that bounds the recursion depth; [None] means the counter
      ran out.  Section [Termination] shows it never does for the counter the
      top-level functions pass.
    - Values produced by the environment ([nanoid()], [Date.now()]) are
      arguments of the operation that consumes them. *)

From stdpp Require Import base option list gmap fin_sets strings.
From Stdlib Require Import Ascii Lia.

Set Warnings "-clear-no-such-hyp".

(** ** Data model ([src/types.ts]) *)

Inductive BlockType := BaseUrl | Resource | Method | Request.

Inductive HttpMethod := GET | POST | PUT | DELETE | PATCH.

#[global] Instance BlockType_eq_dec : EqDecision BlockType.
Proof. solve_decision. Defined.

#[global] Instance HttpMethod_eq_dec : EqDecision HttpMethod.
Proof. solve_decision. Defined.

Record BodyField := { bf_key : string; bf_value : string }.

Record HeaderField := { hf_key : string; hf_value : string }.

(** [BlockData]; the optional members are [option]s.  [isParam] and
    [paramValue] are never written or read by the store and are left out. *)
Record BlockData := {
  type : BlockType;
  value : string;
  method : option HttpMethod;
  bodyFields : option (list BodyField);
  headers : option (list HeaderField);
  bearerToken : option string
}.

(** [ApiBlock = Node<BlockData>].  The reactflow rendering attributes
    ([position], the node-type tag) are not read by path resolution. *)
Record ApiBlock := { id : string; data : BlockData }.

Record Edge := { edge_id : string; source : string; target : string }.

Record RequestState := {
  req_url : string;
  req_method : HttpMethod;
  req_headers : gmap string string;
  req_body : string
}.

(** [ResponseState]; the payload [data : any] is kept as its JSON text. *)
Record ResponseState := {
  status : Z;
  statusText : string;
  resp_data : string;
  resp_headers : gmap string string;
  time : Z;
  size_ : Z
}.

Record HistoryItem := {
  hi_response : ResponseState;
  hi_id : string;
  hi_url : string;
  hi_method : HttpMethod;
  hi_timestamp : Z
}.

Record RequestBodyHistoryItem := {
  bh_id : string;
  bh_method : HttpMethod;
  bh_url : string;
  bh_bodyFields : list BodyField;
  bh_timestamp : Z
}.

Record CanvasState := {
  nodes : list ApiBlock;
  edges : list Edge;
  activePathId : option string;
  activePathNodes : list string;
  request : option RequestState;
  response : option ResponseState;
  history : list HistoryItem;
  bodyHistory : list RequestBodyHistoryItem;
  variables : gmap string string
}.

(** JS truthiness of a [string | null | undefined]: the empty string is
    falsy like [null]. *)
Definition truthy (s : option string) : option string :=
  match s with
  | Some s' => if decide (s' = "") then None else Some s'
  | None => None
  end.

(** ** Plain objects used as dictionaries

    [variables] and the objects into which [handleSend] folds the headers
    and the body fields are plain objects.  Their own properties are a
    [gmap]; what a read or an assignment does at a key the object does not
    have is settled by [Object.prototype]. *)

(** The members of [Object.prototype], each with the text that converting it
    to a string gives.  All but one are native functions, whose text is the
    engine's: [function name() { [native code] }] in V8, the form ES2019 fixes
    up to white space.  The accessor [__proto__] reads as the prototype
    object itself. *)
Definition objectPrototype : list (string * string) :=
  [ ("constructor", "function Object() { [native code] }");
    ("__defineGetter__", "function __defineGetter__() { [native code] }");
    ("__defineSetter__", "function __defineSetter__() { [native code] }");
    ("hasOwnProperty", "function hasOwnProperty() { [native code] }");
    ("__lookupGetter__", "function __lookupGetter__() { [native code] }");
    ("__lookupSetter__", "function __lookupSetter__() { [native code] }");
    ("isPrototypeOf", "function isPrototypeOf() { [native code] }");
    ("propertyIsEnumerable", "function propertyIsEnumerable() { [native code] }");
    ("toString", "function toString() { [native code] }");
    ("valueOf", "function valueOf() { [native code] }");
    ("__proto__", "[object Object]");
    ("toLocaleString", "function toLocaleString() { [native code] }") ].

(** The text of the member of [Object.prototype] called [key], if there is
    one. *)
Definition inheritedMember (key : string) : option string :=
  snd <$> List.find (λ member, bool_decide (member.1 = key)) objectPrototype.

(** What [object[key]] evaluates to: a string of the object's own, or a
    member inherited from [Object.prototype], kept as its text; [None] is
    [undefined]. *)
Inductive JsValue := JsString (s : string) | JsInherited (text : string).

Definition getProperty (object : gmap string string) (key : string) : option JsValue :=
  match object !! key with
  | Some v => Some (JsString v)
  | None => JsInherited <$> inheritedMember key
  end.

(** Truthiness of such a value: the empty string is falsy like [undefined];
    functions and objects are truthy. *)
Definition jsTruthy (v : option JsValue) : option JsValue :=
  match v with
  | Some (JsString s') => if decide (s' = "") then None else Some (JsString s')
  | Some (JsInherited text) => Some (JsInherited text)
  | None => None
  end.

(** [String(v)] *)
Definition jsToString (v : JsValue) : string :=
  match v with
  | JsString s' => s'
  | JsInherited text => text
  end.

(** [object[key] = value] for a string [value].  The assignment makes or
    updates an own property, except at the key [__proto__] of an object
    without such an own property: there it reaches the setter of
    [Object.prototype], which ignores a value that is not an object. *)
Definition setProperty (key value : string) (object : gmap string string)
    : gmap string string :=
  if decide (key = "__proto__" ∧ object !! "__proto__" = None) then object
  else <[key := value]> object.

(** ** Path resolver ([computeActivePathNodes], lines 8-45) *)

(** [nodes.find((n) => n.id === nodeId)] *)
Definition findNode (ns : list ApiBlock) (nodeId : string) : option ApiBlock :=
  List.find (λ n, bool_decide (id n = nodeId)) ns.

(** [edges.filter((e) => e.target === nodeId)] *)
Definition incomingEdges (es : list Edge) (nodeId : string) : list Edge :=
  filter (λ e, target e = nodeId) es.

(** The two variables captured by the closure [traceBackwards]. *)
Record Trace := { visitedNodes : gset string; pathNodeIds : list string }.

Definition markVisited (nodeId : string) (st : Trace) : Trace :=
  {| visitedNodes := {[nodeId]} ∪ visitedNodes st; pathNodeIds := pathNodeIds st |}.

(** [pathNodeIds.unshift(nodeId)] *)
Definition unshiftId (nodeId : string) (st : Trace) : Trace :=
  {| visitedNodes := visitedNodes st; pathNodeIds := nodeId :: pathNodeIds st |}.

(** [pathNodeIds.shift()] *)
Definition shiftId (st : Trace) : Trace :=
  {| visitedNodes := visitedNodes st; pathNodeIds := tail (pathNodeIds st) |}.

(** The loop [for (const edge of incomingEdges) { if (traceBackwards(edge.source))
    return true; }], with the state the loop leaves behind; [false] when it
    falls through. *)
Fixpoint forEachEdge {S : Type} (call : string → S → option (bool * S))
    (incoming : list Edge) (st : S) : option (bool * S) :=
  match incoming with
  | [] => Some (false, st)
  | edge :: incoming' =>
    match call (source edge) st with
    | None => None
    | Some (true, st') => Some (true, st')
    | Some (false, st') => forEachEdge call incoming' st'
    end
  end.

Fixpoint traceBackwards (fuel : nat) (ns : list ApiBlock) (es : list Edge)
    (nodeId : string) (st : Trace) : option (bool * Trace) :=
  match fuel with
  | 0 => None
  | S fuel' =>
    if decide (nodeId ∈ visitedNodes st) then Some (false, st)
    else
      let st := markVisited nodeId st in
      match findNode ns nodeId with
      | None => Some (false, st)
      | Some node =>
        let st := unshiftId nodeId st in
        if decide (type (data node) = BaseUrl) then Some (true, st)
        else
          match forEachEdge (traceBackwards fuel' ns es) (incomingEdges es nodeId) st with
          | None => None
          | Some (true, st') => Some (true, st')
          | Some (false, st') => Some (false, shiftId st')
          end
      end
  end.

(** Recursion depth the top-level functions allow: every nested call enters
    an id not entered before, and ids come from the target and the edge
    sources only. *)
Definition walkFuel (es : list Edge) : nat := S (S (length es)).

Definition emptyTrace : Trace := {| visitedNodes := ∅; pathNodeIds := [] |}.

Definition computeActivePathNodes (activePathId : option string)
    (ns : list ApiBlock) (es : list Edge) : option (list string) :=
  match truthy activePathId with
  | None => Some []
  | Some target =>
    match traceBackwards (walkFuel es) ns es target emptyTrace with
    | None => None
    | Some (_, st) => Some (pathNodeIds st)
    end
  end.

(** ** Regular expressions used by the URL computation *)

(** [str.replace(/re/g, f)] for a pattern that never matches the empty
    string.  [matchAt s] tries the pattern at the head of [s] and gives the
    replacement text and the input left after the match.  The scan restarts
    after each match and moves one character forward where there is none;
    replacement text is not scanned again.  [fuel] bounds the number of
    steps; [String.length s] is enough as every step consumes a character. *)
Fixpoint replaceAll (fuel : nat) (matchAt : string → option (string * string))
    (s : string) : string :=
  match fuel with
  | 0 => s
  | S fuel' =>
    match matchAt s with
    | Some (replacement, rest) => replacement +:+ replaceAll fuel' matchAt rest
    | None =>
      match s with
      | EmptyString => EmptyString
      | String c s' => String c (replaceAll fuel' matchAt s')
      end
    end
  end.

(** [\w] *)
Definition isWordChar (c : ascii) : bool :=
  let n := nat_of_ascii c in
  ((65 <=? n) && (n <=? 90)) || ((97 <=? n) && (n <=? 122))
  || ((48 <=? n) && (n <=? 57)) || (n =? 95).

(** Line terminators, which [.] does not match. *)
Definition isLineTerminator (c : ascii) : bool :=
  let n := nat_of_ascii c in (n =? 10) || (n =? 13).

(** The longest run of word characters at the head, and what follows it. *)
Fixpoint spanWord (s : string) : string * string :=
  match s with
  | EmptyString => (EmptyString, EmptyString)
  | String c s' =>
    if isWordChar c
    then let '(w, rest) := spanWord s' in (String c w, rest)
    else (EmptyString, s)
  end.

(** [/\{(\w+)\}/] at the head of [s]: the captured key and the input after
    the closing brace.  [\w+] is greedy and no shorter run can be followed by
    a brace, so only the longest run is tried. *)
Definition matchParam (s : string) : option (string * string) :=
  match s with
  | String c s' =>
    if decide (c = "{"%char) then
      match spanWord s' with
      | (String k key, String c' rest) =>
        if decide (c' = "}"%char) then Some (String k key, rest) else None
      | _ => None
      end
    else None
  | EmptyString => None
  end.

(** After an opening brace: is there a closing brace with at least one
    character before it and no line terminator in between ([(.+)\}])? *)
Fixpoint dotPlusClose (seen : bool) (s : string) : bool :=
  match s with
  | EmptyString => false
  | String c s' =>
    if bool_decide (c = "}"%char) && seen then true
    else if isLineTerminator c then false
    else dotPlusClose true s'
  end.

(** [/\{(.+)\}/.test(value)] *)
Fixpoint isParam (value : string) : bool :=
  match value with
  | EmptyString => false
  | String c s' => (bool_decide (c = "{"%char) && dotPlusClose false s') || isParam s'
  end.

(** The replacer [(_, key) => variables[key] || `{${key}}`]; [replace]
    converts what it returns to a string. *)
Definition paramReplacer (variables : gmap string string) (key : string) : string :=
  match jsTruthy (getProperty variables key) with
  | Some v => jsToString v
  | None => "{" +:+ key +:+ "}"
  end.

Definition matchParamWith (variables : gmap string string) (s : string)
    : option (string * string) :=
  match matchParam s with
  | Some (key, rest) => Some (paramReplacer variables key, rest)
  | None => None
  end.

(** Lines 378-385 of [getComputedUrl]: the value pushed for a resource node. *)
Definition substituteParams (variables : gmap string string) (value : string) : string :=
  if isParam value
  then replaceAll (String.length value) (matchParamWith variables) value
  else value.

Fixpoint skipSlashes (s : string) : string :=
  match s with
  | String c s' => if decide (c = "/"%char) then skipSlashes s' else s
  | EmptyString => EmptyString
  end.

(** [/([^:]\/)\/+/] at the head of [s], replaced by ['$1']. *)
Definition matchSlashes (s : string) : option (string * string) :=
  match s with
  | String c (String c1 (String c2 rest)) =>
    if decide (c = ":"%char) then None
    else if decide (c1 = "/"%char) then
      if decide (c2 = "/"%char)
      then Some (String c (String "/" EmptyString), skipSlashes rest)
      else None
    else None
  | _ => None
  end.

(** [.replace(/([^:]\/)\/+/g, '$1')] *)
Definition collapseSlashes (s : string) : string :=
  replaceAll (String.length s) matchSlashes s.

(** [path.join('/').replace(/([^:]\/)\/+/g, '$1')] *)
Definition joinPath (path : list string) : string :=
  collapseSlashes (String.concat "/" path).

(** ** URL computation ([getComputedUrl], lines 354-406) *)

(** The variables captured by the closure [traceBackwards] of
    [getComputedUrl]: the visited set and the segment list [path]. *)
Record UrlTrace := { urlVisited : gset string; path : list string }.

Definition markVisitedUrl (nodeId : string) (st : UrlTrace) : UrlTrace :=
  {| urlVisited := {[nodeId]} ∪ urlVisited st; path := path st |}.

(** [path.unshift(segment)] *)
Definition unshiftSegment (segment : string) (st : UrlTrace) : UrlTrace :=
  {| urlVisited := urlVisited st; path := segment :: path st |}.

Fixpoint traceBackwardsUrl (fuel : nat) (ns : list ApiBlock) (es : list Edge)
    (vars : gmap string string) (nodeId : string) (st : UrlTrace)
    : option (bool * UrlTrace) :=
  match fuel with
  | 0 => None
  | S fuel' =>
    if decide (nodeId ∈ urlVisited st) then Some (false, st)
    else
      let st := markVisitedUrl nodeId st in
      match findNode ns nodeId with
      | None => Some (false, st)
      | Some node =>
        if decide (type (data node) = BaseUrl)
        then Some (true, unshiftSegment (value (data node)) st)
        else
          let st :=
            if decide (type (data node) = Resource)
            then unshiftSegment (substituteParams vars (value (data node))) st
            else st in
          forEachEdge (traceBackwardsUrl fuel' ns es vars) (incomingEdges es nodeId) st
      end
  end.

Definition emptyUrlTrace : UrlTrace := {| urlVisited := ∅; path := [] |}.

(** The result is [None] when the walk runs out of fuel, [Some None] when the
    function returns [null] and [Some (Some url)] when it returns a string. *)
Definition getComputedUrl (s : CanvasState) : option (option string) :=
  match truthy (activePathId s) with
  | None => Some None
  | Some target =>
    match findNode (nodes s) target with
    | None => Some None
    | Some _ =>
      match traceBackwardsUrl (walkFuel (edges s)) (nodes s) (edges s)
              (variables s) target emptyUrlTrace with
      | None => None
      | Some (foundPath, st) =>
        if negb foundPath || bool_decide (length (path st) = 0)
        then Some None
        else Some (Some (joinPath (path st)))
      end
    end
  end.

(** ** The URL computed by [RequestNode] (RequestNode.tsx, lines 24-76)

    The sibling computation: it resolves the path with the same walk as
    [computeActivePathNodes] and then reads the segments off the resolved
    ids. *)

Definition segmentsOfPath (ns : list ApiBlock) (vars : gmap string string)
    (pathIds : list string) : list string :=
  foldl (λ path nodeId,
    match findNode ns nodeId with
    | None => path
    | Some node =>
      if decide (type (data node) = BaseUrl) then path ++ [value (data node)]
      else if decide (type (data node) = Resource)
      then path ++ [substituteParams vars (value (data node))]
      else path
    end) [] pathIds.

Definition requestNodeUrl (s : CanvasState) : option (option string) :=
  match truthy (activePathId s) with
  | None => Some None
  | Some target =>
    match traceBackwards (walkFuel (edges s)) (nodes s) (edges s) target emptyTrace with
    | None => None
    | Some (true, st) =>
      Some (Some (joinPath (segmentsOfPath (nodes s) (variables s) (pathNodeIds st))))
    | Some (false, _) => Some None
    end
  end.

(** ** The store ([useCanvasStore], lines 81-504) *)

(** zustand's [set(partial)] merges the given members into the state; one
    setter per member that some operation writes. *)
Definition setNodes (ns : list ApiBlock) (s : CanvasState) : CanvasState :=
  {| nodes := ns; edges := edges s; activePathId := activePathId s;
     activePathNodes := activePathNodes s; request := request s;
     response := response s; history := history s;
     bodyHistory := bodyHistory s; variables := variables s |}.

Definition setEdges (es : list Edge) (s : CanvasState) : CanvasState :=
  {| nodes := nodes s; edges := es; activePathId := activePathId s;
     activePathNodes := activePathNodes s; request := request s;
     response := response s; history := history s;
     bodyHistory := bodyHistory s; variables := variables s |}.

Definition setActivePathId (a : option string) (s : CanvasState) : CanvasState :=
  {| nodes := nodes s; edges := edges s; activePathId := a;
     activePathNodes := activePathNodes s; request := request s;
     response := response s; history := history s;
     bodyHistory := bodyHistory s; variables := variables s |}.

Definition setActivePathNodes (p : list string) (s : CanvasState) : CanvasState :=
  {| nodes := nodes s; edges := edges s; activePathId := activePathId s;
     activePathNodes := p; request := request s;
     response := response s; history := history s;
     bodyHistory := bodyHistory s; variables := variables s |}.

Definition setRequestMember (r : option RequestState) (s : CanvasState) : CanvasState :=
  {| nodes := nodes s; edges := edges s; activePathId := activePathId s;
     activePathNodes := activePathNodes s; request := r;
     response := response s; history := history s;
     bodyHistory := bodyHistory s; variables := variables s |}.

Definition setResponseMember (r : option ResponseState) (s : CanvasState) : CanvasState :=
  {| nodes := nodes s; edges := edges s; activePathId := activePathId s;
     activePathNodes := activePathNodes s; request := request s;
     response := r; history := history s;
     bodyHistory := bodyHistory s; variables := variables s |}.

Definition setHistory (h : list HistoryItem) (s : CanvasState) : CanvasState :=
  {| nodes := nodes s; edges := edges s; activePathId := activePathId s;
     activePathNodes := activePathNodes s; request := request s;
     response := response s; history := h;
     bodyHistory := bodyHistory s; variables := variables s |}.

Definition setBodyHistory (h : list RequestBodyHistoryItem) (s : CanvasState) : CanvasState :=
  {| nodes := nodes s; edges := edges s; activePathId := activePathId s;
     activePathNodes := activePathNodes s; request := request s;
     response := response s; history := history s;
     bodyHistory := h; variables := variables s |}.

Definition setVariables (v : gmap string string) (s : CanvasState) : CanvasState :=
  {| nodes := nodes s; edges := edges s; activePathId := activePathId s;
     activePathNodes := activePathNodes s; request := request s;
     response := response s; history := history s;
     bodyHistory := bodyHistory s; variables := v |}.

Definition blockData (t : BlockType) (v : string) (m : option HttpMethod) : BlockData :=
  {| type := t; value := v; method := m; bodyFields := None; headers := None;
     bearerToken := None |}.

Definition createDefaultState : CanvasState :=
  let baseUrlId := "default-base-url" in
  let healthResourceId := "default-health-resource" in
  let healthMethodId := "default-health-method" in
  let authResourceId := "default-auth-resource" in
  let loginResourceId := "default-login-resource" in
  let loginMethodId := "default-login-method" in
  {| nodes :=
       [ {| id := baseUrlId; data := blockData BaseUrl "http://localhost:3000" None |};
         {| id := healthResourceId; data := blockData Resource "health" None |};
         {| id := healthMethodId; data := blockData Method "" (Some GET) |};
         {| id := authResourceId; data := blockData Resource "auth" None |};
         {| id := loginResourceId; data := blockData Resource "login" None |};
         {| id := loginMethodId;
            data := {| type := Method; value := ""; method := Some POST;
                       bodyFields := Some [ {| bf_key := "email"; bf_value := "" |};
                                            {| bf_key := "password"; bf_value := "" |} ];
                       headers := None; bearerToken := None |} |} ];
     edges :=
       [ {| edge_id := "edge-base-health"; source := baseUrlId; target := healthResourceId |};
         {| edge_id := "edge-health-get"; source := healthResourceId; target := healthMethodId |};
         {| edge_id := "edge-base-auth"; source := baseUrlId; target := authResourceId |};
         {| edge_id := "edge-auth-login"; source := authResourceId; target := loginResourceId |};
         {| edge_id := "edge-login-post"; source := loginResourceId; target := loginMethodId |} ];
     activePathId := None;
     activePathNodes := [];
     request := None;
     response := None;
     history := [];
     bodyHistory := [];
     variables := ∅ |}.

(** [{ ...node, data: { ...node.data, value } }] and its two siblings. *)
Definition withValue (v : string) (n : ApiBlock) : ApiBlock :=
  {| id := id n;
     data := {| type := type (data n); value := v; method := method (data n);
                bodyFields := bodyFields (data n); headers := headers (data n);
                bearerToken := bearerToken (data n) |} |}.

Definition withBodyFields (b : list BodyField) (n : ApiBlock) : ApiBlock :=
  {| id := id n;
     data := {| type := type (data n); value := value (data n); method := method (data n);
                bodyFields := Some b; headers := headers (data n);
                bearerToken := bearerToken (data n) |} |}.

Definition withHeaders (h : list HeaderField) (n : ApiBlock) : ApiBlock :=
  {| id := id n;
     data := {| type := type (data n); value := value (data n); method := method (data n);
                bodyFields := bodyFields (data n); headers := Some h;
                bearerToken := bearerToken (data n) |} |}.

(** [state.nodes.map((node) => node.id === id ? f(node) : node)] *)
Definition mapNode (nodeId : string) (f : ApiBlock → ApiBlock) (ns : list ApiBlock)
    : list ApiBlock :=
  (λ n, if decide (id n = nodeId) then f n else n) <$> ns.

Definition addNode (newId : string) (t : BlockType) (v : string)
    (m : option HttpMethod) (s : CanvasState) : CanvasState :=
  setNodes (nodes s ++ [ {| id := newId; data := blockData t v m |} ]) s.

Definition updateNodeValue (nodeId v : string) (s : CanvasState) : CanvasState :=
  setNodes (mapNode nodeId (withValue v) (nodes s)) s.

Definition updateNodeBodyFields (nodeId : string) (b : list BodyField)
    (s : CanvasState) : CanvasState :=
  setNodes (mapNode nodeId (withBodyFields b) (nodes s)) s.

Definition updateNodeHeaders (nodeId : string) (h : list HeaderField)
    (s : CanvasState) : CanvasState :=
  setNodes (mapNode nodeId (withHeaders h) (nodes s)) s.

(** [edges.find((e) => e.source === methodNodeId &&
      nodes.find((n) => n.id === e.target && n.data.type === 'request'))] *)
Definition existingRequestEdge (methodNodeId : string) (ns : list ApiBlock)
    (es : list Edge) : option Edge :=
  List.find (λ e,
    bool_decide (source e = methodNodeId) &&
    match List.find (λ n, bool_decide (id n = target e) &&
                          bool_decide (type (data n) = Request)) ns with
    | Some _ => true
    | None => false
    end) es.

Definition requestBlockData : BlockData :=
  {| type := Request; value := ""; method := None; bodyFields := None;
     headers := Some [ {| hf_key := "Content-Type"; hf_value := "application/json" |} ];
     bearerToken := None |}.

(** [newNodeId] and [newEdgeId] are the two [nanoid()] results. *)
Definition ensureRequestNode (newNodeId newEdgeId methodNodeId : string)
    (s : CanvasState) : CanvasState :=
  match existingRequestEdge methodNodeId (nodes s) (edges s) with
  | Some _ => s
  | None =>
    match findNode (nodes s) methodNodeId with
    | None => s
    | Some methodNode =>
      if decide (type (data methodNode) = Method) then
        let requestNode := {| id := newNodeId; data := requestBlockData |} in
        let newEdge := {| edge_id := newEdgeId; source := methodNodeId;
                          target := id requestNode |} in
        setEdges (edges s ++ [newEdge]) (setNodes (nodes s ++ [requestNode]) s)
      else s
    end
  end.

Definition setActivePath (nodeId : option string) (s : CanvasState) : option CanvasState :=
  newActivePathNodes ← computeActivePathNodes nodeId (nodes s) (edges s);
  Some (setActivePathNodes newActivePathNodes (setActivePathId nodeId s)).

Definition setRequest (r : RequestState) (s : CanvasState) : CanvasState :=
  setRequestMember (Some r) s.

(** [newId] is [nanoid()], [now] is [Date.now()]. *)
Definition setResponse (newId : string) (now : Z) (r : ResponseState)
    (url : option string) (m : option HttpMethod) (s : CanvasState) : CanvasState :=
  let s' := setResponseMember (Some r) s in
  match truthy url, m with
  | Some url', Some m' =>
    let historyItem := {| hi_response := r; hi_id := newId; hi_url := url';
                          hi_method := m'; hi_timestamp := now |} in
    setHistory (take 10 (historyItem :: history s)) s'
  | _, _ => s'
  end.

Definition clearResponse (s : CanvasState) : CanvasState := setResponseMember None s.

Definition clearHistory (s : CanvasState) : CanvasState := setHistory [] s.

Definition removeHistoryItem (itemId : string) (s : CanvasState) : CanvasState :=
  setHistory (filter (λ item, hi_id item ≠ itemId) (history s)) s.

Definition addBodyHistory (newId : string) (now : Z) (m : HttpMethod) (url : string)
    (fields : list BodyField) (s : CanvasState) : CanvasState :=
  if decide (length fields = 0) then s
  else
    let historyItem := {| bh_id := newId; bh_method := m; bh_url := url;
                          bh_bodyFields := fields; bh_timestamp := now |} in
    setBodyHistory (take 50 (historyItem :: bodyHistory s)) s.

Definition getBodyHistoryForEndpoint (m : HttpMethod) (url : string) (s : CanvasState)
    : list RequestBodyHistoryItem :=
  filter (λ item, bh_method item = m ∧ bh_url item = url) (bodyHistory s).

Definition removeBodyHistoryItem (itemId : string) (s : CanvasState) : CanvasState :=
  setBodyHistory (filter (λ item, bh_id item ≠ itemId) (bodyHistory s)) s.

(** [{ ...state.variables, [key]: value }]: the spread copies the own
    properties, and a computed key defines an own property whatever its
    name. *)
Definition setVariable (key v : string) (s : CanvasState) : CanvasState :=
  setVariables (<[key := v]> (variables s)) s.

Definition resetToDefault (s : CanvasState) : CanvasState := createDefaultState.

(** The operations that go through reactflow take its three helpers as
    parameters: [applyNodeChanges], [applyEdgeChanges] and [addEdge] (the
    latter applied to [{ ...connection, id: nanoid() }]). *)
Section Store.
Context {NodeChange EdgeChange Connection : Type}.
Variable applyNodeChanges : list NodeChange → list ApiBlock → list ApiBlock.
Variable applyEdgeChanges : list EdgeChange → list Edge → list Edge.
Variable addEdge : Connection → string → list Edge → list Edge.

Definition onNodesChange (changes : list NodeChange) (s : CanvasState)
    : option CanvasState :=
  let newNodes := applyNodeChanges changes (nodes s) in
  newActivePathNodes ← computeActivePathNodes (activePathId s) newNodes (edges s);
  Some (setActivePathNodes newActivePathNodes (setNodes newNodes s)).

Definition onEdgesChange (changes : list EdgeChange) (s : CanvasState)
    : option CanvasState :=
  let newEdges := applyEdgeChanges changes (edges s) in
  newActivePathNodes ← computeActivePathNodes (activePathId s) (nodes s) newEdges;
  Some (setActivePathNodes newActivePathNodes (setEdges newEdges s)).

Definition onConnect (newId : string) (connection : Connection) (s : CanvasState)
    : option CanvasState :=
  let newEdges := addEdge connection newId (edges s) in
  newActivePathNodes ← computeActivePathNodes (activePathId s) (nodes s) newEdges;
  Some (setActivePathNodes newActivePathNodes (setEdges newEdges s)).

(** One constructor per state-changing member of [CanvasStore]. *)
Inductive StoreOp :=
| OpAddNode (newId : string) (t : BlockType) (v : string) (m : option HttpMethod)
| OpNodesChange (changes : list NodeChange)
| OpEdgesChange (changes : list EdgeChange)
| OpConnect (newId : string) (connection : Connection)
| OpUpdateNodeValue (nodeId v : string)
| OpUpdateNodeBodyFields (nodeId : string) (b : list BodyField)
| OpUpdateNodeHeaders (nodeId : string) (h : list HeaderField)
| OpEnsureRequestNode (newNodeId newEdgeId methodNodeId : string)
| OpSetActivePath (nodeId : option string)
| OpSetRequest (r : RequestState)
| OpSetResponse (newId : string) (now : Z) (r : ResponseState)
    (url : option string) (m : option HttpMethod)
| OpClearResponse
| OpClearHistory
| OpRemoveHistoryItem (itemId : string)
| OpAddBodyHistory (newId : string) (now : Z) (m : HttpMethod) (url : string)
    (fields : list BodyField)
| OpRemoveBodyHistoryItem (itemId : string)
| OpSetVariable (key v : string)
| OpResetToDefault.

Definition step (op : StoreOp) (s : CanvasState) : option CanvasState :=
  match op with
  | OpAddNode newId t v m => Some (addNode newId t v m s)
  | OpNodesChange changes => onNodesChange changes s
  | OpEdgesChange changes => onEdgesChange changes s
  | OpConnect newId connection => onConnect newId connection s
  | OpUpdateNodeValue nodeId v => Some (updateNodeValue nodeId v s)
  | OpUpdateNodeBodyFields nodeId b => Some (updateNodeBodyFields nodeId b s)
  | OpUpdateNodeHeaders nodeId h => Some (updateNodeHeaders nodeId h s)
  | OpEnsureRequestNode newNodeId newEdgeId methodNodeId =>
    Some (ensureRequestNode newNodeId newEdgeId methodNodeId s)
  | OpSetActivePath nodeId => setActivePath nodeId s
  | OpSetRequest r => Some (setRequest r s)
  | OpSetResponse newId now r url m => Some (setResponse newId now r url m s)
  | OpClearResponse => Some (clearResponse s)
  | OpClearHistory => Some (clearHistory s)
  | OpRemoveHistoryItem itemId => Some (removeHistoryItem itemId s)
  | OpAddBodyHistory newId now m url fields =>
    Some (addBodyHistory newId now m url fields s)
  | OpRemoveBodyHistoryItem itemId => Some (removeBodyHistoryItem itemId s)
  | OpSetVariable key v => Some (setVariable key v s)
  | OpResetToDefault => Some (resetToDefault s)
  end.

(** Running a sequence of operations, first to last. *)
Fixpoint run (ops : list StoreOp) (s : CanvasState) : option CanvasState :=
  match ops with
  | [] => Some s
  | op :: ops' => s' ← step op s; run ops' s'
  end.
End Store.

(** ** Request assembly ([handleSend], MethodBlock.tsx lines 104-140) *)

(** The [config] object handed to axios; [cfg_data] is absent ([None]) when
    the member [data] is never assigned. *)
Record RequestConfig := {
  cfg_method : HttpMethod;
  cfg_url : string;
  cfg_headers : gmap string string;
  cfg_data : option (gmap string string)
}.

(** [['POST', 'PUT', 'PATCH'].includes(method)] *)
Definition hasBody (m : HttpMethod) : bool := bool_decide (m ∈ [POST; PUT; PATCH]).

(** [headers.reduce((acc, { key, value }) => { if (key && value) acc[key] = value; ... }, {})] *)
Definition headersObj (hs : list HeaderField) : gmap string string :=
  foldl (λ acc h,
    if decide (hf_key h = "") then acc
    else if decide (hf_value h = "") then acc
    else setProperty (hf_key h) (hf_value h) acc) ∅ hs.

(** [bodyFields.reduce((acc, { key, value }) => { if (key) acc[key] = value; ... }, {})] *)
Definition bodyObj (fields : list BodyField) : gmap string string :=
  foldl (λ acc f,
    if decide (bf_key f = "") then acc else setProperty (bf_key f) (bf_value f) acc)
    ∅ fields.

Definition defaultHeaders : list HeaderField :=
  [ {| hf_key := "Content-Type"; hf_value := "application/json" |} ].

(** The request [handleSend] builds from the method block's [data] and the
    computed URL; [None] when it returns before building one. *)
Definition handleSendConfig (d : BlockData) (computedUrl : option string)
    : option RequestConfig :=
  let m := default GET (method d) in
  let fields := default [] (bodyFields d) in
  let hs := default defaultHeaders (headers d) in
  match truthy computedUrl with
  | None => None
  | Some url =>
    let headersObj :=
      match truthy (bearerToken d) with
      | Some token => setProperty "Authorization" ("Bearer " +:+ token) (headersObj hs)
      | None => headersObj hs
      end in
    Some {| cfg_method := m; cfg_url := url; cfg_headers := headersObj;
            cfg_data := if hasBody m && bool_decide (0 < length fields)
                        then Some (bodyObj fields) else None |}
  end.

(** ** Notions used to state the properties *)

(** The ids a walk from [target] can enter: the target and the edge sources. *)
Definition candidateIds (es : list Edge) (target : string) : gset string :=
  {[target]} ∪ list_to_set (source <$> es).

(** A [BaseUrl] node can be reached from [nodeId] by following edges
    backwards through nodes that exist. *)
Inductive reachesBase (ns : list ApiBlock) (es : list Edge) : string → Prop :=
| reaches_here nodeId node :
    findNode ns nodeId = Some node → type (data node) = BaseUrl →
    reachesBase ns es nodeId
| reaches_back nodeId node edge :
    findNode ns nodeId = Some node → edge ∈ es → target edge = nodeId →
    reachesBase ns es (source edge) → reachesBase ns es nodeId.

(** The two walks agree on the visited set, and on whether they return and
    with which answer. *)
Definition sameVisited (st : Trace) (ust : UrlTrace) : Prop :=
  urlVisited ust = visitedNodes st.

Definition sameOutcome (r : option (bool * Trace)) (ur : option (bool * UrlTrace)) : Prop :=
  match r, ur with
  | Some (b, st), Some (ub, ust) => b = ub ∧ sameVisited st ust
  | None, None => True
  | _, _ => False
  end.

(** A matcher that consumes input whenever it matches, which is what makes
    [String.length s] steps enough for [replaceAll]. *)
Definition consuming (matchAt : string → option (string * string)) : Prop :=
  ∀ s r rest, matchAt s = Some (r, rest) → String.length rest < String.length s.

(** The slash collapse, described run by run: [allowed] is the number of
    slashes the current run may still keep.  A run keeps one slash; a run at
    the very beginning of the string or right after a colon keeps two. *)
Fixpoint collapseRuns (allowed : nat) (s : string) : string :=
  match s with
  | EmptyString => EmptyString
  | String c s' =>
    if decide (c = "/"%char) then
      match allowed with
      | 0 => collapseRuns 0 s'
      | S k => String c (collapseRuns k s')
      end
    else String c (collapseRuns (if decide (c = ":"%char) then 2 else 1) s')
  end.

(** Parameter names: non-empty runs of word characters. *)
Fixpoint allWordChars (w : string) : bool :=
  match w with
  | EmptyString => true
  | String c w' => isWordChar c && allWordChars w'
  end.

Definition isParamName (w : string) : bool :=
  bool_decide (w ≠ "") && allWordChars w.

(** The replacement of line 382 alone, without the [isParam] test in front. *)
Definition replaceParams (vars : gmap string string) (value : string) : string :=
  replaceAll (String.length value) (matchParamWith vars) value.

(** "Every placeholder whose name is bound is replaced by the bound value." *)
Definition replacesBoundPlaceholders (vars : gmap string string) (value : string) : Prop :=
  ∀ pre w post v,
    value = pre +:+ "{" +:+ w +:+ "}" +:+ post → isParamName w = true →
    vars !! w = Some v →
    substituteParams vars value
    = substituteParams vars pre +:+ v +:+ substituteParams vars post.

(** "A name bound to the empty string is treated exactly as an unbound
    one." *)
Definition emptyBindingAsUnbound (s : CanvasState) (name : string) : Prop :=
  getComputedUrl (setVariables (<[name := ""]> (variables s)) s)
  = getComputedUrl (setVariables (delete name (variables s)) s).

(** "No two consecutive slashes are left except right after a colon." *)
Definition doubleSlashOnlyAfterColon (url : string) : Prop :=
  ∀ pre post, url = pre +:+ "//" +:+ post → ∃ pre', pre = pre' +:+ ":".

(** "The body is included exactly when the method takes one and some body
    field has a non-empty key." *)
Definition bodyIncludedIffKeyed (d : BlockData) (computedUrl : option string) : Prop :=
  ∀ cfg, handleSendConfig d computedUrl = Some cfg →
    (is_Some (cfg_data cfg)
     ↔ hasBody (default GET (method d)) = true
       ∧ ∃ f, f ∈ default [] (bodyFields d) ∧ bf_key f ≠ "").

(** The value of the last field with key [k], if there is one. *)
Definition lastValue (k : string) (fields : list BodyField) : option string :=
  bf_value <$> last (filter (λ f, bf_key f = k) fields).

(** ** Example graphs *)

Definition node (nodeId : string) (t : BlockType) (v : string) : ApiBlock :=
  {| id := nodeId; data := blockData t v None |}.

Definition edge (src tgt : string) : Edge :=
  {| edge_id := src +:+ "->" +:+ tgt; source := src; target := tgt |}.

Definition canvas (ns : list ApiBlock) (es : list Edge) (active : option string)
    (vars : gmap string string) : CanvasState :=
  {| nodes := ns; edges := es; activePathId := active; activePathNodes := [];
     request := None; response := None; history := []; bodyHistory := [];
     variables := vars |}.

(** Scenario C: a base, the parameter segment [{postId}] and a method. *)
Definition scenarioC (vars : gmap string string) : CanvasState :=
  canvas [ node "base" BaseUrl "http://localhost:3000";
           node "post" Resource "{postId}";
           node "get" Method "" ]
         [ edge "base" "post"; edge "post" "get" ]
         (Some "get") vars.

(** Scenario C with the parameter segment [{toString}]. *)
Definition scenarioToString (vars : gmap string string) : CanvasState :=
  canvas [ node "base" BaseUrl "http://localhost:3000";
           node "post" Resource "{toString}";
           node "get" Method "" ]
         [ edge "base" "post"; edge "post" "get" ]
         (Some "get") vars.

(** Scenario D: the resource [users] entered as [/users/]. *)
Definition scenarioD : CanvasState :=
  canvas [ node "base" BaseUrl "https://api.github.com";
           node "users" Resource "/users/";
           node "octocat" Resource "octocat";
           node "get" Method "" ]
         [ edge "base" "users"; edge "users" "octocat"; edge "octocat" "get" ]
         (Some "get") ∅.

(** ** The store as a transition system *)

(** What the walk reads of a node: whether it exists and its type. *)
Definition kindOf (ns : list ApiBlock) (nodeId : string) : option BlockType :=
  (type ∘ data) <$> findNode ns nodeId.

(** The stored projection is what recomputing the path gives. *)
Definition projectionCurrent (s : CanvasState) : Prop :=
  computeActivePathNodes (activePathId s) (nodes s) (edges s) = Some (activePathNodes s).

(** An id that occurs nowhere in the state, as [nanoid()] returns. *)
Definition freshId (newId : string) (s : CanvasState) : Prop :=
  (newId ∉ id <$> nodes s) ∧ activePathId s ≠ Some newId
  ∧ ∀ e, e ∈ edges s → source e ≠ newId ∧ target e ≠ newId.

Section StoreSpec.
Context {NodeChange EdgeChange Connection : Type}.
Variable applyNodeChanges : list NodeChange → list ApiBlock → list ApiBlock.
Variable applyEdgeChanges : list EdgeChange → list Edge → list Edge.
Variable addEdge : Connection → string → list Edge → list Edge.

(** The node ids an operation takes from [nanoid()] are fresh. *)
Definition opFresh (op : @StoreOp NodeChange EdgeChange Connection) (s : CanvasState)
    : Prop :=
  match op with
  | OpAddNode newId _ _ _ => freshId newId s
  | OpEnsureRequestNode newNodeId _ _ => freshId newNodeId s
  | _ => True
  end.

(** The states the store goes through, starting from the default state. *)
Inductive reachable : CanvasState → Prop :=
| reachable_default : reachable createDefaultState
| reachable_step s op s' :
    reachable s → opFresh op s →
    step applyNodeChanges applyEdgeChanges addEdge op s = Some s' →
    reachable s'.
End StoreSpec.

Definition historiesBounded (s : CanvasState) : Prop :=
  length (history s) ≤ 10 ∧ length (bodyHistory s) ≤ 50.

(** ** Branches of a graph *)

(** [x] is a node other than a [BaseUrl] whose only incoming edge comes
    from [p]. *)
Definition soleParent (ns : list ApiBlock) (es : list Edge) (x p : string) : Prop :=
  (∃ n, findNode ns x = Some n ∧ type (data n) ≠ BaseUrl)
  ∧ source <$> incomingEdges es x = [p].

(** A branch [x1; ...; xn] that leads back to [top]: the only parent of each
    [xi] is the next id, and the only parent of [xn] is [top]. *)
Fixpoint parentChain (ns : list ApiBlock) (es : list Edge) (xs : list string)
    (top : string) : Prop :=
  match xs with
  | [] => True
  | x :: xs' => soleParent ns es x (hd top xs') ∧ parentChain ns es xs' top
  end.

(** The graph on which [getComputedUrl] and [RequestNode] disagree: the
    method has a dead-end parent [drafts] listed before its parent [users]. *)
Definition deadEndScenario : CanvasState :=
  canvas [ node "base" BaseUrl "http://localhost:3000";
           node "drafts" Resource "drafts";
           node "users" Resource "users";
           node "get" Method "" ]
         [ edge "drafts" "get"; edge "users" "get"; edge "base" "users" ]
         (Some "get") ∅.

(** A cycle without any [BaseUrl] node. *)
Definition cycleScenario : CanvasState :=
  canvas [ node "a" Resource "a"; node "b" Resource "b"; node "get" Method "" ]
         [ edge "a" "b"; edge "b" "a"; edge "b" "get"; edge "get" "b" ]
         (Some "get") ∅.

(** Scenario E: the method [get] has the parent [loop], which closes a cycle
    through [get], listed before its parent [users], which leads to the base. *)
Definition scenarioE : CanvasState :=
  canvas [ node "base" BaseUrl "http://localhost:3000";
           node "users" Resource "users";
           node "loop" Resource "loop";
           node "get" Method "" ]
         [ edge "loop" "get"; edge "users" "get"; edge "base" "users"; edge "get" "loop" ]
         (Some "get") ∅.

(** Sample inputs for running the store. *)
Definition okResponse : ResponseState :=
  {| status := 200; statusText := "OK"; resp_data := "{}"; resp_headers := ∅;
     time := 12; size_ := 2 |}.

Definition twelveResponses : list (@StoreOp unit unit unit) :=
  (λ n : nat, OpSetResponse "item" (Z.of_nat n) okResponse
                (Some "http://localhost:3000/health") (Some GET)) <$> seq 0 12.

(** The default canvas after a click on the login method block. *)
Definition loginSelected : CanvasState :=
  setActivePathNodes
    ["default-base-url"; "default-auth-resource"; "default-login-resource";
     "default-login-method"]
    (setActivePathId (Some "default-login-method") createDefaultState).

(** ** Further notions: resolved paths *)

(** [p] leads from a [BaseUrl] node to [x]: it starts at a [BaseUrl] node,
    every later id is a node of another type, each id is joined to the next
    by an edge, and [x] is the last id. *)
Inductive chainTo (ns : list ApiBlock) (es : list Edge) : list string → string → Prop :=
| chain_base b nb :
    findNode ns b = Some nb → type (data nb) = BaseUrl → chainTo ns es [b] b
| chain_step p y x n e :
    chainTo ns es p y →
    findNode ns x = Some n → type (data n) ≠ BaseUrl →
    e ∈ es → source e = y → target e = x →
    chainTo ns es (p ++ [x]) x.

(** A visited id from which nothing more can be found: it is no node, or it
    is a node other than a [BaseUrl] whose parents are all in [visited]. *)
Definition exhausted (ns : list ApiBlock) (es : list Edge) (visited : gset string)
    (y : string) : Prop :=
  match findNode ns y with
  | None => True
  | Some n => type (data n) ≠ BaseUrl ∧ ∀ e, e ∈ es → target e = y → source e ∈ visited
  end.

(** The default canvas with the health method selected; it is the state
    [setActivePath] gives. *)
Definition healthSelected : CanvasState :=
  setActivePathNodes
    ["default-base-url"; "default-health-resource"; "default-health-method"]
    (setActivePathId (Some "default-health-method") createDefaultState).

(** ** Further notions: strings *)

(** The string with its slashes taken out. *)
Fixpoint withoutSlashes (s : string) : string :=
  match s with
  | EmptyString => EmptyString
  | String c s' =>
    if decide (c = "/"%char) then withoutSlashes s' else String c (withoutSlashes s')
  end.

(** ** Further notions: recording responses *)

(** What one [setResponse(response, url, method)] call records, with the
    [nanoid()] and [Date.now()] it draws. *)
Record Recorded := {
  rec_id : string;
  rec_now : Z;
  rec_response : ResponseState;
  rec_url : string;
  rec_method : HttpMethod
}.

Definition historyItemOf (x : Recorded) : HistoryItem :=
  {| hi_response := rec_response x; hi_id := rec_id x; hi_url := rec_url x;
     hi_method := rec_method x; hi_timestamp := rec_now x |}.

(** The calls [setResponse] for [xs], first to last. *)
Definition recordAll (xs : list Recorded) (s : CanvasState) : CanvasState :=
  foldl (λ s x, setResponse (rec_id x) (rec_now x) (rec_response x)
                  (Some (rec_url x)) (Some (rec_method x)) s) s xs.

Definition sampleRecorded (n : nat) : Recorded :=
  {| rec_id := "item"; rec_now := Z.of_nat n; rec_response := okResponse;
     rec_url := "http://localhost:3000/health"; rec_method := GET |}.

(** ** Further notions: request headers *)

(** The value of the last header with key [k] among those with a non-empty
    value, if there is one. *)
Definition lastHeader (k : string) (hs : list HeaderField) : option string :=
  hf_value <$> last (filter (λ h, hf_key h = k ∧ hf_value h ≠ "") hs).

(** ** ResourceBlock (components/Blocks/ResourceBlock.tsx, lines 20-41) *)

(** After an opening brace: what the greedy group of [/\{(.+)\}/] captures.
    [.+] runs up to the next line terminator and is given back character by
    character until a closing brace follows, so the capture ends before the
    last closing brace of the line; it holds at least one character. *)
Fixpoint greedyClose (seen : bool) (s : string) : option string :=
  match s with
  | EmptyString => None
  | String c s' =>
    if isLineTerminator c then None
    else
      match greedyClose true s' with
      | Some capture => Some (String c capture)
      | None => if bool_decide (c = "}"%char) && seen then Some EmptyString else None
      end
  end.

(** [value.match(/\{(.+)\}/)?.[1]]: the group of the leftmost match. *)
Fixpoint matchBraces (value : string) : option string :=
  match value with
  | EmptyString => None
  | String c s' =>
    if decide (c = "{"%char) then
      match greedyClose false s' with
      | Some capture => Some capture
      | None => matchBraces s'
      end
    else matchBraces s'
  end.

(** [isParam ? value.match(/\{(.+)\}/)?.[1] || '' : ''] *)
Definition paramName (value : string) : string :=
  if isParam value then default "" (matchBraces value) else "".

(** [variables[paramName] || ''], the value handed to the input of the
    parameter editor. *)
Definition paramValue (vars : gmap string string) (value : string) : JsValue :=
  default (JsString "") (jsTruthy (getProperty vars (paramName value))).

(** [handleParamValueChange]: [setVariable(paramName, newValue)]. *)
Definition handleParamValueChange (value newValue : string) (s : CanvasState)
    : CanvasState :=
  setVariable (paramName value) newValue s.

(** ** [handleBearerTokenChange] (MethodBlock.tsx, lines 93-102)

    The one update of the nodes made with [useCanvasStore.setState] and not
    through an action of the store:
    [{ ...node, data: { ...node.data, bearerToken: newToken } }] for the
    block of the closure. *)
Definition withBearerToken (newToken : string) (n : ApiBlock) : ApiBlock :=
  {| id := id n;
     data := {| type := type (data n); value := value (data n); method := method (data n);
                bodyFields := bodyFields (data n); headers := headers (data n);
                bearerToken := Some newToken |} |}.

Definition handleBearerTokenChange (nodeId newToken : string) (s : CanvasState)
    : CanvasState :=
  setNodes (mapNode nodeId (withBearerToken newToken) (nodes s)) s.

(** ** Persistence ([debouncedSave], lines 167-188; [hydrateStore], lines 510-515)

    The object [debouncedSave] hands to [saveState].  IndexedDB keeps a
    structured clone of it, which [loadState] returns; the embedding takes
    the clone to be equal to the object saved. *)
Record SavedState := {
  saved_nodes : list ApiBlock;
  saved_edges : list Edge;
  saved_activePathId : option string;
  saved_activePathNodes : list string;
  saved_history : list HistoryItem;
  saved_bodyHistory : list RequestBodyHistoryItem;
  saved_variables : gmap string string
}.

Definition savedStateOf (state : CanvasState) : SavedState :=
  {| saved_nodes := nodes state; saved_edges := edges state;
     saved_activePathId := activePathId state;
     saved_activePathNodes := activePathNodes state;
     saved_history := history state; saved_bodyHistory := bodyHistory state;
     saved_variables := variables state |}.

(** [hydrateStore] with the result of [loadState]:
    [if (savedState) useCanvasStore.setState(savedState)]. *)
Definition hydrateStore (savedState : option SavedState) (s : CanvasState) : CanvasState :=
  match savedState with
  | None => s
  | Some saved =>
    {| nodes := saved_nodes saved; edges := saved_edges saved;
       activePathId := saved_activePathId saved;
       activePathNodes := saved_activePathNodes saved;
       request := request s; response := response s;
       history := saved_history saved; bodyHistory := saved_bodyHistory saved;
       variables := saved_variables saved |}
  end.

Section Sessions.
Context {NodeChange EdgeChange Connection : Type}.
Variable applyNodeChanges : list NodeChange → list ApiBlock → list ApiBlock.
Variable applyEdgeChanges : list EdgeChange → list Edge → list Edge.
Variable addEdge : Connection → string → list Edge → list Edge.

(** The states the store goes through from [start] on. *)
Inductive reachableFrom (start : CanvasState) : CanvasState → Prop :=
| from_start : reachableFrom start start
| from_step s op s' :
    reachableFrom start s → opFresh op s →
    step applyNodeChanges applyEdgeChanges addEdge op s = Some s' →
    reachableFrom start s'.
End Sessions.

(** ** OpenAPI import (the module of [importOpenAPI])

    The import turns the [paths] of an OpenAPI document into blocks and
    edges.  Reading the document ([JSON.parse], the YAML parser) is outside
    the embedding; [importOpenAPI] is embedded from the parsed document on.
    The positions given to the blocks (the [LAYOUT] constants, [depth],
    [yOffset] and the height [processNode] returns, which only feeds
    positions) are rendering attributes and are left out with [position]. *)

(** The members of a schema that the import reads: [$ref] and the keys of
    [properties], in [Object.keys] order. *)
Record OpenAPISchema := {
  schema_ref : option string;
  schema_properties : option (list string)
}.

Record OpenAPIMediaType := { media_schema : option OpenAPISchema }.

(** [content]: its member ['application/json']. *)
Record OpenAPIContent := { application_json : option OpenAPIMediaType }.

Record OpenAPIRequestBody := { body_content : option OpenAPIContent }.

Record OpenAPIOperation := { requestBody : option OpenAPIRequestBody }.

Record OpenAPIPathItem := {
  item_get : option OpenAPIOperation;
  item_post : option OpenAPIOperation;
  item_put : option OpenAPIOperation;
  item_delete : option OpenAPIOperation;
  item_patch : option OpenAPIOperation
}.

Record OpenAPIServer := { server_url : string }.

Record OpenAPIComponents := { comp_schemas : option (gmap string OpenAPISchema) }.

(** [paths] is the list [Object.entries(spec.paths)], in that order. *)
Record OpenAPISpec := {
  spec_servers : option (list OpenAPIServer);
  spec_paths : option (list (string * OpenAPIPathItem));
  spec_components : option OpenAPIComponents
}.

Fixpoint stripPrefix (prefix s : string) : option string :=
  match prefix, s with
  | EmptyString, _ => Some s
  | String p prefix', String c s' =>
    if decide (p = c) then stripPrefix prefix' s' else None
  | String _ _, EmptyString => None
  end.

Fixpoint noLineTerminator (s : string) : bool :=
  match s with
  | EmptyString => true
  | String c s' => negb (isLineTerminator c) && noLineTerminator s'
  end.

(** [ref.match(/^#\/components\/schemas\/(.+)$/)]: the group is the whole
    text after the prefix, which must be non-empty and free of line
    terminators. *)
Definition matchSchemaRef (ref : string) : option string :=
  match stripPrefix "#/components/schemas/" ref with
  | Some name =>
    if negb (bool_decide (name = "")) && noLineTerminator name then Some name else None
  | None => None
  end.

(** [spec.components.schemas[match[1]]].  At a name the object does not
    have, a member inherited from [Object.prototype] is returned: read as a
    schema it has neither [$ref] nor [properties]. *)
Definition resolveRef (ref : string) (spec : OpenAPISpec) : option OpenAPISchema :=
  match matchSchemaRef ref, spec_components spec ≫= comp_schemas with
  | Some name, Some schemas =>
    match schemas !! name with
    | Some schema => Some schema
    | None =>
      match inheritedMember name with
      | Some _ => Some {| schema_ref := None; schema_properties := None |}
      | None => None
      end
    end
  | _, _ => None
  end.

Definition extractBodyFields (body : option OpenAPIRequestBody) (spec : OpenAPISpec)
    : list BodyField :=
  match ((body ≫= body_content) ≫= application_json) ≫= media_schema with
  | None => []
  | Some schema =>
    let resolved :=
      match truthy (schema_ref schema) with
      | Some ref => resolveRef ref spec
      | None => Some schema
      end in
    match resolved with
    | None => []
    | Some schema =>
      match schema_properties schema with
      | None => []
      | Some keys => (λ key, {| bf_key := key; bf_value := "" |}) <$> keys
      end
    end
  end.

(** [path.split('/')] *)
Fixpoint splitSlash (s : string) : list string :=
  match s with
  | EmptyString => [EmptyString]
  | String c s' =>
    if decide (c = "/"%char) then EmptyString :: splitSlash s'
    else
      match splitSlash s' with
      | first :: others => String c first :: others
      | [] => [String c EmptyString]
      end
  end.

Definition parsePathSegments (path : string) : list string :=
  filter (λ segment, 0 < String.length segment) (splitSlash path).

(** [PathNode]; the [Map] of children is the list of its entries in
    insertion order. *)
#[warnings="-register-all"] Inductive PathNode := mkPathNode {
  segment : string;
  children : list (string * PathNode);
  methods : list (HttpMethod * OpenAPIOperation);
  fullPath : string
}.

(** [children.get(segment)] *)
Fixpoint getChild (key : string) (cs : list (string * PathNode)) : option PathNode :=
  match cs with
  | [] => None
  | (k, child) :: cs' => if decide (k = key) then Some child else getChild key cs'
  end.

(** [children.set(segment, child)]: the entry of an existing key is replaced
    where it stands, a new key is appended. *)
Fixpoint setChild (key : string) (child : PathNode) (cs : list (string * PathNode))
    : list (string * PathNode) :=
  match cs with
  | [] => [(key, child)]
  | (k, c) :: cs' =>
    if decide (k = key) then (k, child) :: cs' else (k, c) :: setChild key child cs'
  end.

(** The loop over [httpMethods]: the operations a path item defines, in the
    order get, post, put, delete, patch. *)
Definition pathItemMethods (pathItem : OpenAPIPathItem)
    : list (HttpMethod * OpenAPIOperation) :=
  omap (λ '(key, method), (λ operation, (method, operation)) <$> key pathItem)
    [ (item_get, GET); (item_post, POST); (item_put, PUT); (item_delete, DELETE);
      (item_patch, PATCH) ].

(** One pass of the loop over the entries of [paths], from the node
    [current] on: the descent along the segments, which creates the missing
    children, and the push of the methods at the node reached.  The source
    updates the nodes in place; here the nodes on the way are rebuilt. *)
Fixpoint addPath (segments : list string) (currentPath : string)
    (pathItem : OpenAPIPathItem) (current : PathNode) : PathNode :=
  match segments with
  | [] =>
    mkPathNode (segment current) (children current)
      (methods current ++ pathItemMethods pathItem) (fullPath current)
  | seg :: segments' =>
    let currentPath := currentPath +:+ "/" +:+ seg in
    let child :=
      default (mkPathNode seg [] [] currentPath) (getChild seg (children current)) in
    mkPathNode (segment current)
      (setChild seg (addPath segments' currentPath pathItem child) (children current))
      (methods current) (fullPath current)
  end.

Definition buildPathTree (paths : list (string * OpenAPIPathItem)) : PathNode :=
  foldl (λ root '(path, pathItem), addPath (parsePathSegments path) "" pathItem root)
    (mkPathNode "" [] [] "") paths.

(** The variables [importOpenAPI] shares with its closure [processNode]:
    the two arrays, the counter, and the number of [nanoid()] calls made. *)
Record ImportState := {
  imp_nodes : list ApiBlock;
  imp_edges : list Edge;
  totalEndpoints : nat;
  nanoidCalls : nat
}.

Record ImportStats := { endpoints : nat; stats_baseUrl : string; stats_paths : nat }.

Record ImportResult := {
  res_nodes : list ApiBlock;
  res_edges : list Edge;
  stats : ImportStats
}.

(** The data of an imported method block:
    [bodyFields: bodyFields.length > 0 ? bodyFields : undefined]. *)
Definition methodBlockData (m : HttpMethod) (fields : list BodyField) : BlockData :=
  {| type := Method; value := ""; method := Some m;
     bodyFields := if decide (0 < length fields) then Some fields else None;
     headers := None; bearerToken := None |}.

Section OpenApiImport.
(** [nanoid k] is the id returned by call number [k] of [nanoid()]. *)
Variable nanoid : nat → string.
Variable spec : OpenAPISpec.

(** One pass of the loop over [child.methods]. *)
Definition addMethodNode (nodeId : string) (st : ImportState)
    (entry : HttpMethod * OpenAPIOperation) : ImportState :=
  let methodId := nanoid (nanoidCalls st) in
  let fields := extractBodyFields (requestBody entry.2) spec in
  {| imp_nodes := imp_nodes st ++ [ {| id := methodId; data := methodBlockData entry.1 fields |} ];
     imp_edges := imp_edges st
       ++ [ {| edge_id := nanoid (S (nanoidCalls st)); source := nodeId; target := methodId |} ];
     totalEndpoints := S (totalEndpoints st);
     nanoidCalls := S (S (nanoidCalls st)) |}.

(** The resource block and the edge from the parent that the loop over
    [node.children] pushes first. *)
Definition addResourceNode (parentId seg : string) (st : ImportState) : ImportState :=
  let nodeId := nanoid (nanoidCalls st) in
  {| imp_nodes := imp_nodes st ++ [ {| id := nodeId; data := blockData Resource seg None |} ];
     imp_edges := imp_edges st
       ++ [ {| edge_id := nanoid (S (nanoidCalls st)); source := parentId; target := nodeId |} ];
     totalEndpoints := totalEndpoints st;
     nanoidCalls := S (S (nanoidCalls st)) |}.

(** The loop [for (const [segment, child] of node.children)], given the
    recursive call. *)
Definition processChildren (processNode : PathNode → string → ImportState → ImportState)
    (parentId : string) : list (string * PathNode) → ImportState → ImportState :=
  fix loop (cs : list (string * PathNode)) (st : ImportState) : ImportState :=
    match cs with
    | [] => st
    | (seg, child) :: cs' =>
      let nodeId := nanoid (nanoidCalls st) in
      let st := addResourceNode parentId seg st in
      let st := foldl (addMethodNode nodeId) st (methods child) in
      let st := processNode child nodeId st in
      loop cs' st
    end.

Fixpoint processNode (node : PathNode) (parentId : string) (st : ImportState)
    : ImportState :=
  match node with
  | mkPathNode _ cs _ _ => processChildren processNode parentId cs st
  end.

Definition importBaseUrl : string :=
  default "http://localhost:3000" (truthy (server_url <$> (spec_servers spec ≫= head))).

Definition importOpenAPI : ImportResult :=
  let baseUrl := importBaseUrl in
  let baseUrlId := nanoid 0 in
  let st :=
    {| imp_nodes := [ {| id := baseUrlId; data := blockData BaseUrl baseUrl None |} ];
       imp_edges := []; totalEndpoints := 0; nanoidCalls := 1 |} in
  let pathTree := buildPathTree (default [] (spec_paths spec)) in
  let st := processNode pathTree baseUrlId st in
  {| res_nodes := imp_nodes st; res_edges := imp_edges st;
     stats := {| endpoints := totalEndpoints st; stats_baseUrl := baseUrl;
                 stats_paths := length (default [] (spec_paths spec)) |} |}.
End OpenApiImport.

(** ** Notions used to state what the import produces *)

(** The tree holds the operation [entry] at the end of the segments [segs]. *)
Inductive hasEndpoint : PathNode → list string → HttpMethod * OpenAPIOperation → Prop :=
| endpoint_here node entry :
    entry ∈ methods node → hasEndpoint node [] entry
| endpoint_below node seg child segs entry :
    getChild seg (children node) = Some child → hasEndpoint child segs entry →
    hasEndpoint node (seg :: segs) entry.

(** Below the block [parent] hangs a chain of resource blocks, one for each
    of the segments and with the segment as its value, that ends in a method
    block with the data [d]; [ids] are the ids of these blocks. *)
Inductive routeTo (ns : list ApiBlock) (es : list Edge) (d : BlockData)
    : string → list string → list string → Prop :=
| route_method parent methodId edgeId :
    {| id := methodId; data := d |} ∈ ns →
    {| edge_id := edgeId; source := parent; target := methodId |} ∈ es →
    routeTo ns es d parent [] [methodId]
| route_resource parent seg segs nodeId edgeId ids :
    {| id := nodeId; data := blockData Resource seg None |} ∈ ns →
    {| edge_id := edgeId; source := parent; target := nodeId |} ∈ es →
    routeTo ns es d nodeId segs ids →
    routeTo ns es d parent (seg :: segs) (nodeId :: ids).

(** The number of operations held by the nodes below [node]. *)
Fixpoint countBelow (node : PathNode) : nat :=
  match node with
  | mkPathNode _ cs _ _ =>
    (fix sum (cs : list (string * PathNode)) : nat :=
       match cs with
       | [] => 0
       | (_, child) :: cs' => length (methods child) + countBelow child + sum cs'
       end) cs
  end.

Definition countChildren (cs : list (string * PathNode)) : nat :=
  sum_list ((λ kc, length (methods kc.2) + countBelow kc.2) <$> cs).

(** The invariant of the import loop, for the base URL [baseUrl]. *)
Record importInv (nanoid : nat → string) (baseUrl : string) (st : ImportState) : Prop := {
  inv_ids : NoDup (id <$> imp_nodes st);
  inv_edge_ids : NoDup (edge_id <$> imp_edges st);
  inv_targets : NoDup (target <$> imp_edges st);
  inv_issued : ∀ x, x ∈ (id <$> imp_nodes st) ++ (edge_id <$> imp_edges st) →
                    ∃ k, k < nanoidCalls st ∧ x = nanoid k;
  inv_disjoint : ∀ x, x ∈ id <$> imp_nodes st → x ∉ edge_id <$> imp_edges st;
  inv_ends : ∀ e, e ∈ imp_edges st →
                  source e ∈ id <$> imp_nodes st ∧ target e ∈ id <$> imp_nodes st;
  inv_root : ∀ e, e ∈ imp_edges st → target e ≠ nanoid 0;
  inv_base : ∃ rest,
      imp_nodes st = {| id := nanoid 0; data := blockData BaseUrl baseUrl None |} :: rest
      ∧ Forall (λ n, type (data n) ≠ BaseUrl) rest;
  inv_connected : ∀ n, n ∈ imp_nodes st → reachesBase (imp_nodes st) (imp_edges st) (id n);
  inv_count : totalEndpoints st
              = length (filter (λ n, type (data n) = Method) (imp_nodes st))
}.

(** Ids for the examples: call [k] returns [k] times the letter i followed
    by the letter n. *)
Fixpoint sampleNanoid (k : nat) : string :=
  match k with
  | 0 => "n"
  | S k' => String "i" (sampleNanoid k')
  end.

Definition operationWith (keys : list string) : OpenAPIOperation :=
  {| requestBody := Some {| body_content := Some {| application_json := Some
       {| media_schema := Some {| schema_ref := None; schema_properties := Some keys |} |} |} |} |}.

Definition noOperation : OpenAPIPathItem :=
  {| item_get := None; item_post := None; item_put := None; item_delete := None;
     item_patch := None |}.

(** A document with the paths [/users], [/users/{userId}] and [/]. *)
Definition sampleSpec : OpenAPISpec :=
  {| spec_servers := Some [ {| server_url := "https://api.example.com" |} ];
     spec_paths := Some
       [ ("/users",
          {| item_get := Some {| requestBody := None |};
             item_post := Some (operationWith ["name"; "email"]);
             item_put := None; item_delete := None; item_patch := None |});
         ("/users/{userId}",
          {| item_get := Some {| requestBody := None |};
             item_post := None; item_put := None;
             item_delete := Some {| requestBody := None |}; item_patch := None |});
         ("/",
          {| item_get := Some {| requestBody := None |};
             item_post := None; item_put := None; item_delete := None;
             item_patch := None |}) ];
     spec_components := None |}.

(** The arrays only grow. *)
Definition grows (st st' : ImportState) : Prop :=
  imp_nodes st `prefix_of` imp_nodes st' ∧ imp_edges st `prefix_of` imp_edges st'.

(** A segment as [parsePathSegments] returns them. *)
Definition plainSegment (seg : string) : Prop :=
  seg ≠ "" ∧ ∀ pre post, seg ≠ pre +:+ "/" +:+ post.

(** ** Body fields as shared objects
    ([MethodBlock.tsx], lines 40-68 and 425-428; [useCanvasStore.ts],
    lines 272-282 and 454-473)

    The body fields of a block are JS objects, and [handleFieldChange]
    writes into them in place.  To follow which arrays hold the same object,
    the field objects live in a heap, a list indexed by address, and an
    array of fields is the list of the addresses of its elements.  The
    arrays themselves are never written after they are built ([...spread],
    [filter], [map] and [slice] build new ones), so they are kept as values.
    The state below is what the closures of one method block share with the
    store: the heap, the member [data.bodyFields] of the block, and the body
    history.  A closure is taken to run on the block data of the current
    store state, as it does after the render that follows every update. *)

Inductive FieldMember := KeyMember | ValueMember.

Record BodyHistoryRef := {
  bhr_id : string;
  bhr_method : HttpMethod;
  bhr_url : string;
  bhr_bodyFields : list nat;
  bhr_timestamp : Z
}.

Record FieldStore := {
  fieldObjects : list BodyField;
  blockBodyFields : option (list nat);
  bodyHistoryRefs : list BodyHistoryRef
}.

(** [const bodyFields = data.bodyFields || []] *)
Definition blockFields (st : FieldStore) : list nat := default [] (blockBodyFields st).

(** [object[field] = newValue] *)
Definition writeMember (field : FieldMember) (newValue : string) (o : BodyField)
    : BodyField :=
  match field with
  | KeyMember => {| bf_key := newValue; bf_value := bf_value o |}
  | ValueMember => {| bf_key := bf_key o; bf_value := newValue |}
  end.

(** [updateNodeBodyFields(id, bodyFields)] for the block of the closure. *)
Definition setBlockFields (bodyFields : list nat) (st : FieldStore) : FieldStore :=
  {| fieldObjects := fieldObjects st; blockBodyFields := Some bodyFields;
     bodyHistoryRefs := bodyHistoryRefs st |}.

(** [handleFieldChange]: the copy [[...bodyFields]] holds the same objects,
    and the assignment writes into the object at [index].  The result is
    [None] when [newFields[index]] is [undefined] and the assignment throws. *)
Definition handleFieldChange (index : nat) (field : FieldMember) (newValue : string)
    (st : FieldStore) : option FieldStore :=
  let newFields := blockFields st in
  match newFields !! index with
  | None => None
  | Some address =>
    Some (setBlockFields newFields
            {| fieldObjects := alter (writeMember field newValue) address (fieldObjects st);
               blockBodyFields := blockBodyFields st;
               bodyHistoryRefs := bodyHistoryRefs st |})
  end.

(** [addBodyField]: a new object at the end of a new array. *)
Definition addBodyField (st : FieldStore) : FieldStore :=
  setBlockFields (blockFields st ++ [length (fieldObjects st)])
    {| fieldObjects := fieldObjects st ++ [ {| bf_key := ""; bf_value := "" |} ];
       blockBodyFields := blockBodyFields st;
       bodyHistoryRefs := bodyHistoryRefs st |}.

(** [removeBodyField]: [bodyFields.filter((_, i) => i !== index)]. *)
Definition removeBodyField (index : nat) (st : FieldStore) : FieldStore :=
  setBlockFields
    ((filter (λ entry, entry.1 ≠ index) (imap pair (blockFields st))).*2) st.

(** [addBodyHistory] of the store, on field objects:
    [bodyFields.map(field => ({ ...field }))] reads every object and puts a
    copy at a new address.  The result is [None] for an address that holds no
    object, which no array of the program has. *)
Definition addBodyHistoryShared (newId : string) (now : Z) (m : HttpMethod)
    (url : string) (bodyFields : list nat) (st : FieldStore) : option FieldStore :=
  if decide (length bodyFields = 0) then Some st
  else
    match mapM (λ address, fieldObjects st !! address) bodyFields with
    | None => None
    | Some clones =>
      let historyItem :=
        {| bhr_id := newId; bhr_method := m; bhr_url := url;
           bhr_bodyFields := seq (length (fieldObjects st)) (length clones);
           bhr_timestamp := now |} in
      Some {| fieldObjects := fieldObjects st ++ clones;
              blockBodyFields := blockBodyFields st;
              bodyHistoryRefs := take 50 (historyItem :: bodyHistoryRefs st) |}
    end.

(** [onSelectBody] of the history modal, as [MethodBlock] passes it:
    [updateNodeBodyFields(id, bodyFields)] with the array of the item. *)
Definition onSelectBody (bodyFields : list nat) (st : FieldStore) : FieldStore :=
  setBlockFields bodyFields st.

(** What an array holds: the objects at its addresses. *)
Definition fieldsAt (objects : list BodyField) (addresses : list nat) : list BodyField :=
  omap (λ address, objects !! address) addresses.

(** Every address of the block's array and of the history holds an object,
    and no array holds an object twice. *)
Definition fieldStoreWf (st : FieldStore) : Prop :=
  NoDup (blockFields st)
  ∧ (∀ a, a ∈ blockFields st → a < length (fieldObjects st))
  ∧ ∀ item, item ∈ bodyHistoryRefs st →
            NoDup (bhr_bodyFields item)
            ∧ ∀ a, a ∈ bhr_bodyFields item → a < length (fieldObjects st).

(** A block with two body fields and an empty history. *)
Definition sampleFieldStore : FieldStore :=
  {| fieldObjects := [ {| bf_key := "email"; bf_value := "a@b.c" |};
                       {| bf_key := "password"; bf_value := "secret" |} ];
     blockBodyFields := Some [0; 1];
     bodyHistoryRefs := [] |}.
(** * Termination of the backward walk *)

Section Termination.
Variables (ns : list ApiBlock) (es : list Edge).

Lemma size_difference_le (X Y : gset string) : size (X ∖ Y) ≤ size X.
Proof. apply subseteq_size. set_solver. Qed.

Lemma size_list_to_set_le (l : list string) :
  size (list_to_set l : gset string) ≤ length l.
Proof.
  induction l as [|x l IH].
  - by rewrite list_to_set_nil, size_empty.
  - rewrite list_to_set_cons, size_union_alt, size_singleton. cbn [length].
    pose proof (size_difference_le (list_to_set l) {[x]}). lia.
Qed.

Lemma candidateIds_size target : size (candidateIds es target) < walkFuel es.
Proof.
  unfold candidateIds, walkFuel.
  rewrite size_union_alt, size_singleton.
  pose proof (size_difference_le (list_to_set (source <$> es)) {[target]}).
  pose proof (size_list_to_set_le (source <$> es)) as Hle.
  rewrite length_fmap in Hle. lia.
Qed.

Lemma unvisited_shrinks (U v v' : gset string) (x : string) :
  x ∈ U → x ∉ v → {[x]} ∪ v ⊆ v' → size (U ∖ v') < size (U ∖ v).
Proof. intros HU Hv Hsub. apply subset_size. set_solver. Qed.

(** The loop returns when every call it makes does, and keeps the visited
    set growing. *)
Lemma forEachEdge_returns {S : Type} (vis : S → gset string)
    (call : string → S → option (bool * S)) (good : S → Prop) incoming :
  (∀ e st, e ∈ incoming → good st →
     ∃ b st', call (source e) st = Some (b, st') ∧ vis st ⊆ vis st' ∧ good st') →
  ∀ st, good st →
    ∃ b st', forEachEdge call incoming st = Some (b, st') ∧ vis st ⊆ vis st' ∧ good st'.
Proof.
  induction incoming as [|e incoming IH]; intros Hcall st Hgood; simpl.
  - eauto.
  - destruct (Hcall e st) as (b & st1 & -> & Hsub & Hgood1); [left | done |].
    destruct b; [eauto |].
    destruct (IH (λ e' st' He', Hcall e' st' (list_elem_of_further _ _ _ He')) st1 Hgood1)
      as (b & st2 & -> & Hsub2 & Hgood2).
    exists b, st2. split_and!; [done | set_solver | done].
Qed.

Lemma incomingEdges_elem e nodeId :
  e ∈ incomingEdges es nodeId → e ∈ es ∧ target e = nodeId.
Proof. unfold incomingEdges. rewrite list_elem_of_filter. tauto. Qed.

Lemma source_candidate e target : e ∈ es → source e ∈ candidateIds es target.
Proof.
  intros He. unfold candidateIds. apply elem_of_union_r, elem_of_list_to_set.
  by apply list_elem_of_fmap_2.
Qed.

Lemma traceBackwards_returns target fuel : ∀ nodeId st,
  nodeId ∈ candidateIds es target →
  size (candidateIds es target ∖ visitedNodes st) < fuel →
  ∃ b st', traceBackwards fuel ns es nodeId st = Some (b, st')
           ∧ visitedNodes st ⊆ visitedNodes st'.
Proof.
  induction fuel as [|fuel IH]; intros nodeId st Hin Hsize; [lia |].
  cbn [traceBackwards].
  destruct (decide (nodeId ∈ visitedNodes st)) as [|Hfresh]; [eauto |].
  destruct (findNode ns nodeId) as [node|]; [| eexists _, _; split; [done | set_solver]].
  destruct (decide (type (data node) = BaseUrl)); [eexists _, _; split; [done | set_solver] |].
  destruct (forEachEdge_returns visitedNodes (traceBackwards fuel ns es)
              (λ st', {[nodeId]} ∪ visitedNodes st ⊆ visitedNodes st')
              (incomingEdges es nodeId)) with (st := unshiftId nodeId (markVisited nodeId st))
    as (b & st' & -> & Hsub & _).
  - intros e st1 He Hgood.
    destruct (IH (source e) st1) as (b & st2 & Hcall & Hsub).
    + apply source_candidate. by apply incomingEdges_elem in He as [? _].
    + pose proof (unvisited_shrinks _ _ _ _ Hin Hfresh Hgood). lia.
    + exists b, st2. split_and!; [done | done | set_solver].
  - done.
  - destruct b; eexists _, _; (split; [done |]); cbn in *; set_solver.
Qed.
End Termination.

(** * What the walks compute *)

Section Walk.
Variables (ns : list ApiBlock) (es : list Edge).

(** A Hoare-style rule for the loop: [P] holds as long as calls fail, and
    the call that succeeds establishes [Q] of its source. *)
Lemma forEachEdge_rule {S : Type} (call : string → S → option (bool * S))
    (P : S → Prop) (Q : string → S → Prop) incoming :
  (∀ e st b st', e ∈ incoming → P st → call (source e) st = Some (b, st') →
     if b then Q (source e) st' else P st') →
  ∀ st b st', P st → forEachEdge call incoming st = Some (b, st') →
    if b then ∃ e, e ∈ incoming ∧ Q (source e) st' else P st'.
Proof.
  induction incoming as [|e incoming IH]; intros Hcall st b st' HP Hrun; simpl in Hrun.
  - by simplify_eq.
  - destruct (call (source e) st) as [[[] st1]|] eqn:Hc; [| | done].
    + simplify_eq. exists e. split; [left |].
      by apply (Hcall e st true st'); [left | |].
    + assert (P st1) as HP1 by (by apply (Hcall e st false st1); [left | |]).
      specialize (IH (λ e' s1 b1 s2 He', Hcall e' s1 b1 s2 (list_elem_of_further _ _ _ He'))
                    st1 b st' HP1 Hrun).
      destruct b; [| done].
      destruct IH as (e' & He' & HQ). exists e'. split; [by right | done].
Qed.

(** A walk that succeeds has found a [BaseUrl] ancestor; a walk that fails
    leaves [pathNodeIds] as it found it. *)
Lemma traceBackwards_sound fuel : ∀ nodeId st b st',
  traceBackwards fuel ns es nodeId st = Some (b, st') →
  if b then reachesBase ns es nodeId else pathNodeIds st' = pathNodeIds st.
Proof.
  induction fuel as [|fuel IH]; intros nodeId st b st' Hrun; [done |].
  cbn [traceBackwards] in Hrun.
  destruct (decide (nodeId ∈ visitedNodes st)); [by simplify_eq |].
  destruct (findNode ns nodeId) as [node|] eqn:Hfind; [| by simplify_eq].
  destruct (decide (type (data node) = BaseUrl)) as [Hbase|_].
  { simplify_eq. by eapply reaches_here. }
  destruct (forEachEdge _ _ _) as [[b1 st1]|] eqn:Hloop; [| done].
  apply (forEachEdge_rule _
           (λ s, pathNodeIds s = nodeId :: pathNodeIds st)
           (λ x _, reachesBase ns es x)) in Hloop; [| | done].
  - destruct b1; simplify_eq.
    + destruct Hloop as (e & [He Htgt]%incomingEdges_elem & Hreach).
      by eapply reaches_back.
    + cbn. by rewrite Hloop.
  - intros e s1 b2 s2 _ HP Hcall. apply IH in Hcall.
    destruct b2; [done | congruence].
Qed.

(** A call that returns leaves its id in the visited set, and never takes
    an id out of it. *)
Lemma traceBackwards_marks fuel : ∀ nodeId st b st',
  traceBackwards fuel ns es nodeId st = Some (b, st') →
  nodeId ∈ visitedNodes st' ∧ visitedNodes st ⊆ visitedNodes st'.
Proof.
  induction fuel as [|fuel IH]; intros nodeId st b st' Hrun; [done |].
  cbn [traceBackwards] in Hrun.
  destruct (decide (nodeId ∈ visitedNodes st)); [by simplify_eq |].
  destruct (findNode ns nodeId) as [node|]; [| simplify_eq; cbn; set_solver].
  destruct (decide (type (data node) = BaseUrl)); [simplify_eq; cbn; set_solver |].
  destruct (forEachEdge _ _ _) as [[b1 st1]|] eqn:Hloop; [| done].
  apply (forEachEdge_rule _
           (λ s, {[nodeId]} ∪ visitedNodes st ⊆ visitedNodes s)
           (λ _ s, {[nodeId]} ∪ visitedNodes st ⊆ visitedNodes s)) in Hloop; [| | done].
  - destruct b1; simplify_eq.
    + destruct Hloop as (e & _ & Hsub). set_solver.
    + cbn. set_solver.
  - intros e s1 b2 s2 _ HP Hcall. apply IH in Hcall as [_ Hsub].
    destruct b2; set_solver.
Qed.

(** ** The URL walk follows the id walk

    Both closures test and extend the visited set in the same way, so they
    enter the same nodes and succeed together. *)
Lemma forEachEdge_sameOutcome call ucall incoming :
  (∀ e st ust, e ∈ incoming → sameVisited st ust →
     sameOutcome (call (source e) st) (ucall (source e) ust)) →
  ∀ st ust, sameVisited st ust →
    sameOutcome (forEachEdge call incoming st) (forEachEdge ucall incoming ust).
Proof.
  induction incoming as [|e incoming IH]; intros Hcall st ust Hsame; simpl.
  - done.
  - pose proof (Hcall e st ust (list_elem_of_here _ _) Hsame) as H1.
    unfold sameOutcome in H1.
    destruct (call (source e) st) as [[b st1]|], (ucall (source e) ust) as [[ub ust1]|];
      try done.
    destruct H1 as [<- Hsame1]. destruct b; [done |].
    apply IH; [| done]. intros e' ? ? He'. apply Hcall. by right.
Qed.

Lemma traceBackwardsUrl_sameOutcome vars fuel : ∀ nodeId st ust,
  sameVisited st ust →
  sameOutcome (traceBackwards fuel ns es nodeId st)
              (traceBackwardsUrl fuel ns es vars nodeId ust).
Proof.
  induction fuel as [|fuel IH]; intros nodeId st ust Hsame; [done |].
  cbn [traceBackwards traceBackwardsUrl]. unfold sameVisited in Hsame.
  rewrite Hsame.
  destruct (decide (nodeId ∈ visitedNodes st)); [done |].
  destruct (findNode ns nodeId) as [node|]; [| by cbn; unfold sameVisited; cbn; rewrite Hsame].
  destruct (decide (type (data node) = BaseUrl)).
  { cbn. unfold sameVisited. cbn. by rewrite Hsame. }
  pose proof (forEachEdge_sameOutcome
                (traceBackwards fuel ns es) (traceBackwardsUrl fuel ns es vars)
                (incomingEdges es nodeId) (λ e s us _, IH (source e) s us)
                (unshiftId nodeId (markVisited nodeId st))
                (if decide (type (data node) = Resource)
                 then unshiftSegment (substituteParams vars (value (data node)))
                        (markVisitedUrl nodeId ust)
                 else markVisitedUrl nodeId ust)) as Hloop.
  assert (sameVisited (unshiftId nodeId (markVisited nodeId st))
            (if decide (type (data node) = Resource)
             then unshiftSegment (substituteParams vars (value (data node)))
                    (markVisitedUrl nodeId ust)
             else markVisitedUrl nodeId ust)) as Hpre.
  { unfold sameVisited.
    destruct (decide (type (data node) = Resource)); cbn; by rewrite Hsame. }
  specialize (Hloop Hpre). unfold sameOutcome in Hloop |- *.
  destruct (forEachEdge (traceBackwards fuel ns es) _ _) as [[b st1]|],
           (forEachEdge (traceBackwardsUrl fuel ns es vars) _ _) as [[ub ust1]|];
    try done.
  destruct Hloop as [<- Hs]. by destruct b.
Qed.
End Walk.

(** * Termination and failure of path resolution *)

Lemma truthy_Some a t : truthy a = Some t → a = Some t ∧ t ≠ "".
Proof.
  unfold truthy. destruct a as [t'|]; [| done].
  destruct (decide (t' = "")); [done |]. intros ?; by simplify_eq.
Qed.

Lemma walks_return ns es vars target fuel :
  size (candidateIds es target) < fuel →
  ∃ b st ust,
    traceBackwards fuel ns es target emptyTrace = Some (b, st)
    ∧ traceBackwardsUrl fuel ns es vars target emptyUrlTrace = Some (b, ust).
Proof.
  intros Hfuel.
  destruct (traceBackwards_returns ns es target fuel target emptyTrace)
    as (b & st & Hrun & _).
  { unfold candidateIds. set_solver. }
  { pose proof (size_difference_le (candidateIds es target) (visitedNodes emptyTrace)). lia. }
  pose proof (traceBackwardsUrl_sameOutcome ns es vars fuel target emptyTrace emptyUrlTrace
                eq_refl) as Hsame.
  rewrite Hrun in Hsame. unfold sameOutcome in Hsame.
  destruct (traceBackwardsUrl _ _ _ _ _ _) as [[ub ust]|]; [| done].
  destruct Hsame as [<- _]. eauto.
Qed.

(** C3. On every finite graph, cyclic or not, and for every target id the two
    backward walks return: a recursion depth above the number of distinct
    ids the walk can enter (the target and the edge sources) is never
    exhausted.  The visited set is the reason: a call leaves its id in the
    set, no call takes an id out, and a call on an id in the set returns at
    once, so an id is entered at most once.  With the depth they allow,
    [computeActivePathNodes] and [getComputedUrl] return on every state. *)
Theorem walks_terminate (s : CanvasState) (target : string) (fuel : nat) :
  size (candidateIds (edges s) target) < fuel →
  (∃ b st, traceBackwards fuel (nodes s) (edges s) target emptyTrace = Some (b, st))
  ∧ (∃ b ust, traceBackwardsUrl fuel (nodes s) (edges s) (variables s) target emptyUrlTrace
              = Some (b, ust))
  ∧ (∀ depth nodeId st b st',
       traceBackwards depth (nodes s) (edges s) nodeId st = Some (b, st') →
       nodeId ∈ visitedNodes st' ∧ visitedNodes st ⊆ visitedNodes st')
  ∧ (∀ depth nodeId st,
       nodeId ∈ visitedNodes st →
       traceBackwards (S depth) (nodes s) (edges s) nodeId st = Some (false, st))
  ∧ is_Some (computeActivePathNodes (activePathId s) (nodes s) (edges s))
  ∧ is_Some (getComputedUrl s).
Proof.
  intros Hfuel.
  destruct (walks_return (nodes s) (edges s) (variables s) target fuel Hfuel)
    as (b & st & ust & Hrun & Hurl).
  split_and!; [eauto | eauto | | | |].
  - intros depth nodeId st1 b1 st1'. apply traceBackwards_marks.
  - intros depth nodeId st1 Hin. cbn [traceBackwards]. by rewrite decide_True.
  - unfold computeActivePathNodes. destruct (truthy (activePathId s)) as [t|]; [| done].
    destruct (walks_return (nodes s) (edges s) (variables s) t (walkFuel (edges s))
                (candidateIds_size _ _)) as (b' & st' & _ & -> & _). done.
  - unfold getComputedUrl. destruct (truthy (activePathId s)) as [t|]; [| done].
    destruct (findNode (nodes s) t); [| done].
    destruct (walks_return (nodes s) (edges s) (variables s) t (walkFuel (edges s))
                (candidateIds_size _ _)) as (b' & st' & ust' & _ & ->).
    by destruct (negb b' || _).
Qed.

(** C5. When no [BaseUrl] node can be reached backwards from the active
    target (which covers an id that is not among the nodes and a cycle
    without a [BaseUrl] ancestor), [computeActivePathNodes] returns the empty
    list and [getComputedUrl] returns [null]; both do return. *)
Theorem unresolvable_path_is_empty (s : CanvasState) :
  (∀ target, activePathId s = Some target →
     ¬ reachesBase (nodes s) (edges s) target) →
  computeActivePathNodes (activePathId s) (nodes s) (edges s) = Some []
  ∧ getComputedUrl s = Some None.
Proof.
  intros Hno. unfold computeActivePathNodes, getComputedUrl.
  destruct (truthy (activePathId s)) as [t|] eqn:Ht; [| done].
  apply truthy_Some in Ht as [Ht _]. specialize (Hno t Ht).
  destruct (walks_return (nodes s) (edges s) (variables s) t (walkFuel (edges s))
              (candidateIds_size _ _)) as (b & st & ust & Hrun & Hurl).
  rewrite Hrun, Hurl.
  pose proof (traceBackwards_sound _ _ _ _ _ _ _ Hrun) as Hsound.
  destruct b; [done |]. cbn in Hsound. rewrite Hsound. cbn.
  by destruct (findNode (nodes s) t).
Qed.

(** * The regular-expression replacements *)

Section ReplaceAll.
Variable matchAt : string → option (string * string).
Hypothesis matchAt_consuming : consuming matchAt.

(** Any number of steps from [String.length s] on gives the same result. *)
Lemma replaceAll_fuel : ∀ fuel1 fuel2 s,
  String.length s ≤ fuel1 → String.length s ≤ fuel2 →
  replaceAll fuel1 matchAt s = replaceAll fuel2 matchAt s.
Proof.
  assert (matchAt EmptyString = None) as Hempty.
  { destruct (matchAt EmptyString) as [[r rest]|] eqn:Hm; [| done].
    apply matchAt_consuming in Hm. cbn in Hm. lia. }
  induction fuel1 as [|fuel1 IH]; intros fuel2 s H1 H2.
  - destruct s; [| cbn in H1; lia].
    destruct fuel2; cbn; [done |]. by rewrite Hempty.
  - destruct fuel2 as [|fuel2].
    + destruct s; [| cbn in H2; lia]. cbn. by rewrite Hempty.
    + cbn. destruct (matchAt s) as [[r rest]|] eqn:Hm.
      * apply matchAt_consuming in Hm. f_equal. apply IH; lia.
      * destruct s as [|c s]; [done |]. cbn in H1, H2. f_equal. apply IH; lia.
Qed.

(** One step of the scan, without the step counter. *)
Lemma replaceAll_step c s :
  replaceAll (String.length (String c s)) matchAt (String c s) =
  match matchAt (String c s) with
  | Some (r, rest) => r +:+ replaceAll (String.length rest) matchAt rest
  | None => String c (replaceAll (String.length s) matchAt s)
  end.
Proof.
  cbn [String.length replaceAll].
  destruct (matchAt (String c s)) as [[r rest]|] eqn:Hm; [| done].
  apply matchAt_consuming in Hm. cbn in Hm. f_equal. apply replaceAll_fuel; lia.
Qed.
End ReplaceAll.

Lemma replaceAll_ext m1 m2 fuel s :
  (∀ s', m1 s' = m2 s') → replaceAll fuel m1 s = replaceAll fuel m2 s.
Proof.
  intros Hext. revert s. induction fuel as [|fuel IH]; intros s; cbn; [done |].
  rewrite <- Hext. destruct (m1 s) as [[r rest]|]; [by rewrite IH |].
  destruct s; [done |]. by rewrite IH.
Qed.

(** ** Slash collapse *)

Lemma skipSlashes_length s : String.length (skipSlashes s) ≤ String.length s.
Proof.
  induction s as [|c s IH]; cbn; [done |].
  destruct (decide (c = "/"%char)); cbn; lia.
Qed.

Lemma matchSlashes_consuming : consuming matchSlashes.
Proof.
  intros s r rest Hm. unfold matchSlashes in Hm.
  destruct s as [|c [|c1 [|c2 s]]]; try done.
  repeat case_decide; simplify_eq.
  pose proof (skipSlashes_length s). cbn. lia.
Qed.

Lemma collapseSlashes_step c s :
  collapseSlashes (String c s) =
  match matchSlashes (String c s) with
  | Some (r, rest) => r +:+ collapseSlashes rest
  | None => String c (collapseSlashes s)
  end.
Proof. apply (replaceAll_step _ matchSlashes_consuming). Qed.

(** Once a run may keep no more slashes, the rest of the run goes. *)
Lemma collapseRuns_0_skip s : collapseRuns 0 s = collapseRuns 0 (skipSlashes s).
Proof.
  induction s as [|c s IH]; cbn; [done |].
  destruct (decide (c = "/"%char)) as [->|Hc]; [exact IH |].
  cbn. by rewrite (decide_False (P := c = "/"%char)).
Qed.

(** The allowance only matters in front of a slash. *)
Lemma collapseRuns_not_slash n m s :
  (∀ s', s ≠ String "/" s') → collapseRuns n s = collapseRuns m s.
Proof.
  destruct s as [|c s]; intros Hs; cbn; [done |].
  destruct (decide (c = "/"%char)) as [->|]; [by destruct (Hs s) | done].
Qed.

Lemma skipSlashes_not_slash s s' : skipSlashes s ≠ String "/" s'.
Proof.
  induction s as [|c s IH]; cbn; [done |].
  destruct (decide (c = "/"%char)); [done | congruence].
Qed.

(** Case analysis on the character tests left in the goal. *)
Ltac char_cases :=
  cbn [collapseRuns String.append];
  repeat (case_decide; simplify_eq; cbn [collapseRuns]); try done.

Lemma collapseSlashes_runs_aux n : ∀ s,
  String.length s ≤ n → collapseSlashes s = collapseRuns 2 s.
Proof.
  induction n as [|n IH]; intros s Hlen.
  { destruct s; [done | cbn in Hlen; lia]. }
  destruct s as [|c s]; [done |].
  rewrite collapseSlashes_step. cbn in Hlen.
  unfold matchSlashes.
  destruct s as [|c1 [|c2 s]].
  - cbn. by repeat case_decide.
  - rewrite IH by (cbn in *; lia). char_cases.
  - destruct (decide (c = ":"%char)) as [->|Hcolon].
    { rewrite IH by (cbn in *; lia). char_cases. }
    destruct (decide (c1 = "/"%char)) as [->|Hc1].
    + destruct (decide (c2 = "/"%char)) as [->|Hc2].
      * (* a match: [c], one slash, and the rest of the run dropped *)
        pose proof (skipSlashes_length s).
        rewrite IH by (cbn in *; lia).
        rewrite (collapseRuns_not_slash 2 0) by apply skipSlashes_not_slash.
        rewrite <- collapseRuns_0_skip. char_cases.
      * rewrite IH by (cbn in *; lia). char_cases.
    + rewrite IH by (cbn in *; lia). char_cases.
Qed.

(** ** Parameter substitution *)

Arguments isWordChar : simpl never.
Arguments isLineTerminator : simpl never.

Lemma append_nil_l s : "" +:+ s = s.
Proof. reflexivity. Qed.

Lemma append_cons c s t : String c s +:+ t = String c (s +:+ t).
Proof. reflexivity. Qed.

(** Push appends inwards, up to the first string that is not a literal. *)
Ltac norm_app := rewrite ?append_cons, ?append_nil_l.

Lemma spanWord_spec s w r :
  spanWord s = (w, r) → s = w +:+ r ∧ allWordChars w = true.
Proof.
  revert w r. induction s as [|c s IH]; intros w r Hs; cbn in Hs.
  - by simplify_eq.
  - destruct (isWordChar c) eqn:Hc; [| by simplify_eq].
    destruct (spanWord s) as [w' r']. simplify_eq.
    destruct (IH w' r eq_refl) as [-> Hw]. norm_app. cbn. by rewrite Hc.
Qed.

(** Appending text that starts with a character outside [\w] leaves the run
    of word characters at the head as it was. *)
Lemma spanWord_app s c x :
  isWordChar c = false →
  spanWord (s +:+ String c x) = ((spanWord s).1, (spanWord s).2 +:+ String c x).
Proof.
  intros Hc. induction s as [|d s IH]; norm_app; cbn.
  - by rewrite Hc.
  - destruct (isWordChar d); [| done].
    rewrite IH. by destruct (spanWord s).
Qed.

Lemma spanWord_all_word w : allWordChars w = true → spanWord w = (w, EmptyString).
Proof.
  induction w as [|c w IH]; cbn; [done |].
  intros [-> Hw]%andb_true_iff. by rewrite (IH Hw).
Qed.

Lemma string_app_length s t : String.length (s +:+ t) = String.length s + String.length t.
Proof. induction s as [|c s IH]; norm_app; cbn; [done | by rewrite IH]. Qed.

Lemma string_app_assoc s t u : (s +:+ t) +:+ u = s +:+ (t +:+ u).
Proof. induction s as [|c s IH]; norm_app; [done | by rewrite IH]. Qed.

Lemma matchParam_length s key rest :
  matchParam s = Some (key, rest) → String.length rest < String.length s.
Proof.
  unfold matchParam. destruct s as [|c s]; [done |].
  case_decide; [| done].
  destruct (spanWord s) as [[|k w] [|c' r]] eqn:Hs; try done.
  case_decide; [| done]. intros ?; simplify_eq.
  apply spanWord_spec in Hs as [-> _]. cbn [String.length].
  rewrite string_app_length. cbn [String.length]. lia.
Qed.

Lemma matchParamWith_consuming vars : consuming (matchParamWith vars).
Proof.
  intros s r rest. unfold matchParamWith.
  destruct (matchParam s) as [[key rest']|] eqn:Hm; [| done].
  intros ?; simplify_eq. by eapply matchParam_length.
Qed.

Lemma replaceParams_step vars c s :
  replaceParams vars (String c s) =
  match matchParam (String c s) with
  | Some (key, rest) => paramReplacer vars key +:+ replaceParams vars rest
  | None => String c (replaceParams vars s)
  end.
Proof.
  unfold replaceParams.
  rewrite (replaceAll_step _ (matchParamWith_consuming vars)).
  unfold matchParamWith. by destruct (matchParam (String c s)) as [[key rest]|].
Qed.

(** The placeholder [{w}] for a parameter name [w] is matched whole. *)
Lemma matchParam_placeholder w post :
  isParamName w = true →
  matchParam ("{" +:+ w +:+ "}" +:+ post) = Some (w, post).
Proof.
  intros [Hne%bool_decide_eq_true Hw]%andb_true_iff.
  norm_app. unfold matchParam. rewrite decide_True by done.
  rewrite spanWord_app by done. rewrite (spanWord_all_word w Hw). cbn.
  norm_app. destruct w; [done |]. by rewrite decide_True.
Qed.

(** An opening brace later in the text does not change what is matched at
    the head. *)
Lemma matchParam_app c s x :
  matchParam (String c s +:+ String "{" x) =
  match matchParam (String c s) with
  | Some (key, rest) => Some (key, rest +:+ String "{" x)
  | None => None
  end.
Proof.
  norm_app. unfold matchParam.
  case_decide; [| done].
  rewrite spanWord_app by done.
  destruct (spanWord s) as [[|k w] [|c' r]]; cbn; norm_app; try done.
  by case_decide.
Qed.

Lemma replaceParams_app_aux vars w post n : ∀ pre,
  String.length pre ≤ n → isParamName w = true →
  replaceParams vars (pre +:+ "{" +:+ w +:+ "}" +:+ post) =
  replaceParams vars pre +:+ paramReplacer vars w +:+ replaceParams vars post.
Proof.
  induction n as [|n IH]; intros pre Hlen Hw.
  - destruct pre; [| cbn in Hlen; lia].
    pose proof (matchParam_placeholder w post Hw) as Hm.
    revert Hm. norm_app. intros Hm.
    by rewrite replaceParams_step, Hm.
  - destruct pre as [|c pre]; [apply (IH ""); [cbn; lia | done] |].
    pose proof (matchParam_app c pre (w +:+ "}" +:+ post)) as Happ.
    revert Happ. norm_app. intros Happ.
    rewrite (replaceParams_step vars c pre), replaceParams_step, Happ.
    destruct (matchParam (String c pre)) as [[key rest]|] eqn:Hm.
    + apply matchParam_length in Hm. cbn in Hm, Hlen.
      rewrite string_app_assoc. f_equal.
      specialize (IH rest). revert IH. norm_app. intros IH.
      apply IH; [lia | done].
    + norm_app. f_equal.
      specialize (IH pre). revert IH. norm_app. intros IH.
      apply IH; [cbn in Hlen; lia | done].
Qed.

(** A match of [/\{(\w+)\}/] is also a match of [/\{(.+)\}/]. *)
Lemma dotPlusClose_word w rest :
  allWordChars w = true →
  dotPlusClose true (w +:+ String "}" rest) = true.
Proof.
  induction w as [|c w IH]; norm_app; cbn; [done |].
  intros [Hc Hw]%andb_true_iff.
  destruct (bool_decide (c = "}"%char)) eqn:Hb; [done |]. cbn.
  assert (isLineTerminator c = false) as ->; [| by apply IH].
  revert Hc. unfold isWordChar, isLineTerminator.
  destruct (nat_of_ascii c =? 10) eqn:H10; [apply Nat.eqb_eq in H10 as ->; done |].
  destruct (nat_of_ascii c =? 13) eqn:H13; [apply Nat.eqb_eq in H13 as ->; done |].
  done.
Qed.

Lemma matchParam_isParam s key rest :
  matchParam s = Some (key, rest) → isParam s = true.
Proof.
  unfold matchParam. destruct s as [|c s]; [done |].
  case_decide as Hc; [| done]. subst c.
  destruct (spanWord s) as [[|k w] [|c' r]] eqn:Hs; try done.
  case_decide; [| done]. intros ?; simplify_eq.
  apply spanWord_spec in Hs as [-> Hw]. cbn [isParam].
  apply orb_true_iff. left. norm_app. cbn in Hw |- *.
  apply andb_true_iff in Hw as [Hk Hw].
  assert (bool_decide (k = "}"%char) && false = false) as -> by apply andb_false_r.
  assert (isLineTerminator k = false) as ->; [| by apply dotPlusClose_word].
  revert Hk. unfold isWordChar, isLineTerminator.
  destruct (nat_of_ascii k =? 10) eqn:H10; [apply Nat.eqb_eq in H10 as ->; done |].
  destruct (nat_of_ascii k =? 13) eqn:H13; [apply Nat.eqb_eq in H13 as ->; done |].
  done.
Qed.

(** Where [isParam] is false there is nothing to replace: the test in front
    of the replacement does not change the result. *)
Lemma replaceParams_not_isParam vars s : isParam s = false → replaceParams vars s = s.
Proof.
  induction s as [|c s IH]; intros Hs; [done |].
  rewrite replaceParams_step.
  destruct (matchParam (String c s)) as [[key rest]|] eqn:Hm.
  - apply matchParam_isParam in Hm. congruence.
  - cbn [isParam] in Hs. apply orb_false_iff in Hs as [_ Hs]. by rewrite IH.
Qed.

Lemma substituteParams_replaceParams vars s :
  substituteParams vars s = replaceParams vars s.
Proof.
  unfold substituteParams. destruct (isParam s) eqn:Hs; [done |].
  by rewrite replaceParams_not_isParam.
Qed.

Lemma substituteParams_app vars pre w post :
  isParamName w = true →
  substituteParams vars (pre +:+ "{" +:+ w +:+ "}" +:+ post) =
  substituteParams vars pre +:+ paramReplacer vars w +:+ substituteParams vars post.
Proof.
  intros Hw. rewrite !substituteParams_replaceParams.
  by apply (replaceParams_app_aux vars w post (String.length pre)).
Qed.

(** * Claims about the computed URL *)


Lemma paramReplacer_cases vars w :
  paramReplacer vars w
  = match vars !! w with
    | Some v => if decide (v = "") then "{" +:+ w +:+ "}" else v
    | None => default ("{" +:+ w +:+ "}") (inheritedMember w)
    end.
Proof.
  unfold paramReplacer, getProperty. destruct (vars !! w) as [v|].
  - cbn [jsTruthy]. by destruct (decide (v = "")).
  - by destruct (inheritedMember w).
Qed.



(** C7, as stated, fails: the URL composed from the base [/] and the
    resource [users] keeps two slashes that follow no colon. *)
Lemma leading_slashes_not_collapsed :
  ¬ doubleSlashOnlyAfterColon (joinPath ["/"; "users"]).
Proof.
  intros Hclaim. destruct (Hclaim "" "users") as [pre' Hpre]; [by vm_compute |].
  by destruct pre'.
Qed.

(** C7 (amended). The URL composer cuts every run of consecutive slashes
    down to one slash, except a run at the very beginning of the joined
    string or right after a colon, which is cut down to two: the two slashes
    of [://] are kept.  In particular the base [https://api.github.com] with
    the resources [/users/] and [octocat] gives
    [https://api.github.com/users/octocat]. *)
Theorem slash_runs_collapsed (segments : list string) :
  joinPath segments = collapseRuns 2 (String.concat "/" segments)
  ∧ joinPath ["https://api.github.com"; "/users/"; "octocat"]
    = "https://api.github.com/users/octocat"
  ∧ getComputedUrl scenarioD = Some (Some "https://api.github.com/users/octocat")
  ∧ joinPath ["//cdn.example.com"; "//v1///"; "x"] = "//cdn.example.com/v1/x"
  ∧ joinPath ["file:///tmp"; "x"] = "file://tmp/x".
Proof.
  split_and!; [| by vm_compute..].
  unfold joinPath. by eapply collapseSlashes_runs_aux.
Qed.

(** ** A binding to the empty string *)

Lemma forEachEdge_ext {S : Type} (call1 call2 : string → S → option (bool * S)) incoming :
  (∀ x st, call1 x st = call2 x st) →
  ∀ st, forEachEdge call1 incoming st = forEachEdge call2 incoming st.
Proof.
  intros Hext. induction incoming as [|e incoming IH]; intros st; cbn; [done |].
  rewrite Hext. destruct (call2 (source e) st) as [[[] st']|]; auto.
Qed.

Lemma paramReplacer_empty_binding vars name key :
  inheritedMember name = None →
  paramReplacer (<[name := ""]> vars) key = paramReplacer (delete name vars) key.
Proof.
  intros Hname. rewrite !paramReplacer_cases. destruct (decide (name = key)) as [<-|Hne].
  - by rewrite lookup_insert_eq, lookup_delete_eq, Hname.
  - by rewrite lookup_insert_ne, lookup_delete_ne.
Qed.

Lemma substituteParams_ext vars1 vars2 value :
  (∀ key, paramReplacer vars1 key = paramReplacer vars2 key) →
  substituteParams vars1 value = substituteParams vars2 value.
Proof.
  intros Hext. unfold substituteParams. destruct (isParam value); [| done].
  apply replaceAll_ext. intros s. unfold matchParamWith.
  destruct (matchParam s) as [[key rest]|]; [by rewrite Hext | done].
Qed.

Lemma traceBackwardsUrl_ext ns es vars1 vars2 :
  (∀ value, substituteParams vars1 value = substituteParams vars2 value) →
  ∀ fuel nodeId st,
    traceBackwardsUrl fuel ns es vars1 nodeId st = traceBackwardsUrl fuel ns es vars2 nodeId st.
Proof.
  intros Hext. induction fuel as [|fuel IH]; intros nodeId st; [done |].
  cbn [traceBackwardsUrl].
  destruct (decide (nodeId ∈ urlVisited st)); [done |].
  destruct (findNode ns nodeId) as [node|]; [| done].
  destruct (decide (type (data node) = BaseUrl)); [done |].
  rewrite Hext. by apply forEachEdge_ext.
Qed.

Lemma getComputedUrl_ext s1 s2 :
  nodes s1 = nodes s2 → edges s1 = edges s2 → activePathId s1 = activePathId s2 →
  (∀ value, substituteParams (variables s1) value = substituteParams (variables s2) value) →
  getComputedUrl s1 = getComputedUrl s2.
Proof.
  intros Hn He Ha Hext. unfold getComputedUrl. rewrite Hn, He, Ha.
  destruct (truthy (activePathId s2)) as [t|]; [| done].
  destruct (findNode (nodes s2) t); [| done].
  by rewrite (traceBackwardsUrl_ext _ _ _ _ Hext).
Qed.

Lemma string_app_nil_r s : s +:+ "" = s.
Proof. induction s as [|c s IH]; norm_app; [done | by rewrite IH]. Qed.




(** * Request assembly *)

Lemma setProperty_lookup key value object k :
  object !! "__proto__" = None →
  setProperty key value object !! k
  = if decide (key = k ∧ key ≠ "__proto__") then Some value else object !! k.
Proof.
  intros Hproto. unfold setProperty.
  destruct (decide (key = "__proto__" ∧ object !! "__proto__" = None)) as [[-> _]|Hno].
  - rewrite decide_False; [done | by intros [_ ?]].
  - assert (key ≠ "__proto__") as Hkey by (intros ->; by apply Hno).
    destruct (decide (key = k)) as [<-|Hne].
    + rewrite lookup_insert_eq. by rewrite decide_True.
    + rewrite lookup_insert_ne by done. rewrite decide_False; [done | by intros [? _]].
Qed.

Lemma bodyObj_snoc fields f :
  bodyObj (fields ++ [f]) =
  if decide (bf_key f = "") then bodyObj fields
  else setProperty (bf_key f) (bf_value f) (bodyObj fields).
Proof. unfold bodyObj. by rewrite foldl_app. Qed.

Lemma lastValue_snoc k fields f :
  lastValue k (fields ++ [f]) =
  if decide (bf_key f = k) then Some (bf_value f) else lastValue k fields.
Proof.
  unfold lastValue. rewrite filter_app.
  destruct (decide (bf_key f = k)) as [Hk|Hk].
  - rewrite filter_cons_True, filter_nil by done. by rewrite last_snoc.
  - rewrite filter_cons_False, filter_nil by done. by rewrite app_nil_r.
Qed.

(** The body object maps every key other than the empty one and
    [__proto__] to the value of the last field that carries it, and has no
    entry for these two. *)
Lemma bodyObj_lookup fields : ∀ k,
  bodyObj fields !! k
  = if decide (k = "" ∨ k = "__proto__") then None else lastValue k fields.
Proof.
  induction fields as [|f fields IH] using rev_ind; intros k.
  - cbn. rewrite lookup_empty. by case_decide.
  - rewrite bodyObj_snoc, lastValue_snoc.
    destruct (decide (bf_key f = "")) as [Hf|Hf].
    + rewrite IH. repeat case_decide; naive_solver.
    + rewrite setProperty_lookup by (by rewrite IH, decide_True; [| right]).
      rewrite IH. repeat case_decide; naive_solver.
Qed.




(** * The store *)

(** ** Results of the walk do not depend on spare fuel *)

Lemma forEachEdge_mono {S : Type} (call1 call2 : string → S → option (bool * S)) incoming :
  (∀ x st r, call1 x st = Some r → call2 x st = Some r) →
  ∀ st r, forEachEdge call1 incoming st = Some r → forEachEdge call2 incoming st = Some r.
Proof.
  intros Hmono. induction incoming as [|e incoming IH]; intros st r; cbn; [done |].
  destruct (call1 (source e) st) as [[b st1]|] eqn:Hc; [| done].
  rewrite (Hmono _ _ _ Hc). destruct b; [done | apply IH].
Qed.

Lemma traceBackwards_mono ns es fuel : ∀ fuel' nodeId st r,
  fuel ≤ fuel' →
  traceBackwards fuel ns es nodeId st = Some r →
  traceBackwards fuel' ns es nodeId st = Some r.
Proof.
  induction fuel as [|fuel IH]; intros fuel' nodeId st r Hle Hrun; [done |].
  destruct fuel' as [|fuel']; [lia |].
  cbn [traceBackwards] in Hrun |- *.
  destruct (decide (nodeId ∈ visitedNodes st)); [done |].
  destruct (findNode ns nodeId) as [node|]; [| done].
  destruct (decide (type (data node) = BaseUrl)); [done |].
  destruct (forEachEdge (traceBackwards fuel ns es) _ _) as [r1|] eqn:Hloop; [| done].
  erewrite (forEachEdge_mono (traceBackwards fuel ns es) (traceBackwards fuel' ns es));
    [exact Hrun | | exact Hloop].
  intros x st1 r2. apply IH. lia.
Qed.

(** ** Graphs the walk cannot tell apart *)

Lemma forEachEdge_agree {S : Type} (call1 call2 : string → S → option (bool * S)) :
  ∀ incoming1 incoming2,
    source <$> incoming1 = source <$> incoming2 →
    (∀ e st, e ∈ incoming1 → call1 (source e) st = call2 (source e) st) →
    ∀ st, forEachEdge call1 incoming1 st = forEachEdge call2 incoming2 st.
Proof.
  induction incoming1 as [|e1 incoming1 IH]; intros [|e2 incoming2] Hsrc Hcall st;
    try done.
  cbn in Hsrc |- *. simplify_eq. rewrite (Hcall e1 st) by left.
  replace (source e2) with (source e1) by congruence.
  destruct (call2 (source e1) st) as [[[] st1]|]; try done.
  apply IH; [congruence |]. intros e' st' He'. apply Hcall. by right.
Qed.

Lemma traceBackwards_agree ns ns' es es' (U : gset string) :
  (∀ x, x ∈ U → kindOf ns x = kindOf ns' x) →
  (∀ x, x ∈ U → source <$> incomingEdges es x = source <$> incomingEdges es' x) →
  (∀ e, e ∈ es → source e ∈ U) →
  ∀ fuel nodeId st, nodeId ∈ U →
    traceBackwards fuel ns es nodeId st = traceBackwards fuel ns' es' nodeId st.
Proof.
  intros Hkind Hin Hclosed. induction fuel as [|fuel IH]; intros nodeId st HU; [done |].
  cbn [traceBackwards].
  destruct (decide (nodeId ∈ visitedNodes st)); [done |].
  specialize (Hkind nodeId HU). unfold kindOf in Hkind.
  destruct (findNode ns nodeId) as [node|], (findNode ns' nodeId) as [node'|]; try done.
  cbn in Hkind. simplify_eq. rewrite Hkind.
  destruct (decide (type (data node') = BaseUrl)); [done |].
  rewrite (forEachEdge_agree (traceBackwards fuel ns es) (traceBackwards fuel ns' es')
             (incomingEdges es nodeId) (incomingEdges es' nodeId)); [done | by apply Hin |].
  intros e st1 He. apply IH, Hclosed. by apply incomingEdges_elem in He as [? _].
Qed.

Lemma computeActivePathNodes_agree a ns ns' es es' :
  length es ≤ length es' →
  (∀ t x, a = Some t → x ∈ candidateIds es t → kindOf ns x = kindOf ns' x) →
  (∀ t x, a = Some t → x ∈ candidateIds es t →
     source <$> incomingEdges es x = source <$> incomingEdges es' x) →
  computeActivePathNodes a ns' es' = computeActivePathNodes a ns es.
Proof.
  intros Hlen Hkind Hin. unfold computeActivePathNodes.
  destruct (truthy a) as [t|] eqn:Ht; [| done].
  apply truthy_Some in Ht as [-> _].
  destruct (traceBackwards_returns ns es t (walkFuel es) t emptyTrace) as (b & st & Hrun & _).
  { unfold candidateIds. set_solver. }
  { pose proof (candidateIds_size es t).
    pose proof (size_difference_le (candidateIds es t) (visitedNodes emptyTrace)). lia. }
  rewrite Hrun.
  apply (traceBackwards_mono _ _ _ (walkFuel es')) in Hrun; [| unfold walkFuel; lia].
  rewrite <- (traceBackwards_agree ns ns' es es' (candidateIds es t)), Hrun; try done.
  - intros x Hx. by apply (Hkind t).
  - intros x Hx. by apply (Hin t).
  - intros e He. by apply source_candidate.
  - unfold candidateIds. set_solver.
Qed.

(** ** Updates of the graph that path resolution does not see *)

Lemma findNode_fmap (f : ApiBlock → ApiBlock) ns x :
  (∀ n, id (f n) = id n) → findNode (f <$> ns) x = f <$> findNode ns x.
Proof.
  intros Hid. unfold findNode. induction ns as [|n ns IH]; cbn; [done |].
  rewrite Hid. by destruct (bool_decide (id n = x)).
Qed.

Lemma kindOf_mapNode nodeId (f : ApiBlock → ApiBlock) ns x :
  (∀ n, id (f n) = id n) → (∀ n, type (data (f n)) = type (data n)) →
  kindOf (mapNode nodeId f ns) x = kindOf ns x.
Proof.
  intros Hid Htype. unfold kindOf, mapNode.
  rewrite findNode_fmap by (intros n; by case_decide).
  destruct (findNode ns x) as [n|]; cbn; [| done].
  case_decide; [by rewrite Htype | done].
Qed.

Lemma findNode_snoc ns n x : id n ≠ x → findNode (ns ++ [n]) x = findNode ns x.
Proof.
  intros Hne. unfold findNode. induction ns as [|n' ns IH]; cbn.
  - by rewrite bool_decide_eq_false_2.
  - by destruct (bool_decide (id n' = x)).
Qed.

Lemma incomingEdges_snoc es e x :
  target e ≠ x → incomingEdges (es ++ [e]) x = incomingEdges es x.
Proof.
  intros Hne. unfold incomingEdges.
  rewrite filter_app, filter_cons_False, filter_nil by done. apply app_nil_r.
Qed.

Lemma freshId_not_candidate newId s t :
  freshId newId s → activePathId s = Some t → newId ∉ candidateIds (edges s) t.
Proof.
  intros (_ & Hactive & Hedges) Ht. unfold candidateIds.
  rewrite not_elem_of_union, not_elem_of_singleton, elem_of_list_to_set. split.
  - congruence.
  - intros (e & -> & He)%list_elem_of_fmap. by destruct (Hedges e He).
Qed.

(** Appending a node with a fresh id, and an edge into it, changes nothing
    for the walk from the active id. *)
Lemma computeActivePathNodes_fresh_node s n es' :
  freshId (id n) s →
  (es' = edges s ∨ ∃ e, es' = edges s ++ [e] ∧ target e = id n) →
  computeActivePathNodes (activePathId s) (nodes s ++ [n]) es'
  = computeActivePathNodes (activePathId s) (nodes s) (edges s).
Proof.
  intros Hfresh Hes. apply computeActivePathNodes_agree.
  - destruct Hes as [-> | (e & -> & _)]; [done |]. rewrite length_app. lia.
  - intros t x Ht Hx. unfold kindOf. rewrite findNode_snoc; [done |].
    intros <-. by eapply freshId_not_candidate.
  - intros t x Ht Hx. destruct Hes as [-> | (e & -> & He)]; [done |].
    rewrite incomingEdges_snoc; [done |].
    rewrite He. intros <-. by eapply freshId_not_candidate.
Qed.

Section StoreProofs.
Context {NodeChange EdgeChange Connection : Type}.
Variable applyNodeChanges : list NodeChange → list ApiBlock → list ApiBlock.
Variable applyEdgeChanges : list EdgeChange → list Edge → list Edge.
Variable addEdge : Connection → string → list Edge → list Edge.

Lemma computeActivePathNodes_is_Some a ns es : is_Some (computeActivePathNodes a ns es).
Proof.
  unfold computeActivePathNodes. destruct (truthy a) as [t|]; [| done].
  destruct (walks_return ns es ∅ t (walkFuel es) (candidateIds_size _ _))
    as (b & st & _ & -> & _). done.
Qed.

(** Every operation returns. *)
Lemma step_is_Some op s : is_Some (step applyNodeChanges applyEdgeChanges addEdge op s).
Proof.
  destruct op; cbn; try done;
    unfold onNodesChange, onEdgesChange, onConnect, setActivePath;
    match goal with
    | |- context [computeActivePathNodes ?a ?ns ?es] =>
      destruct (computeActivePathNodes_is_Some a ns es) as [p ->]
    end; done.
Qed.

(** An operation that recomputes the projection stores what it computed. *)
Ltac recomputed H :=
  match type of H with
  | context [computeActivePathNodes ?a ?ns ?es] =>
    destruct (computeActivePathNodes a ns es) eqn:?
  end; simplify_eq/=; done.

(** Every operation keeps the stored projection equal to the recomputed
    path. *)
Lemma step_preserves_projection op s s' :
  projectionCurrent s → opFresh op s →
  step applyNodeChanges applyEdgeChanges addEdge op s = Some s' →
  projectionCurrent s'.
Proof.
  unfold projectionCurrent. intros Hcur Hfresh Hstep.
  destruct op; cbn in Hstep, Hfresh; simplify_eq; cbn; try done.
  - (* addNode *)
    rewrite <- Hcur.
    apply (computeActivePathNodes_fresh_node s {| id := newId; data := blockData t v m |});
      [done | by left].
  - (* onNodesChange *)
    unfold onNodesChange in Hstep.
    recomputed Hstep.
  - (* onEdgesChange *)
    unfold onEdgesChange in Hstep.
    recomputed Hstep.
  - (* onConnect *)
    unfold onConnect in Hstep.
    recomputed Hstep.
  - (* updateNodeValue *)
    rewrite <- Hcur. apply computeActivePathNodes_agree; [done | | done].
    intros ? x _ _. symmetry. by apply kindOf_mapNode.
  - (* updateNodeBodyFields *)
    rewrite <- Hcur. apply computeActivePathNodes_agree; [done | | done].
    intros ? x _ _. symmetry. by apply kindOf_mapNode.
  - (* updateNodeHeaders *)
    rewrite <- Hcur. apply computeActivePathNodes_agree; [done | | done].
    intros ? x _ _. symmetry. by apply kindOf_mapNode.
  - (* ensureRequestNode *)
    unfold ensureRequestNode.
    destruct (existingRequestEdge _ _ _); [done |].
    destruct (findNode (nodes s) methodNodeId) as [methodNode|]; [| done].
    case_decide; [| done]. cbn. rewrite <- Hcur.
    apply (computeActivePathNodes_fresh_node s {| id := newNodeId; data := requestBlockData |});
      [done |]. right. by eexists.
  - (* setActivePath *)
    unfold setActivePath in Hstep.
    recomputed Hstep.
  - (* setResponse *)
    unfold setResponse. by repeat case_match.
  - (* addBodyHistory *)
    unfold addBodyHistory. by case_decide.
Qed.

Lemma reachable_projectionCurrent s :
  reachable applyNodeChanges applyEdgeChanges addEdge s → projectionCurrent s.
Proof.
  induction 1 as [|s op s' _ IH Hfresh Hstep]; [by vm_compute |].
  by eapply step_preserves_projection.
Qed.

(** C2. After every store operation that can change the nodes, the edges
    or the active selection, and indeed after every operation, the stored
    [activePathNodes] is the list, hence the set, that
    [computeActivePathNodes] gives on the new state, and it is empty when
    there is no active id.  The states are those the store reaches from
    its default state, the node ids taken from [nanoid()] being fresh. *)
Theorem projection_is_current (s : CanvasState)
    (op : @StoreOp NodeChange EdgeChange Connection) :
  reachable applyNodeChanges applyEdgeChanges addEdge s → opFresh op s →
  ∃ s', step applyNodeChanges applyEdgeChanges addEdge op s = Some s'
        ∧ computeActivePathNodes (activePathId s') (nodes s') (edges s')
          = Some (activePathNodes s')
        ∧ (∀ p, computeActivePathNodes (activePathId s') (nodes s') (edges s') = Some p →
             (list_to_set p : gset string) = list_to_set (activePathNodes s'))
        ∧ (activePathId s' = None → activePathNodes s' = []).
Proof.
  intros Hreach Hfresh. destruct (step_is_Some op s) as [s' Hstep].
  exists s'. split; [done |].
  assert (projectionCurrent s') as Hcur.
  { eapply step_preserves_projection; [by apply reachable_projectionCurrent | done..]. }
  unfold projectionCurrent in Hcur. split_and!; [done | |].
  - intros p Hp. congruence.
  - intros Hnone. rewrite Hnone in Hcur. cbn in Hcur. congruence.
Qed.
End StoreProofs.

(** * A valid branch next to a cyclic one *)

Section Branches.
Variables (ns : list ApiBlock) (es : list Edge).

Lemma traceBackwards_fuel_irrelevant fuel1 fuel2 nodeId st r1 r2 :
  traceBackwards fuel1 ns es nodeId st = Some r1 →
  traceBackwards fuel2 ns es nodeId st = Some r2 → r1 = r2.
Proof.
  intros H1 H2.
  apply (traceBackwards_mono _ _ _ (fuel1 `max` fuel2)) in H1; [| lia].
  apply (traceBackwards_mono _ _ _ (fuel1 `max` fuel2)) in H2; [| lia].
  congruence.
Qed.

(** The loop only reads the sources of the edges. *)
Lemma forEachEdge_by_sources {S : Type} (call : string → S → option (bool * S))
    incoming sources st :
  source <$> incoming = sources →
  forEachEdge call incoming st
  = forEachEdge call ((λ p, {| edge_id := ""; source := p; target := "" |}) <$> sources) st.
Proof.
  intros <-. apply forEachEdge_agree; [| done].
  induction incoming as [|e incoming IH]; cbn; [done | by rewrite <- IH].
Qed.

(** Walking up a branch that ends in a [BaseUrl] node [b] succeeds and puts
    the branch, base first, in front of the path. *)
Lemma traceBackwards_branch b nb : ∀ rs fuel st,
  findNode ns b = Some nb → type (data nb) = BaseUrl →
  parentChain ns es rs b → NoDup (rs ++ [b]) →
  (∀ y, y ∈ rs ++ [b] → y ∉ visitedNodes st) →
  length rs < fuel →
  ∃ st', traceBackwards fuel ns es (hd b rs) st = Some (true, st')
         ∧ pathNodeIds st' = b :: rev rs ++ pathNodeIds st.
Proof.
  intros rs fuel st Hb Hbase. revert fuel st.
  induction rs as [|r rs IH]; intros fuel st Hchain Hnodup Hfresh Hfuel.
  - destruct fuel as [|fuel]; [cbn in Hfuel; lia |]. cbn [hd traceBackwards].
    rewrite decide_False by (apply Hfresh; set_solver).
    rewrite Hb, decide_True by done. by eexists.
  - destruct fuel as [|fuel]; [cbn in Hfuel; lia |]. cbn [hd traceBackwards].
    destruct Hchain as [[(n & Hn & Hkind) Hsrc] Hchain].
    rewrite decide_False by (apply Hfresh; set_solver).
    rewrite Hn, decide_False by done.
    rewrite (forEachEdge_by_sources _ _ _ _ Hsrc). cbn [fmap list_fmap forEachEdge source].
    cbn in Hnodup. apply NoDup_cons in Hnodup as [Hr Hnodup].
    destruct (IH fuel (unshiftId r (markVisited r st))) as (st' & -> & Hpath);
      [done | done | | cbn in Hfuel; lia |].
    + intros y Hy. cbn. specialize (Hfresh y). set_solver.
    + exists st'. split; [done |]. rewrite Hpath. cbn.
      by rewrite <- app_assoc.
Qed.

(** Walking up a branch that leads back to an id already visited fails,
    leaves the path alone and marks the branch visited. *)
Lemma traceBackwards_cycle top : ∀ cs fuel st,
  parentChain ns es cs top → NoDup cs →
  top ∈ visitedNodes st → (∀ y, y ∈ cs → y ∉ visitedNodes st) →
  length cs < fuel →
  ∃ st', traceBackwards fuel ns es (hd top cs) st = Some (false, st')
         ∧ pathNodeIds st' = pathNodeIds st
         ∧ visitedNodes st' = list_to_set cs ∪ visitedNodes st.
Proof.
  induction cs as [|c cs IH]; intros fuel st Hchain Hnodup Htop Hfresh Hfuel.
  - destruct fuel as [|fuel]; [cbn in Hfuel; lia |]. cbn [hd traceBackwards].
    rewrite decide_True by done. exists st. split_and!; [done | done |].
    rewrite list_to_set_nil. set_solver.
  - destruct fuel as [|fuel]; [cbn in Hfuel; lia |]. cbn [hd traceBackwards].
    destruct Hchain as [[(n & Hn & Hkind) Hsrc] Hchain].
    rewrite decide_False by (apply Hfresh; set_solver).
    rewrite Hn, decide_False by done.
    rewrite (forEachEdge_by_sources _ _ _ _ Hsrc). cbn [fmap list_fmap forEachEdge source].
    apply NoDup_cons in Hnodup as [Hc Hnodup].
    destruct (IH fuel (unshiftId c (markVisited c st))) as (st' & -> & Hpath & Hvis);
      [done | done | cbn; set_solver | | cbn in Hfuel; lia |].
    + intros y Hy. cbn. specialize (Hfresh y). set_solver.
    + eexists. split; [done |]. cbn. rewrite Hpath, Hvis. cbn. split; [done |].
      rewrite ?list_to_set_cons. set_solver.
Qed.
End Branches.

(** C4. A target with two incoming edges, one from a branch that leads up to
    a [BaseUrl] node [b] and one from a branch that leads back to the target
    itself (the edge may also be a self-loop), in either order:
    [computeActivePathNodes] returns, and returns exactly the valid branch,
    ordered from [b] to the target, with no id of the cyclic branch in it. *)
Theorem valid_branch_beside_cycle (ns : list ApiBlock) (es : list Edge)
    (t b : string) (nt nb : ApiBlock) (rs cs : list string) :
  t ≠ "" →
  findNode ns t = Some nt → type (data nt) ≠ BaseUrl →
  findNode ns b = Some nb → type (data nb) = BaseUrl →
  NoDup (t :: rs ++ [b] ++ cs) →
  parentChain ns es rs b → parentChain ns es cs t →
  (source <$> incomingEdges es t = [hd b rs; hd t cs]
   ∨ source <$> incomingEdges es t = [hd t cs; hd b rs]) →
  computeActivePathNodes (Some t) ns es = Some (b :: rev rs ++ [t])
  ∧ ∀ c, c ∈ cs → c ∉ b :: rev rs ++ [t].
Proof.
  intros Ht Hnt Hkind Hnb Hbase Hnodup Hrs Hcs Hin.
  apply NoDup_cons in Hnodup as [Htfresh Hnodup].
  apply NoDup_app in Hnodup as (Hnd_rs & Hdisj & Hnodup).
  assert (NoDup (rs ++ [b])) as Hnd_rsb.
  { apply NoDup_app. split_and!; [done | | apply NoDup_singleton].
    intros y Hy ->%list_elem_of_singleton. apply (Hdisj b Hy). set_solver. }
  assert (NoDup cs) as Hnd_cs by (by apply NoDup_app in Hnodup as (_ & _ & ?)).
  split.
  - unfold computeActivePathNodes, truthy. rewrite decide_False by done.
    destruct (walks_return ns es ∅ t (walkFuel es) (candidateIds_size _ _))
      as (b0 & st0 & _ & Hrun & _). rewrite Hrun.
    assert (∃ st', traceBackwards (S (S (length rs + length cs))) ns es t emptyTrace
                   = Some (true, st') ∧ pathNodeIds st' = b :: rev rs ++ [t])
      as (st' & Hrun' & Hpath).
    { remember (S (length rs + length cs)) as fuel eqn:Hfuel.
      cbn [traceBackwards]. rewrite decide_False by set_solver.
      rewrite Hnt, decide_False by done.
      set (st1 := unshiftId t (markVisited t emptyTrace)).
      destruct Hin as [Hin | Hin];
        rewrite (forEachEdge_by_sources _ _ _ _ Hin); cbn [fmap list_fmap forEachEdge source].
      - destruct (traceBackwards_branch ns es b nb rs fuel st1)
          as (st' & -> & Hpath); [done | done | done | done | | lia |].
        + intros y Hy. cbn. set_solver.
        + by exists st'.
      - destruct (traceBackwards_cycle ns es t cs fuel st1)
          as (st2 & -> & Hpath2 & Hvis2); [done | done | cbn; set_solver | | lia |].
        + intros y Hy. cbn. set_solver.
        + destruct (traceBackwards_branch ns es b nb rs fuel st2)
            as (st' & -> & Hpath); [done | done | done | done | | lia |].
          * intros y Hy. rewrite Hvis2. cbn.
            rewrite !not_elem_of_union, elem_of_list_to_set. split_and!; [| set_solver..].
            intros Hc. apply elem_of_app in Hy as [Hy | ->%list_elem_of_singleton].
            -- apply (Hdisj y Hy). set_solver.
            -- apply NoDup_app in Hnodup as (_ & Hb & _). apply (Hb b); set_solver.
          * exists st'. split; [done |]. by rewrite Hpath, Hpath2. }
    pose proof (traceBackwards_fuel_irrelevant _ _ _ _ _ _ _ _ Hrun Hrun') as Heq.
    simplify_eq. by rewrite Hpath.
  - intros c Hc. rewrite not_elem_of_cons, not_elem_of_app.
    rewrite (list_elem_of_In (rev rs) c), <- in_rev, <- list_elem_of_In.
    split_and!.
    + intros ->. apply NoDup_app in Hnodup as (_ & Hb & _). apply (Hb b); set_solver.
    + intros Hrsc. apply (Hdisj c Hrsc). set_solver.
    + intros ->%list_elem_of_singleton. set_solver.
Qed.

(** ** The two histories *)

Section Histories.
Context {NodeChange EdgeChange Connection : Type}.
Variable applyNodeChanges : list NodeChange → list ApiBlock → list ApiBlock.
Variable applyEdgeChanges : list EdgeChange → list Edge → list Edge.
Variable addEdge : Connection → string → list Edge → list Edge.

Lemma step_historiesBounded op s s' :
  step applyNodeChanges applyEdgeChanges addEdge op s = Some s' →
  historiesBounded s → historiesBounded s'.
Proof.
  unfold historiesBounded. intros Hstep [Hh Hb].
  destruct op; cbn in Hstep;
    try (unfold onNodesChange, onEdgesChange, onConnect, setActivePath in Hstep;
         match type of Hstep with
         | context [computeActivePathNodes ?a ?ns ?es] =>
           destruct (computeActivePathNodes a ns es) as [p|]
         end);
    simplify_eq/=; try done.
  all: try (unfold ensureRequestNode; repeat case_match; done).
  - unfold setResponse. repeat case_match; cbn; try done.
    split; [| done]. rewrite length_take. lia.
  - split; [lia | done].
  - split; [| done]. pose proof (length_filter (λ item, hi_id item ≠ itemId) (history s)). lia.
  - unfold addBodyHistory. case_decide; cbn; [done |].
    split; [done |]. rewrite length_take. lia.
  - split; [done |].
    pose proof (length_filter (λ item, bh_id item ≠ itemId) (bodyHistory s)). lia.
  - split; lia.
Qed.

Lemma run_historiesBounded ops : ∀ s s',
  run applyNodeChanges applyEdgeChanges addEdge ops s = Some s' →
  historiesBounded s → historiesBounded s'.
Proof.
  induction ops as [|op ops IH]; intros s s' Hrun Hs; cbn in Hrun.
  - by simplify_eq.
  - destruct (step applyNodeChanges applyEdgeChanges addEdge op s) as [s1|] eqn:Hstep;
      [| done]. cbn in Hrun.
    eapply IH; [done |]. by eapply step_historiesBounded.
Qed.

(** C10. The two histories are bounded and newest first.  A [setResponse]
    call with a url and a method puts one item in front of the history and
    keeps the first 10; an [addBodyHistory] call with a non-empty list of
    fields puts one item in front of the body history and keeps the first
    50.  So after any sequence of store operations from the default state
    the history has at most 10 items and the body history at most 50. *)
Theorem histories_bounded (ops : list (@StoreOp NodeChange EdgeChange Connection))
    (s : CanvasState) :
  run applyNodeChanges applyEdgeChanges addEdge ops createDefaultState = Some s →
  (length (history s) ≤ 10 ∧ length (bodyHistory s) ≤ 50)
  ∧ (∀ newId now r url m, url ≠ "" →
       history (setResponse newId now r (Some url) (Some m) s)
       = take 10 ({| hi_response := r; hi_id := newId; hi_url := url; hi_method := m;
                     hi_timestamp := now |} :: history s))
  ∧ (∀ newId now m url fields, fields ≠ [] →
       bodyHistory (addBodyHistory newId now m url fields s)
       = take 50 ({| bh_id := newId; bh_method := m; bh_url := url;
                     bh_bodyFields := fields; bh_timestamp := now |} :: bodyHistory s)).
Proof.
  intros Hrun. split; [| split].
  - apply (run_historiesBounded ops createDefaultState s Hrun).
    split; cbn; lia.
  - intros newId now r url m Hurl. unfold setResponse, truthy.
    by rewrite decide_False.
  - intros newId now m url fields Hfields. unfold addBodyHistory.
    rewrite decide_False; [done |]. by destruct fields.
Qed.
End Histories.

(** * The dead-end branch, and instances of the theorems *)

(** C1 fails on [deadEndScenario]: the resolved path is base, users, get and
    its segments give [http://localhost:3000/users], which is what
    [RequestNode] computes, but [getComputedUrl] returns
    [http://localhost:3000/users/drafts]: the segment pushed while the walk
    tried the dead-end parent [drafts] is never taken back. *)
Theorem dead_branch_segment_in_url :
  computeActivePathNodes (activePathId deadEndScenario) (nodes deadEndScenario)
    (edges deadEndScenario) = Some ["base"; "users"; "get"]
  ∧ segmentsOfPath (nodes deadEndScenario) (variables deadEndScenario)
      ["base"; "users"; "get"] = ["http://localhost:3000"; "users"]
  ∧ requestNodeUrl deadEndScenario = Some (Some "http://localhost:3000/users")
  ∧ getComputedUrl deadEndScenario = Some (Some "http://localhost:3000/users/drafts").
Proof. by vm_compute. Qed.

Lemma reachesBase_needs_base ns es x :
  reachesBase ns es x → ∃ n, n ∈ ns ∧ type (data n) = BaseUrl.
Proof.
  induction 1 as [x n Hfind Hbase | x n e Hfind He Ht Hreach IH]; [| done].
  exists n. split; [| done]. unfold findNode in Hfind.
  apply find_some in Hfind as [Hin _]. by apply list_elem_of_In.
Qed.

Lemma walks_terminate_witness :
  size (candidateIds (edges cycleScenario) "get") < 4
  ∧ is_Some (computeActivePathNodes (activePathId cycleScenario) (nodes cycleScenario)
               (edges cycleScenario))
  ∧ is_Some (getComputedUrl cycleScenario).
Proof.
  assert (size (candidateIds (edges cycleScenario) "get") < 4) as Hsize
    by (vm_compute; lia).
  split; [exact Hsize |].
  exact (proj2 (proj2 (proj2 (proj2 (walks_terminate cycleScenario "get" 4 Hsize))))).
Defined.

Lemma unresolvable_path_is_empty_witness :
  (∀ target, activePathId cycleScenario = Some target →
     ¬ reachesBase (nodes cycleScenario) (edges cycleScenario) target)
  ∧ computeActivePathNodes (activePathId cycleScenario) (nodes cycleScenario)
      (edges cycleScenario) = Some []
  ∧ getComputedUrl cycleScenario = Some None.
Proof.
  assert (∀ target, activePathId cycleScenario = Some target →
            ¬ reachesBase (nodes cycleScenario) (edges cycleScenario) target) as Hno.
  { intros target _ (n & Hn & Hbase)%reachesBase_needs_base.
    assert (Forall (λ n, type (data n) ≠ BaseUrl) (nodes cycleScenario)) as Hall
      by (repeat constructor; done).
    rewrite Forall_forall in Hall. by apply (Hall n). }
  split; [exact Hno |]. exact (unresolvable_path_is_empty cycleScenario Hno).
Defined.

Lemma valid_branch_beside_cycle_witness :
  computeActivePathNodes (Some "get") (nodes scenarioE) (edges scenarioE)
  = Some ["base"; "users"; "get"].
Proof.
  refine (proj1 (valid_branch_beside_cycle (nodes scenarioE) (edges scenarioE)
                   "get" "base" (node "get" Method "")
                   (node "base" BaseUrl "http://localhost:3000")
                   ["users"] ["loop"] _ eq_refl _ eq_refl eq_refl _ _ _ _)).
  - done.
  - done.
  - apply (bool_decide_unpack _). by vm_compute.
  - cbn. split; [| done]. split; [| reflexivity]. eexists. split; [reflexivity | done].
  - cbn. split; [| done]. split; [| reflexivity]. eexists. split; [reflexivity | done].
  - right. reflexivity.
Defined.

Lemma projection_is_current_witness :
  ∃ s', step (NodeChange := unit) (EdgeChange := unit) (Connection := unit)
          (λ _ ns, ns) (λ _ es, es) (λ _ _ es, es)
          (OpAddNode "V1StGXR8_Z5jdHi6B-myT" Resource "users" None) loginSelected = Some s'
        ∧ computeActivePathNodes (activePathId s') (nodes s') (edges s')
          = Some (activePathNodes s')
        ∧ activePathNodes s'
          = ["default-base-url"; "default-auth-resource"; "default-login-resource";
             "default-login-method"].
Proof.
  assert (reachable (NodeChange := unit) (EdgeChange := unit) (Connection := unit)
            (λ _ ns, ns) (λ _ es, es) (λ _ _ es, es) loginSelected) as Hreach.
  { apply (reachable_step _ _ _ createDefaultState
             (OpSetActivePath (Some "default-login-method")));
      [apply reachable_default | exact I | by vm_compute]. }
  assert (freshId "V1StGXR8_Z5jdHi6B-myT" loginSelected) as Hfresh.
  { split_and!; [| done |].
    - apply (bool_decide_unpack _). by vm_compute.
    - intros e He. cbn in He. set_solver. }
  destruct (projection_is_current (λ _ ns, ns) (λ _ es, es) (λ _ _ es, es)
              loginSelected (OpAddNode "V1StGXR8_Z5jdHi6B-myT" Resource "users" None)
              Hreach Hfresh) as (s' & Hstep & Hcur & _).
  exists s'. split; [done |]. split; [done |].
  cbn in Hstep. by simplify_eq.
Defined.

Lemma histories_bounded_witness :
  ∃ s, run (λ _ ns, ns) (λ _ es, es) (λ _ _ es, es) twelveResponses createDefaultState = Some s
       ∧ length (history s) ≤ 10 ∧ length (bodyHistory s) ≤ 50.
Proof.
  eexists. split; [by vm_compute |].
  refine (proj1 (histories_bounded (λ _ ns, ns) (λ _ es, es) (λ _ _ es, es)
                   twelveResponses _ _)).
  by vm_compute.
Defined.

(** * More on path resolution *)

Section Resolution.
Variables (ns : list ApiBlock) (es : list Edge).

Lemma chainTo_last p x : chainTo ns es p x → last p = Some x.
Proof. destruct 1; [done | by rewrite last_snoc]. Qed.

(** A successful walk puts a chain from a [BaseUrl] node to its id in front
    of the path; the chain is made of ids that were not visited before. *)
Lemma traceBackwards_chain fuel : ∀ nodeId st st',
  traceBackwards fuel ns es nodeId st = Some (true, st') →
  ∃ chain, pathNodeIds st' = chain ++ pathNodeIds st
           ∧ chainTo ns es chain nodeId ∧ NoDup chain
           ∧ ∀ y, y ∈ chain → y ∉ visitedNodes st.
Proof.
  induction fuel as [|fuel IH]; intros nodeId st st' Hrun; [done |].
  cbn [traceBackwards] in Hrun.
  destruct (decide (nodeId ∈ visitedNodes st)) as [|Hfresh]; [done |].
  destruct (findNode ns nodeId) as [node|] eqn:Hfind; [| done].
  destruct (decide (type (data node) = BaseUrl)) as [Hbase|Hkind].
  { simplify_eq. exists [nodeId]. split_and!; [done | by eapply chain_base | | ].
    - apply NoDup_singleton.
    - by intros y ->%list_elem_of_singleton. }
  destruct (forEachEdge _ _ _) as [[b1 st1]|] eqn:Hloop; [| done].
  destruct b1; [| done]. simplify_eq.
  apply (forEachEdge_rule _
           (λ s, pathNodeIds s = nodeId :: pathNodeIds st
                 ∧ {[nodeId]} ∪ visitedNodes st ⊆ visitedNodes s)
           (λ src s, ∃ chain, pathNodeIds s = chain ++ nodeId :: pathNodeIds st
                              ∧ chainTo ns es chain src ∧ NoDup chain
                              ∧ ∀ y, y ∈ chain → y ∉ {[nodeId]} ∪ visitedNodes st))
    in Hloop; [| | by cbn].
  - destruct Hloop as (e & [He Htgt]%incomingEdges_elem & chain & Hpath & Hchain & Hnd & Hnew).
    exists (chain ++ [nodeId]). split_and!.
    + by rewrite Hpath, <- app_assoc.
    + by eapply chain_step.
    + apply NoDup_app. split_and!; [done | | apply NoDup_singleton].
      intros y Hy ->%list_elem_of_singleton. specialize (Hnew _ Hy). set_solver.
    + intros y [Hy | ->%list_elem_of_singleton]%elem_of_app; [| done].
      specialize (Hnew _ Hy). set_solver.
  - intros e s1 b2 s2 _ [HP Hsub] Hcall. destruct b2.
    + apply IH in Hcall as (chain & Hpath & Hchain & Hnd & Hnew).
      exists chain. split_and!; [by rewrite Hpath, HP | done | done |].
      intros y Hy. specialize (Hnew _ Hy). set_solver.
    + pose proof (traceBackwards_sound _ _ _ _ _ _ _ Hcall) as Hsame. cbn in Hsame.
      apply traceBackwards_marks in Hcall as [_ Hgrow].
      split; [congruence | set_solver].
Qed.

(** ** Completeness: a failed walk has exhausted what it visited *)

Lemma exhausted_mono V V' y : exhausted ns es V y → V ⊆ V' → exhausted ns es V' y.
Proof.
  unfold exhausted. destruct (findNode ns y); [| done].
  intros [Hkind Hparents] Hsub. split; [done |]. intros e He Ht.
  specialize (Hparents e He Ht). set_solver.
Qed.

(** When the loop falls through, every source has been visited. *)
Lemma forEachEdge_false_visited fuel incoming : ∀ st st',
  forEachEdge (traceBackwards fuel ns es) incoming st = Some (false, st') →
  visitedNodes st ⊆ visitedNodes st'
  ∧ ∀ e, e ∈ incoming → source e ∈ visitedNodes st'.
Proof.
  induction incoming as [|e incoming IH]; intros st st' Hrun; cbn in Hrun.
  - simplify_eq. split; [done |]. by intros e ?%elem_of_nil.
  - destruct (traceBackwards fuel ns es (source e) st) as [[[] st1]|] eqn:Hcall;
      try done.
    apply traceBackwards_marks in Hcall as [Hin Hgrow].
    apply IH in Hrun as [Hgrow' Hsrc]. split; [set_solver |].
    intros e' [-> | He']%elem_of_cons; [set_solver | by apply Hsrc].
Qed.

Lemma forEachEdge_false_exhausts fuel incoming :
  (∀ nodeId st st',
     traceBackwards fuel ns es nodeId st = Some (false, st') →
     ∀ y, y ∈ visitedNodes st' → y ∉ visitedNodes st →
          exhausted ns es (visitedNodes st') y) →
  ∀ st st',
    forEachEdge (traceBackwards fuel ns es) incoming st = Some (false, st') →
    ∀ y, y ∈ visitedNodes st' → y ∉ visitedNodes st →
         exhausted ns es (visitedNodes st') y.
Proof.
  intros Hcall. induction incoming as [|e incoming IH]; intros st st' Hrun y Hy Hnew;
    cbn in Hrun.
  - by simplify_eq.
  - destruct (traceBackwards fuel ns es (source e) st) as [[[] st1]|] eqn:Hc;
      try done.
    pose proof (forEachEdge_false_visited _ _ _ _ Hrun) as [Hgrow _].
    destruct (decide (y ∈ visitedNodes st1)) as [Hy1|Hy1].
    + eapply exhausted_mono; [by eapply Hcall | done].
    + by eapply IH.
Qed.

(** A walk that fails has exhausted every id it visited. *)
Lemma traceBackwards_exhausts fuel : ∀ nodeId st st',
  traceBackwards fuel ns es nodeId st = Some (false, st') →
  ∀ y, y ∈ visitedNodes st' → y ∉ visitedNodes st → exhausted ns es (visitedNodes st') y.
Proof.
  induction fuel as [|fuel IH]; intros nodeId st st' Hrun; [done |].
  cbn [traceBackwards] in Hrun.
  destruct (decide (nodeId ∈ visitedNodes st)) as [|Hfresh]; [by simplify_eq |].
  destruct (findNode ns nodeId) as [node|] eqn:Hfind.
  2: { simplify_eq. intros y Hy Hnew. cbn in Hy.
       assert (y = nodeId) as -> by set_solver. unfold exhausted. by rewrite Hfind. }
  destruct (decide (type (data node) = BaseUrl)) as [|Hkind]; [done |].
  destruct (forEachEdge _ _ _) as [[b1 st1]|] eqn:Hloop; [| done].
  destruct b1; [done |]. simplify_eq. cbn [shiftId visitedNodes].
  pose proof (forEachEdge_false_visited _ _ _ _ Hloop) as [Hgrow Hsrc].
  pose proof (forEachEdge_false_exhausts _ _ IH _ _ Hloop) as Hothers.
  cbn in Hgrow, Hothers.
  intros y Hy Hnew. destruct (decide (y = nodeId)) as [->|Hne].
  - unfold exhausted. rewrite Hfind. split; [done |].
    intros e He Ht. apply Hsrc. unfold incomingEdges. by apply list_elem_of_filter.
  - apply Hothers; [done | set_solver].
Qed.

(** Nothing that can reach a [BaseUrl] node is left among the ids a failed
    walk has visited. *)
Lemma exhausted_unreachable (V : gset string) x :
  (∀ y, y ∈ V → exhausted ns es V y) → reachesBase ns es x → x ∉ V.
Proof.
  intros Hall. induction 1 as [x n Hfind Hbase | x n e Hfind He Ht Hreach IH];
    intros Hx; specialize (Hall x Hx) as Hex; unfold exhausted in Hex;
    rewrite Hfind in Hex; destruct Hex as [Hkind Hparents]; [done |].
  by apply IH, (Hparents e).
Qed.

Lemma traceBackwards_complete fuel nodeId b st' :
  traceBackwards fuel ns es nodeId emptyTrace = Some (b, st') →
  reachesBase ns es nodeId → b = true.
Proof.
  intros Hrun Hreach. destruct b; [done |]. exfalso.
  apply (exhausted_unreachable (visitedNodes st') nodeId); [| done |].
  - intros y Hy. by apply (traceBackwards_exhausts _ _ _ _ Hrun).
  - by apply traceBackwards_marks in Hrun as [? _].
Qed.
End Resolution.

(** ** The resolved path and the two URL computations *)

Lemma traceBackwardsUrl_found ns es vars fuel : ∀ nodeId st st',
  traceBackwardsUrl fuel ns es vars nodeId st = Some (true, st') → path st' ≠ [].
Proof.
  induction fuel as [|fuel IH]; intros nodeId st st' Hrun; [done |].
  cbn [traceBackwardsUrl] in Hrun.
  destruct (decide (nodeId ∈ urlVisited st)); [done |].
  destruct (findNode ns nodeId) as [node|]; [| done].
  destruct (decide (type (data node) = BaseUrl)); [by simplify_eq |].
  apply (forEachEdge_rule _ (λ _, True) (λ _ s, path s ≠ [])) in Hrun; [| | done].
  - by destruct Hrun as (e & _ & Hne).
  - intros e s1 [] s2 _ _ Hcall; [by eapply IH | done].
Qed.

Lemma reachesBase_found ns es x : reachesBase ns es x → is_Some (findNode ns x).
Proof. destruct 1; by eexists. Qed.

(** X1. A non-empty result of [computeActivePathNodes] is a genuine path to
    the active id: it starts at a [BaseUrl] node, every later id is an
    existing node of another type, consecutive ids are joined by an edge, the
    last id is the active id, and no id occurs twice. *)
Theorem resolved_path_is_chain (a : option string) (ns : list ApiBlock)
    (es : list Edge) (p : list string) :
  computeActivePathNodes a ns es = Some p → p ≠ [] →
  ∃ t, a = Some t ∧ t ≠ "" ∧ chainTo ns es p t ∧ last p = Some t ∧ NoDup p.
Proof.
  unfold computeActivePathNodes. intros Hrun Hne.
  destruct (truthy a) as [t|] eqn:Ht; [| by simplify_eq].
  apply truthy_Some in Ht as [-> Ht]. exists t.
  destruct (traceBackwards _ _ _ _ _) as [[b st]|] eqn:Htrace; [| done]. simplify_eq.
  destruct b.
  - apply traceBackwards_chain in Htrace as (chain & Hpath & Hchain & Hnd & _).
    cbn in Hpath. rewrite app_nil_r in Hpath. rewrite Hpath.
    split_and!; [done | done | done | by eapply chainTo_last | done].
  - apply traceBackwards_sound in Htrace. cbn in Htrace. congruence.
Qed.

Lemma resolved_path_is_chain_witness :
  computeActivePathNodes (activePathId healthSelected) (nodes healthSelected)
    (edges healthSelected)
  = Some ["default-base-url"; "default-health-resource"; "default-health-method"]
  ∧ ∃ t, activePathId healthSelected = Some t ∧ t ≠ ""
         ∧ chainTo (nodes healthSelected) (edges healthSelected)
             ["default-base-url"; "default-health-resource"; "default-health-method"] t
         ∧ last ["default-base-url"; "default-health-resource"; "default-health-method"]
           = Some t
         ∧ NoDup ["default-base-url"; "default-health-resource"; "default-health-method"].
Proof.
  split; [by vm_compute |].
  by apply (resolved_path_is_chain (activePathId healthSelected) (nodes healthSelected)
              (edges healthSelected)); [vm_compute |].
Defined.

(** X2. Path resolution is complete: whenever a [BaseUrl] node can be
    reached backwards from the active id, [computeActivePathNodes] returns a
    path from a [BaseUrl] node to that id and [getComputedUrl] returns a URL,
    whatever other branches and cycles the graph has. *)
Theorem reachable_base_is_found (s : CanvasState) (t : string) :
  activePathId s = Some t → t ≠ "" → reachesBase (nodes s) (edges s) t →
  (∃ p, computeActivePathNodes (activePathId s) (nodes s) (edges s) = Some p
        ∧ chainTo (nodes s) (edges s) p t)
  ∧ ∃ url, getComputedUrl s = Some (Some url).
Proof.
  intros Ha Ht Hreach. unfold computeActivePathNodes, getComputedUrl.
  rewrite Ha. unfold truthy. rewrite decide_False by done.
  destruct (walks_return (nodes s) (edges s) (variables s) t (walkFuel (edges s))
              (candidateIds_size _ _)) as (b & st & ust & Hrun & Hurl).
  rewrite Hrun, Hurl.
  assert (b = true) as -> by (by eapply traceBackwards_complete).
  split.
  - apply traceBackwards_chain in Hrun as (chain & Hpath & Hchain & _).
    cbn in Hpath. rewrite app_nil_r in Hpath. exists (pathNodeIds st).
    by rewrite Hpath.
  - destruct (reachesBase_found _ _ _ Hreach) as [n ->].
    apply traceBackwardsUrl_found in Hurl. cbn.
    rewrite bool_decide_eq_false_2; [by eexists |].
    by destruct (path ust).
Qed.

Lemma reachable_base_is_found_witness :
  reachesBase (nodes scenarioE) (edges scenarioE) "get"
  ∧ ∃ url, getComputedUrl scenarioE = Some (Some url).
Proof.
  assert (reachesBase (nodes scenarioE) (edges scenarioE) "get") as Hreach.
  { apply (reaches_back _ _ "get" (node "get" Method "") (edge "users" "get"));
      [done | set_solver | done |].
    apply (reaches_back _ _ "users" (node "users" Resource "users") (edge "base" "users"));
      [done | set_solver | done |].
    by apply (reaches_here _ _ "base" (node "base" BaseUrl "http://localhost:3000")). }
  split; [done |].
  exact (proj2 (reachable_base_is_found scenarioE "get" eq_refl ltac:(done) Hreach)).
Defined.

(** ** Graphs in which no node has two incoming edges *)

Lemma segmentsOfPath_app ns vars l1 l2 :
  segmentsOfPath ns vars (l1 ++ l2) = segmentsOfPath ns vars l1 ++ segmentsOfPath ns vars l2.
Proof.
  unfold segmentsOfPath. rewrite foldl_app.
  generalize (foldl (λ path nodeId,
    match findNode ns nodeId with
    | Some node =>
      if decide (type (data node) = BaseUrl) then path ++ [value (data node)]
      else if decide (type (data node) = Resource)
      then path ++ [substituteParams vars (value (data node))]
      else path
    | None => path
    end) [] l1).
  induction l2 as [|x l2 IH] using rev_ind; intros acc.
  - by rewrite app_nil_r.
  - rewrite !foldl_app, IH. cbn.
    destruct (findNode ns x) as [n|]; [| done].
    repeat case_decide; by rewrite ?app_assoc.
Qed.

Section SingleParent.
Variables (ns : list ApiBlock) (es : list Edge) (vars : gmap string string).
Hypothesis single_parent : ∀ x, length (incomingEdges es x) ≤ 1.

(** Without a second parent to fall back on, the URL walk pushes exactly the
    segments of the ids the id walk pushes. *)
Lemma single_parent_walks_agree fuel : ∀ nodeId st ust st' ust',
  traceBackwards fuel ns es nodeId st = Some (true, st') →
  traceBackwardsUrl fuel ns es vars nodeId ust = Some (true, ust') →
  ∃ chain, pathNodeIds st' = chain ++ pathNodeIds st
           ∧ path ust' = segmentsOfPath ns vars chain ++ path ust.
Proof.
  induction fuel as [|fuel IH]; intros nodeId st ust st' ust' Hrun Hurl; [done |].
  cbn [traceBackwards traceBackwardsUrl] in Hrun, Hurl.
  destruct (decide (nodeId ∈ visitedNodes st)); [done |].
  destruct (decide (nodeId ∈ urlVisited ust)); [done |].
  destruct (findNode ns nodeId) as [node|] eqn:Hfind; [| done].
  destruct (decide (type (data node) = BaseUrl)) as [Hbase|Hkind].
  { simplify_eq. exists [nodeId]. split; [done |].
    unfold segmentsOfPath. cbn. by rewrite Hfind, decide_True. }
  pose proof (single_parent nodeId) as Hdeg.
  destruct (incomingEdges es nodeId) as [|e [|e' incoming]]; [done | | cbn in Hdeg; lia].
  cbn [forEachEdge] in Hrun, Hurl.
  destruct (traceBackwards fuel ns es (source e) _) as [[[] st1]|] eqn:Hc; try done.
  destruct (traceBackwardsUrl fuel ns es vars (source e) _) as [[[] ust1]|] eqn:Hu; try done.
  simplify_eq.
  destruct (IH _ _ _ _ _ Hc Hu) as (chain & Hpath & Hsegs).
  exists (chain ++ [nodeId]). split; [by rewrite Hpath, <- app_assoc |].
  rewrite Hsegs, segmentsOfPath_app, <- app_assoc. f_equal.
  unfold segmentsOfPath. cbn.
  rewrite Hfind, (decide_False (P := type (data node) = BaseUrl)) by done.
  by destruct (decide (type (data node) = Resource)); cbn.
Qed.
End SingleParent.

Lemma distinct_targets_single_parent es x :
  NoDup (target <$> es) → length (incomingEdges es x) ≤ 1.
Proof.
  unfold incomingEdges. induction es as [|e es IH]; intros Hnd; [cbn; lia |].
  cbn [fmap list_fmap] in Hnd. apply NoDup_cons in Hnd as [Hnew Hnd].
  rewrite filter_cons. destruct (decide (target e = x)) as [<-|]; [| by apply IH].
  assert (filter (λ e', target e' = target e) es = []) as ->; [| cbn; lia].
  clear IH Hnd. induction es as [|e' es IH]; [done |].
  rewrite filter_cons_False; [apply IH |]; set_solver.
Qed.

(** X3. On a graph in which no node has more than one incoming edge (the
    default canvas is one), [getComputedUrl] and the URL that [RequestNode]
    computes agree: both are [null], or both are the joined segments of the
    resolved path. *)
Theorem single_parent_urls_agree (s : CanvasState) :
  (∀ x, length (incomingEdges (edges s) x) ≤ 1) →
  getComputedUrl s = requestNodeUrl s.
Proof.
  intros Hdeg. unfold getComputedUrl, requestNodeUrl.
  destruct (truthy (activePathId s)) as [t|]; [| done].
  destruct (walks_return (nodes s) (edges s) (variables s) t (walkFuel (edges s))
              (candidateIds_size _ _)) as (b & st & ust & Hrun & Hurl).
  rewrite Hrun, Hurl.
  destruct (findNode (nodes s) t) as [n|] eqn:Hfind.
  - destruct b; [| done]. cbn.
    pose proof (traceBackwardsUrl_found _ _ _ _ _ _ _ Hurl) as Hne.
    rewrite bool_decide_eq_false_2 by (by destruct (path ust)).
    destruct (single_parent_walks_agree _ _ (variables s) Hdeg _ _ _ _ _ _ Hrun Hurl)
      as (chain & Hpath & Hsegs).
    cbn in Hpath, Hsegs. rewrite app_nil_r in Hpath, Hsegs. by rewrite Hpath, Hsegs.
  - destruct b; [| done].
    apply traceBackwards_sound, reachesBase_found in Hrun as [n' Hn'].
    cbn in Hn'. congruence.
Qed.

Lemma single_parent_urls_agree_witness :
  (∀ x, length (incomingEdges (edges healthSelected) x) ≤ 1)
  ∧ getComputedUrl healthSelected = requestNodeUrl healthSelected.
Proof.
  assert (∀ x, length (incomingEdges (edges healthSelected) x) ≤ 1) as Hdeg.
  { intros x. apply distinct_targets_single_parent.
    apply (bool_decide_unpack _). by vm_compute. }
  split; [exact Hdeg |]. exact (single_parent_urls_agree healthSelected Hdeg).
Defined.

(** * More on the composed URL *)

Lemma collapseRuns_collapseRuns s : ∀ a b,
  collapseRuns a (collapseRuns b s) = collapseRuns (a `min` b) s.
Proof.
  induction s as [|c s IH]; intros a b; [done |]. cbn [collapseRuns].
  destruct (decide (c = "/"%char)) as [->|Hc].
  - destruct b as [|b].
    + rewrite IH. by rewrite Nat.min_0_r.
    + cbn [collapseRuns]. rewrite (decide_True (P := "/"%char = "/"%char)) by done.
      destruct a as [|a]; cbn [Nat.min]; [by rewrite IH | by rewrite IH].
  - cbn [collapseRuns]. rewrite (decide_False (P := c = "/"%char)) by done.
    by rewrite IH, Nat.min_id.
Qed.

Lemma collapseRuns_0_head s s' : collapseRuns 0 s ≠ String "/" s'.
Proof.
  induction s as [|c s IH]; cbn; [done |].
  destruct (decide (c = "/"%char)); [done | congruence].
Qed.

(** Two slashes in a row are left only at the very beginning, and then only
    if two were allowed there, or right after a colon. *)
Lemma collapseRuns_double_slash s : ∀ n pre post,
  n ≤ 2 → collapseRuns n s = pre +:+ "//" +:+ post →
  (pre = "" ∧ n = 2) ∨ ∃ pre', pre = pre' +:+ ":".
Proof.
  induction s as [|c s IH]; intros n pre post Hn Heq.
  { destruct pre; discriminate. }
  cbn [collapseRuns] in Heq.
  destruct (decide (c = "/"%char)) as [->|Hc].
  - destruct n as [|n].
    + destruct (IH 0 pre post Hn Heq) as [[_ ?] | ?]; [done | by right].
    + assert (n ≤ 2) as Hn' by lia.
      destruct pre as [|c' pre]; revert Heq; norm_app.
      * intros [= Heq]. destruct n as [|[|n]]; [| by left | lia].
        by destruct (collapseRuns_0_head s post).
      * intros [= <- Heq].
        destruct (IH n pre post Hn' Heq) as [[_ ->] | [pre' ->]]; [lia |].
        right. exists (String "/" pre'). by norm_app.
  - assert ((if decide (c = ":"%char) then 2 else 1) ≤ 2) as Hr by (case_decide; lia).
    destruct pre as [|c' pre]; revert Heq; norm_app.
    + by intros [= -> _].
    + intros [= <- Heq].
      destruct (IH _ pre post Hr Heq) as [[-> Hc2] | [pre' ->]].
      * right. exists "". case_decide; [by subst | lia].
      * right. exists (String c pre'). by norm_app.
Qed.

Lemma withoutSlashes_collapseRuns s : ∀ n, withoutSlashes (collapseRuns n s) = withoutSlashes s.
Proof.
  induction s as [|c s IH]; intros n; [done |]. cbn [collapseRuns withoutSlashes].
  destruct (decide (c = "/"%char)) as [->|Hc].
  - destruct n; [done |]. cbn [withoutSlashes].
    by rewrite (decide_True (P := "/"%char = "/"%char)).
  - cbn [withoutSlashes]. rewrite (decide_False (P := c = "/"%char)) by done.
    by rewrite IH.
Qed.

Lemma collapseRuns_length s : ∀ n, String.length (collapseRuns n s) ≤ String.length s.
Proof.
  induction s as [|c s IH]; intros n; [done |]. cbn [collapseRuns String.length].
  destruct (decide (c = "/"%char)).
  - destruct n; cbn [String.length]; [specialize (IH 0) | specialize (IH n)]; lia.
  - cbn [String.length]. specialize (IH (if decide (c = ":"%char) then 2 else 1)). lia.
Qed.

(** X4. The URL that [getComputedUrl] and [RequestNode] build from a list of
    segments is in normal form: two slashes in a row occur only at its very
    beginning or right after a colon (so never three in a row), normalising
    it again changes nothing, and compared with the plain [join('/')] only
    slashes have been dropped. *)
Theorem composed_url_normal_form (segments : list string) :
  (∀ pre post, joinPath segments = pre +:+ "//" +:+ post →
     pre = "" ∨ ∃ pre', pre = pre' +:+ ":")
  ∧ collapseSlashes (joinPath segments) = joinPath segments
  ∧ withoutSlashes (joinPath segments) = withoutSlashes (String.concat "/" segments)
  ∧ String.length (joinPath segments) ≤ String.length (String.concat "/" segments).
Proof.
  unfold joinPath.
  rewrite (collapseSlashes_runs_aux _ (String.concat "/" segments) (le_n _)).
  split_and!.
  - intros pre post Heq.
    destruct (collapseRuns_double_slash _ 2 pre post (le_n _) Heq) as [[-> _] | ?];
      [by left | by right].
  - rewrite (collapseSlashes_runs_aux _ (collapseRuns 2 _) (le_n _)).
    by rewrite collapseRuns_collapseRuns.
  - apply withoutSlashes_collapseRuns.
  - apply collapseRuns_length.
Qed.

(** * More on the histories *)

Lemma take_app_take {A} n (l k : list A) : take n (l ++ take n k) = take n (l ++ k).
Proof. rewrite !take_app, take_take. do 2 f_equal. lia. Qed.

Lemma recordAll_history xs : ∀ s,
  Forall (λ x, rec_url x ≠ "") xs → length (history s) ≤ 10 →
  history (recordAll xs s) = take 10 (reverse (historyItemOf <$> xs) ++ history s).
Proof.
  induction xs as [|x xs IH]; intros s Hurls Hlen.
  - cbn. by rewrite take_ge.
  - apply Forall_cons in Hurls as [Hurl Hurls].
    change (recordAll (x :: xs) s)
      with (recordAll xs (setResponse (rec_id x) (rec_now x) (rec_response x)
                            (Some (rec_url x)) (Some (rec_method x)) s)).
    rewrite IH; [| done |].
    + unfold setResponse, truthy. rewrite decide_False by done.
      cbn [history setHistory fmap list_fmap]. rewrite take_app_take.
      by rewrite reverse_cons, <- app_assoc.
    + unfold setResponse, truthy. rewrite decide_False by done.
      cbn [history setHistory]. rewrite length_take. lia.
Qed.

(** X5. The history is the ten most recent recorded responses, newest
    first: after any number of [setResponse] calls that carry a url and a
    method, it consists of the items of these calls in reverse order followed
    by the earlier history, cut after ten items. *)
Theorem history_is_ten_most_recent (xs : list Recorded) (s : CanvasState) :
  Forall (λ x, rec_url x ≠ "") xs → length (history s) ≤ 10 →
  history (recordAll xs s) = take 10 (reverse (historyItemOf <$> xs) ++ history s)
  ∧ (10 ≤ length xs →
       history (recordAll xs s) = take 10 (reverse (historyItemOf <$> xs))).
Proof.
  intros Hurls Hlen. rewrite (recordAll_history xs s Hurls Hlen). split; [done |].
  intros Hmany. rewrite take_app_le; [done |].
  by rewrite length_reverse, length_fmap.
Qed.

Lemma history_is_ten_most_recent_witness :
  Forall (λ x, rec_url x ≠ "") (sampleRecorded <$> seq 0 12)
  ∧ length (history createDefaultState) ≤ 10
  ∧ history (recordAll (sampleRecorded <$> seq 0 12) createDefaultState)
    = historyItemOf <$> (sampleRecorded <$> [11; 10; 9; 8; 7; 6; 5; 4; 3; 2]).
Proof.
  assert (Forall (λ x, rec_url x ≠ "") (sampleRecorded <$> seq 0 12)) as Hurls
    by (by apply Forall_fmap, Forall_forall).
  assert (length (history createDefaultState) ≤ 10) as Hlen by (cbn; lia).
  split_and!; [done.. |].
  by rewrite (proj1 (history_is_ten_most_recent _ _ Hurls Hlen)).
Defined.

(** X6. Looking up the body history of an endpoint after [addBodyHistory]:
    every item returned carries the method and url asked for; while the
    body history holds fewer than 50 items, a call with a non-empty field
    list puts its item in front of the list of its own endpoint and leaves
    the lists of all other endpoints as they were; a call with no fields
    changes nothing. *)
Theorem body_history_of_endpoint (newId : string) (now : Z) (m m' : HttpMethod)
    (url url' : string) (fields : list BodyField) (s : CanvasState) :
  length (bodyHistory s) < 50 →
  Forall (λ item, bh_method item = m' ∧ bh_url item = url')
    (getBodyHistoryForEndpoint m' url' (addBodyHistory newId now m url fields s))
  ∧ (fields ≠ [] →
       getBodyHistoryForEndpoint m' url' (addBodyHistory newId now m url fields s)
       = (if decide (m = m' ∧ url = url')
          then [ {| bh_id := newId; bh_method := m; bh_url := url;
                    bh_bodyFields := fields; bh_timestamp := now |} ]
          else [])
         ++ getBodyHistoryForEndpoint m' url' s)
  ∧ (fields = [] → addBodyHistory newId now m url fields s = s).
Proof.
  intros Hlen. split_and!.
  - apply Forall_forall. intros item. unfold getBodyHistoryForEndpoint.
    rewrite list_elem_of_filter. tauto.
  - intros Hfields. unfold addBodyHistory, getBodyHistoryForEndpoint.
    rewrite decide_False by (by destruct fields).
    cbn [bodyHistory setBodyHistory]. rewrite take_ge by (cbn; lia).
    rewrite filter_cons. cbn. by repeat case_decide.
  - by intros ->.
Qed.

Lemma body_history_of_endpoint_witness :
  length (bodyHistory createDefaultState) < 50
  ∧ getBodyHistoryForEndpoint POST "http://localhost:3000/auth/login"
      (addBodyHistory "b1" 7 POST "http://localhost:3000/auth/login"
         [ {| bf_key := "email"; bf_value := "a@b.c" |} ] createDefaultState)
    = [ {| bh_id := "b1"; bh_method := POST; bh_url := "http://localhost:3000/auth/login";
           bh_bodyFields := [ {| bf_key := "email"; bf_value := "a@b.c" |} ];
           bh_timestamp := 7 |} ].
Proof.
  assert (length (bodyHistory createDefaultState) < 50) as Hlen by (cbn; lia).
  split; [done |].
  destruct (body_history_of_endpoint "b1" 7 POST POST "http://localhost:3000/auth/login"
              "http://localhost:3000/auth/login"
              [ {| bf_key := "email"; bf_value := "a@b.c" |} ] createDefaultState Hlen)
    as (_ & Hadd & _).
  by rewrite Hadd.
Defined.

Lemma filter_all {A} (P : A → Prop) `{∀ x, Decision (P x)} (l : list A) :
  (∀ y, y ∈ l → P y) → filter P l = l.
Proof.
  induction l as [|y l IH]; intros Hall; [done |].
  rewrite filter_cons_True by (apply Hall; left).
  f_equal. apply IH. intros z Hz. apply Hall. by right.
Qed.

(** With distinct ids, filtering out the id of one item removes that item
    and nothing else. *)
Lemma filter_unique_id {A} (ident : A → string) (l1 l2 : list A) (x : A) :
  NoDup (ident <$> (l1 ++ x :: l2)) →
  filter (λ y, ident y ≠ ident x) (l1 ++ x :: l2) = l1 ++ l2.
Proof.
  rewrite fmap_app, fmap_cons. intros Hnd.
  apply NoDup_app in Hnd as (_ & Hdisj & [Hx _]%NoDup_cons).
  rewrite filter_app, filter_cons_False by (by intros ?).
  f_equal; apply filter_all.
  - intros y Hy Heq. apply (Hdisj (ident y)); [by apply list_elem_of_fmap_2 |].
    rewrite Heq. left.
  - intros y Hy Heq. apply Hx. rewrite <- Heq. by apply list_elem_of_fmap_2.
Qed.

(** X7. Deleting from the histories.  While the ids of the items are
    distinct, [removeHistoryItem] and [removeBodyHistoryItem] take out
    exactly the item with the given id and keep the others in their order;
    an id that no item has leaves the history as it is; and recording a
    response under a fresh id keeps the ids distinct. *)
Theorem history_item_removed (s : CanvasState) :
  (∀ l1 item l2, history s = l1 ++ item :: l2 → NoDup (hi_id <$> history s) →
     history (removeHistoryItem (hi_id item) s) = l1 ++ l2)
  ∧ (∀ l1 item l2, bodyHistory s = l1 ++ item :: l2 → NoDup (bh_id <$> bodyHistory s) →
       bodyHistory (removeBodyHistoryItem (bh_id item) s) = l1 ++ l2)
  ∧ (∀ itemId, itemId ∉ hi_id <$> history s →
       history (removeHistoryItem itemId s) = history s)
  ∧ (∀ newId now r url m, newId ∉ hi_id <$> history s →
       NoDup (hi_id <$> history s) →
       NoDup (hi_id <$> history (setResponse newId now r url m s))).
Proof.
  split_and!.
  - intros l1 item l2 Hh Hnd. unfold removeHistoryItem. cbn [history setHistory].
    rewrite Hh in Hnd |- *. by apply filter_unique_id.
  - intros l1 item l2 Hh Hnd. unfold removeBodyHistoryItem. cbn [bodyHistory setBodyHistory].
    rewrite Hh in Hnd |- *. by apply filter_unique_id.
  - intros itemId Hnew. unfold removeHistoryItem. cbn [history setHistory].
    apply filter_all. intros y Hy <-. apply Hnew. by apply list_elem_of_fmap_2.
  - intros newId now r url m Hnew Hnd. unfold setResponse.
    destruct (truthy url) as [url'|]; [| done]. destruct m as [m'|]; [| done].
    cbn [history setHistory setResponseMember].
    change (take 10 (?x :: ?l)) with (x :: take 9 l). rewrite fmap_cons, fmap_take.
    apply NoDup_cons. split.
    + intros Hin. apply Hnew. by apply (subseteq_take 9).
    + eapply sublist_NoDup; [exact Hnd | apply sublist_take].
Qed.

Lemma history_item_removed_witness :
  let s := recordAll [ {| rec_id := "r1"; rec_now := 1; rec_response := okResponse;
                          rec_url := "http://localhost:3000/a"; rec_method := GET |};
                       {| rec_id := "r2"; rec_now := 2; rec_response := okResponse;
                          rec_url := "http://localhost:3000/b"; rec_method := GET |} ]
             createDefaultState in
  NoDup (hi_id <$> history s)
  ∧ hi_id <$> history (removeHistoryItem "r2" s) = ["r1"].
Proof.
  intros s.
  assert (NoDup (hi_id <$> history s)) as Hnd
    by (apply (bool_decide_unpack _); by vm_compute).
  split; [done |].
  destruct (history_item_removed s) as (Hrm & _).
  specialize (Hrm [] (historyItemOf {| rec_id := "r2"; rec_now := 2;
                                       rec_response := okResponse;
                                       rec_url := "http://localhost:3000/b";
                                       rec_method := GET |})
                [historyItemOf {| rec_id := "r1"; rec_now := 1;
                                  rec_response := okResponse;
                                  rec_url := "http://localhost:3000/a";
                                  rec_method := GET |}] eq_refl Hnd).
  cbn [hi_id historyItemOf rec_id] in Hrm. by rewrite Hrm.
Defined.

(** * More on request assembly and on request nodes *)

Lemma headersObj_snoc hs h :
  headersObj (hs ++ [h]) =
  if decide (hf_key h = "") then headersObj hs
  else if decide (hf_value h = "") then headersObj hs
  else setProperty (hf_key h) (hf_value h) (headersObj hs).
Proof. unfold headersObj. by rewrite foldl_app. Qed.

Lemma lastHeader_snoc k hs h :
  lastHeader k (hs ++ [h]) =
  if decide (hf_key h = k ∧ hf_value h ≠ "") then Some (hf_value h) else lastHeader k hs.
Proof.
  unfold lastHeader. rewrite filter_app.
  destruct (decide (hf_key h = k ∧ hf_value h ≠ "")) as [Hk|Hk].
  - rewrite filter_cons_True, filter_nil by done. by rewrite last_snoc.
  - rewrite filter_cons_False, filter_nil by done. by rewrite app_nil_r.
Qed.

Lemma headersObj_lookup hs : ∀ k,
  headersObj hs !! k
  = if decide (k = "" ∨ k = "__proto__") then None else lastHeader k hs.
Proof.
  induction hs as [|h hs IH] using rev_ind; intros k.
  - cbn. rewrite lookup_empty. by case_decide.
  - rewrite headersObj_snoc, lastHeader_snoc.
    destruct (decide (hf_key h = "")) as [Hk|Hk].
    { rewrite IH. repeat case_decide; naive_solver. }
    destruct (decide (hf_value h = "")) as [Hv|Hv].
    { rewrite IH. repeat case_decide; naive_solver. }
    rewrite setProperty_lookup by (by rewrite IH, decide_True; [| right]).
    rewrite IH. repeat case_decide; naive_solver.
Qed.

(** X8. The headers of the request [handleSend] builds.  A request is built
    only for a non-empty computed URL and carries that URL and the block's
    method (GET when none is set).  A configured bearer token always gives
    the header [Authorization: Bearer <token>], whatever [Authorization]
    header was entered by hand.  Every other header name maps to the value
    of the last entered header of that name whose value is not empty;
    headers with an empty name or an empty value are not sent, and neither
    is a header named [__proto__], whose assignment reaches the setter of
    [Object.prototype]. *)
Theorem request_headers (d : BlockData) (computedUrl : option string)
    (cfg : RequestConfig) :
  handleSendConfig d computedUrl = Some cfg →
  computedUrl = Some (cfg_url cfg) ∧ cfg_url cfg ≠ ""
  ∧ cfg_method cfg = default GET (method d)
  ∧ (∀ token, bearerToken d = Some token → token ≠ "" →
       cfg_headers cfg !! "Authorization" = Some ("Bearer " +:+ token))
  ∧ (∀ k, k ≠ "Authorization" ∨ truthy (bearerToken d) = None →
       cfg_headers cfg !! k
       = if decide (k = "" ∨ k = "__proto__") then None
         else lastHeader k (default defaultHeaders (headers d))).
Proof.
  unfold handleSendConfig.
  destruct (truthy computedUrl) as [url|] eqn:Hurl; [| done].
  apply truthy_Some in Hurl as [-> Hurl]. intros ?; simplify_eq. cbn.
  assert (headersObj (default defaultHeaders (headers d)) !! "__proto__" = None) as Hproto
    by (rewrite headersObj_lookup, decide_True; [done | by right]).
  split_and!; [done | done | done | |].
  - intros token -> Htoken. unfold truthy. rewrite decide_False by done.
    rewrite setProperty_lookup by done. by rewrite decide_True.
  - intros k Hk. destruct (truthy (bearerToken d)) as [token|] eqn:Htoken.
    + destruct Hk as [Hk|]; [| done].
      rewrite setProperty_lookup by done.
      rewrite decide_False by (by intros [? _]). apply headersObj_lookup.
    + apply headersObj_lookup.
Qed.

Lemma request_headers_witness :
  let d := {| type := Method; value := ""; method := Some POST; bodyFields := None;
              headers := Some [ {| hf_key := "Authorization"; hf_value := "Basic abc" |};
                                {| hf_key := "Accept"; hf_value := "text/plain" |};
                                {| hf_key := "Accept"; hf_value := "" |};
                                {| hf_key := ""; hf_value := "x" |} ];
              bearerToken := Some "t0k3n" |} in
  ∃ cfg, handleSendConfig d (Some "http://localhost:3000/auth/login") = Some cfg
         ∧ cfg_headers cfg !! "Authorization" = Some "Bearer t0k3n"
         ∧ cfg_headers cfg !! "Accept" = Some "text/plain".
Proof.
  intros d. eexists. split; [reflexivity |].
  destruct (request_headers d (Some "http://localhost:3000/auth/login") _ eq_refl)
    as (_ & _ & _ & Hauth & Hother).
  split; [by apply Hauth |].
  rewrite Hother by (by left). reflexivity.
Defined.

(** ** [ensureRequestNode] *)

Lemma existingRequestEdge_added newNodeId newEdgeId methodNodeId ns es :
  is_Some (existingRequestEdge methodNodeId
             (ns ++ [ {| id := newNodeId; data := requestBlockData |} ])
             (es ++ [ {| edge_id := newEdgeId; source := methodNodeId;
                         target := newNodeId |} ])).
Proof.
  unfold existingRequestEdge.
  set (requestNode := {| id := newNodeId; data := requestBlockData |}).
  set (newEdge := {| edge_id := newEdgeId; source := methodNodeId; target := newNodeId |}).
  assert (List.find (λ n, bool_decide (id n = target newEdge) &&
                          bool_decide (type (data n) = Request))
            (ns ++ [requestNode]) ≠ None) as Hnode.
  { intros Hnone. pose proof (find_none _ _ Hnone requestNode) as Hn.
    cbn in Hn. rewrite !bool_decide_eq_true_2 in Hn by done.
    discriminate Hn. apply in_or_app. right. by left. }
  match goal with |- is_Some (List.find ?P ?l) => destruct (List.find P l) eqn:Hfind end;
    [by eexists |].
  exfalso. pose proof (find_none _ _ Hfind newEdge) as Hnone.
  cbn beta in Hnone.
  rewrite (bool_decide_eq_true_2 (source newEdge = methodNodeId)) in Hnone by done.
  destruct (List.find _ (ns ++ [requestNode])); [| done].
  discriminate Hnone. apply in_or_app. right. by left.
Qed.

Lemma ensureRequestNode_cases methodNodeId s :
  (∀ n e, ensureRequestNode n e methodNodeId s = s)
  ∨ (∀ n e, ensureRequestNode n e methodNodeId s
            = setEdges (edges s ++ [ {| edge_id := e; source := methodNodeId; target := n |} ])
                (setNodes (nodes s ++ [ {| id := n; data := requestBlockData |} ]) s)).
Proof.
  unfold ensureRequestNode.
  destruct (existingRequestEdge methodNodeId (nodes s) (edges s)); [by left |].
  destruct (findNode (nodes s) methodNodeId) as [methodNode|]; [| by left].
  destruct (decide (type (data methodNode) = Method)); [by right | by left].
Qed.

(** X9. [ensureRequestNode] is idempotent and adds at most one request
    node: a second call for the same method block, with whatever new ids,
    changes nothing.  A call either leaves the state as it is, or appends
    one [Request] node and one edge from the method block to it and touches
    nothing else. *)
Theorem ensureRequestNode_idempotent (n1 e1 n2 e2 methodNodeId : string)
    (s : CanvasState) :
  ensureRequestNode n2 e2 methodNodeId (ensureRequestNode n1 e1 methodNodeId s)
  = ensureRequestNode n1 e1 methodNodeId s
  ∧ (ensureRequestNode n1 e1 methodNodeId s = s
     ∨ ensureRequestNode n1 e1 methodNodeId s
       = setEdges (edges s ++ [ {| edge_id := e1; source := methodNodeId; target := n1 |} ])
           (setNodes (nodes s ++ [ {| id := n1; data := requestBlockData |} ]) s)).
Proof.
  destruct (ensureRequestNode_cases methodNodeId s) as [Hsame | Hadd].
  - rewrite !Hsame. by split; [| left].
  - rewrite Hadd. split; [| by right].
    unfold ensureRequestNode. cbn [nodes edges setEdges setNodes].
    by destruct (existingRequestEdge_added n1 e1 methodNodeId (nodes s) (edges s)) as [e ->].
Qed.

(** * The parameter editor of a resource block *)

Lemma greedyClose_word w : ∀ seen,
  allWordChars w = true → (w ≠ "" ∨ seen = true) →
  greedyClose seen (w +:+ "}") = Some w.
Proof.
  induction w as [|c w IH]; intros seen Hw Hseen; norm_app.
  - destruct Hseen as [? | ->]; [done |]. by cbn.
  - cbn in Hw. apply andb_true_iff in Hw as [Hc Hw]. cbn [greedyClose].
    assert (isLineTerminator c = false) as ->.
    { revert Hc. unfold isWordChar, isLineTerminator.
      destruct (nat_of_ascii c =? 10) eqn:H10; [apply Nat.eqb_eq in H10 as ->; done |].
      destruct (nat_of_ascii c =? 13) eqn:H13; [apply Nat.eqb_eq in H13 as ->; done |].
      done. }
    by rewrite (IH true Hw (or_intror eq_refl)).
Qed.

Lemma paramName_placeholder w : isParamName w = true → paramName ("{" +:+ w +:+ "}") = w.
Proof.
  intros Hw. unfold paramName.
  pose proof (matchParam_placeholder w "" Hw) as Hm.
  rewrite string_app_nil_r in Hm.
  rewrite (matchParam_isParam _ _ _ Hm). norm_app. cbn [matchBraces].
  rewrite decide_True by done.
  apply andb_true_iff in Hw as [Hne%bool_decide_eq_true Hw].
  by rewrite greedyClose_word; [| | left].
Qed.

(** X10. The parameter editor round trip.  For a resource whose value is
    exactly one placeholder [{w}], [w] a non-empty run of word characters,
    the editor edits the variable [w]: after [handleParamValueChange] the
    editor shows the text typed, and, unless that text is empty, the segment
    is substituted by it in the URL computation. *)
Theorem param_editor_round_trip (w newValue : string) (s : CanvasState) :
  isParamName w = true →
  paramName ("{" +:+ w +:+ "}") = w
  ∧ variables (handleParamValueChange ("{" +:+ w +:+ "}") newValue s) !! w = Some newValue
  ∧ paramValue (variables (handleParamValueChange ("{" +:+ w +:+ "}") newValue s))
      ("{" +:+ w +:+ "}") = JsString newValue
  ∧ (newValue ≠ "" →
       substituteParams (variables (handleParamValueChange ("{" +:+ w +:+ "}") newValue s))
         ("{" +:+ w +:+ "}") = newValue).
Proof.
  intros Hw. unfold handleParamValueChange, paramValue, getProperty.
  rewrite (paramName_placeholder w Hw). cbn [variables setVariable setVariables].
  rewrite lookup_insert_eq. split_and!; [done | done | |].
  - cbn [jsTruthy]. case_decide; [by subst | done].
  - intros Hne.
    pose proof (substituteParams_app (<[w := newValue]> (variables s)) "" w "" Hw) as Happ.
    rewrite paramReplacer_cases, lookup_insert_eq in Happ.
    rewrite decide_False in Happ by done.
    revert Happ. norm_app. rewrite !string_app_nil_r. by cbn.
Qed.

Lemma param_editor_round_trip_witness :
  isParamName "postId" = true
  ∧ substituteParams
      (variables (handleParamValueChange ("{" +:+ "postId" +:+ "}") "42" (scenarioC ∅)))
      ("{" +:+ "postId" +:+ "}") = "42".
Proof.
  split; [reflexivity |].
  by apply (param_editor_round_trip "postId" "42" (scenarioC ∅) eq_refl).
Defined.

(** ** Variables whose name is not a word *)

Lemma matchParam_key s key rest : matchParam s = Some (key, rest) → isParamName key = true.
Proof.
  unfold matchParam. destruct s as [|c s]; [done |].
  case_decide; [| done].
  destruct (spanWord s) as [[|k w] [|c' r]] eqn:Hs; try done.
  case_decide; [| done]. intros ?; simplify_eq.
  apply spanWord_spec in Hs as [_ Hw]. unfold isParamName.
  by rewrite bool_decide_eq_true_2.
Qed.

Lemma substituteParams_insert_non_word vars k v value :
  isParamName k = false →
  substituteParams (<[k := v]> vars) value = substituteParams vars value.
Proof.
  intros Hk. unfold substituteParams. destruct (isParam value); [| done].
  apply replaceAll_ext. intros s. unfold matchParamWith.
  destruct (matchParam s) as [[key rest]|] eqn:Hm; [| done].
  apply matchParam_key in Hm. rewrite !paramReplacer_cases.
  rewrite lookup_insert_ne; [done |]. intros ->. congruence.
Qed.

(** X11. A variable whose name is not a non-empty run of word characters
    never shows in a URL.  This is what the parameter editor sets for a
    resource such as [{a}/{b}] or [{user-id}]: the block is displayed as a
    parameter, the captured name is [a}/{b] or [user-id], and typing a value
    for it leaves every computed URL as it was. *)
Theorem non_word_parameter_has_no_effect (value newValue : string) (s : CanvasState) :
  isParamName (paramName value) = false →
  getComputedUrl (handleParamValueChange value newValue s) = getComputedUrl s
  ∧ (∀ segment,
       substituteParams (variables (handleParamValueChange value newValue s)) segment
       = substituteParams (variables s) segment)
  ∧ isParam "{a}/{b}" = true ∧ paramName "{a}/{b}" = "a}/{b"
  ∧ isParam "{user-id}" = true ∧ paramName "{user-id}" = "user-id".
Proof.
  intros Hname.
  assert (∀ segment,
            substituteParams (variables (handleParamValueChange value newValue s)) segment
            = substituteParams (variables s) segment) as Hext.
  { intros segment. unfold handleParamValueChange. cbn [variables setVariable setVariables].
    by apply substituteParams_insert_non_word. }
  split_and!; [| done | by vm_compute..].
  by apply getComputedUrl_ext.
Qed.

Lemma non_word_parameter_has_no_effect_witness :
  isParamName (paramName "{a}/{b}") = false
  ∧ getComputedUrl (handleParamValueChange "{a}/{b}" "7" (scenarioC ∅))
    = getComputedUrl (scenarioC ∅).
Proof.
  split; [by vm_compute |].
  by apply (non_word_parameter_has_no_effect "{a}/{b}" "7" (scenarioC ∅)).
Defined.

(** X12. The test [/\{(.+)\}/] in front of the replacement in
    [getComputedUrl] never blocks a replacement: the value pushed for a
    resource is the result of the replacement alone.  Where the test fails
    the value is pushed unchanged, and so is every value without an opening
    brace. *)
Theorem isParam_test_is_redundant (vars : gmap string string) (value : string) :
  substituteParams vars value = replaceParams vars value
  ∧ (isParam value = false → substituteParams vars value = value)
  ∧ ((∀ pre post, value ≠ pre +:+ "{" +:+ post) → substituteParams vars value = value).
Proof.
  split_and!.
  - apply substituteParams_replaceParams.
  - intros Hp. unfold substituteParams. by rewrite Hp.
  - intros Hno. unfold substituteParams.
    destruct (isParam value) eqn:Hp; [| done]. exfalso. clear vars.
    induction value as [|c value IH]; [done |].
    cbn [isParam] in Hp. apply orb_true_iff in Hp as [Hp | Hp].
    + apply andb_true_iff in Hp as [->%bool_decide_eq_true _].
      by apply (Hno "" value).
    + apply IH; [| done]. intros pre post Heq.
      apply (Hno (String c pre) post). by rewrite Heq.
Qed.

Lemma isParam_test_is_redundant_witness :
  isParam "users" = false ∧ substituteParams {["users" := "x"]} "users" = "users".
Proof.
  split; [reflexivity |].
  by apply (proj1 (proj2 (isParam_test_is_redundant {["users" := "x"]} "users"))).
Defined.

(** * The OpenAPI import *)

(** ** Path segments *)

Lemma splitSlash_cons s : ∃ first others, splitSlash s = first :: others.
Proof.
  induction s as [|c s (first & others & IH)]; [by eexists _, _ |].
  cbn [splitSlash]. case_decide; [by eexists _, _ |]. rewrite IH. by eexists _, _.
Qed.

Lemma splitSlash_app a b : splitSlash (a +:+ "/" +:+ b) = splitSlash a ++ splitSlash b.
Proof.
  induction a as [|c a IH]; [by norm_app |].
  rewrite append_cons. cbn [splitSlash]. rewrite IH. case_decide; [done |].
  by destruct (splitSlash_cons a) as (first & others & ->).
Qed.

Lemma parsePathSegments_app a b :
  parsePathSegments (a +:+ "/" +:+ b) = parsePathSegments a ++ parsePathSegments b.
Proof. unfold parsePathSegments. by rewrite splitSlash_app, filter_app. Qed.

Lemma splitSlash_plain s : (∀ pre post, s ≠ pre +:+ "/" +:+ post) → splitSlash s = [s].
Proof.
  induction s as [|c s IH]; intros Hno; [done |]. cbn [splitSlash].
  rewrite decide_False by (intros ->; by apply (Hno "" s)).
  rewrite IH; [done |]. intros pre post ->. by apply (Hno (String c pre) post).
Qed.

Lemma splitSlash_no_slash s :
  Forall (λ seg, ∀ pre post, seg ≠ pre +:+ "/" +:+ post) (splitSlash s).
Proof.
  induction s as [|c s IH]; cbn [splitSlash].
  - apply Forall_singleton. by intros [|??] ?.
  - case_decide.
    + apply Forall_cons. split; [by intros [|??] ? | done].
    + destruct (splitSlash_cons s) as (first & others & Heq). rewrite Heq in IH |- *.
      apply Forall_cons in IH as [Hfirst Hothers]. apply Forall_cons. split; [| done].
      intros [|c' pre] post; norm_app; intros [= ? Heq']; [done |].
      exact (Hfirst pre post Heq').
Qed.

Lemma parsePathSegments_plain p : Forall plainSegment (parsePathSegments p).
Proof.
  unfold parsePathSegments. apply Forall_forall. intros seg [Hlen Hin]%list_elem_of_filter.
  split; [intros ->; cbn in Hlen; lia |].
  pose proof (splitSlash_no_slash p) as Hall. rewrite Forall_forall in Hall. by apply Hall.
Qed.

Lemma parsePathSegments_join segs :
  Forall plainSegment segs → parsePathSegments (String.concat "/" segs) = segs.
Proof.
  induction 1 as [|seg segs [Hne Hno] _ IH]; [done |].
  assert (parsePathSegments seg = [seg]) as Hseg.
  { unfold parsePathSegments. rewrite (splitSlash_plain seg Hno).
    rewrite filter_cons_True; [done |]. destruct seg; [done | cbn; lia]. }
  destruct segs as [|seg' segs]; [done |].
  change (String.concat "/" (seg :: seg' :: segs))
    with (seg +:+ "/" +:+ String.concat "/" (seg' :: segs)).
  by rewrite parsePathSegments_app, Hseg, IH.
Qed.

(** X16. The segments of a path.  [parsePathSegments] distributes over a
    slash, so leading, trailing and repeated slashes make no difference;
    every segment it returns is non-empty and free of slashes; and it undoes
    the joining of such segments. *)
Theorem parsePathSegments_laws :
  (∀ a b, parsePathSegments (a +:+ "/" +:+ b)
          = parsePathSegments a ++ parsePathSegments b)
  ∧ (∀ p, parsePathSegments ("/" +:+ p) = parsePathSegments p
          ∧ parsePathSegments (p +:+ "/") = parsePathSegments p)
  ∧ (∀ p, Forall plainSegment (parsePathSegments p))
  ∧ (∀ segs, Forall plainSegment segs →
             parsePathSegments ("/" +:+ String.concat "/" segs) = segs)
  ∧ (∀ p, parsePathSegments ("/" +:+ String.concat "/" (parsePathSegments p))
          = parsePathSegments p).
Proof.
  assert (∀ p, parsePathSegments ("/" +:+ p) = parsePathSegments p) as Hlead.
  { intros p. by rewrite <- (append_nil_l ("/" +:+ p)), parsePathSegments_app. }
  split_and!.
  - apply parsePathSegments_app.
  - intros p. split; [apply Hlead |].
    change (p +:+ "/") with (p +:+ "/" +:+ "").
    rewrite parsePathSegments_app. apply app_nil_r.
  - apply parsePathSegments_plain.
  - intros segs Hsegs. by rewrite Hlead, parsePathSegments_join.
  - intros p. rewrite Hlead. apply parsePathSegments_join, parsePathSegments_plain.
Qed.

Lemma parsePathSegments_laws_witness :
  Forall plainSegment ["users"; "{userId}"; "orders"]
  ∧ parsePathSegments "/users/{userId}/orders" = ["users"; "{userId}"; "orders"].
Proof.
  assert (Forall plainSegment ["users"; "{userId}"; "orders"]) as Hsegs.
  { exact (parsePathSegments_plain "/users/{userId}/orders"). }
  split; [done |].
  by apply (proj1 (proj2 (proj2 (proj2 parsePathSegments_laws))) _ Hsegs).
Defined.

(** ** The path tree *)

Lemma getChild_setChild key child cs : getChild key (setChild key child cs) = Some child.
Proof.
  induction cs as [|[k c] cs IH]; cbn [setChild getChild].
  - by rewrite decide_True.
  - case_decide; cbn [getChild]; [by rewrite decide_True | by rewrite decide_False].
Qed.

Lemma getChild_setChild_ne key key' child cs :
  key ≠ key' → getChild key' (setChild key child cs) = getChild key' cs.
Proof.
  intros Hne. induction cs as [|[k c] cs IH]; cbn [setChild getChild].
  - by rewrite decide_False.
  - case_decide; cbn [getChild]; [| by rewrite IH].
    subst k. by rewrite !decide_False.
Qed.

Lemma getChild_elem key child cs : getChild key cs = Some child → (key, child) ∈ cs.
Proof.
  induction cs as [|[k c] cs IH]; cbn [getChild]; [done |].
  case_decide; [intros [= ->]; subst; left | intros ?; right; by apply IH].
Qed.

Lemma addPath_keeps segs' : ∀ currentPath pathItem node segs entry,
  hasEndpoint node segs entry →
  hasEndpoint (addPath segs' currentPath pathItem node) segs entry.
Proof.
  induction segs' as [|seg' segs' IH]; intros currentPath pathItem node segs entry Hend;
    cbn [addPath].
  - destruct Hend as [node entry Hin | node seg child segs entry Hget Hend].
    + apply endpoint_here. cbn. set_solver.
    + by eapply endpoint_below.
  - destruct Hend as [node entry Hin | node seg child segs entry Hget Hend].
    + by apply endpoint_here.
    + destruct (decide (seg' = seg)) as [-> | Hne].
      * eapply endpoint_below; [cbn [children]; apply getChild_setChild |].
        rewrite Hget. cbn [default]. by apply IH.
      * eapply endpoint_below; [| done]. cbn [children].
        by rewrite getChild_setChild_ne.
Qed.

Lemma addPath_adds segs : ∀ currentPath pathItem node entry,
  entry ∈ pathItemMethods pathItem →
  hasEndpoint (addPath segs currentPath pathItem node) segs entry.
Proof.
  induction segs as [|seg segs IH]; intros currentPath pathItem node entry Hin;
    cbn [addPath].
  - apply endpoint_here. cbn. set_solver.
  - eapply endpoint_below; [cbn [children]; apply getChild_setChild |]. by apply IH.
Qed.

Lemma buildPathTree_endpoints paths path pathItem entry :
  (path, pathItem) ∈ paths → entry ∈ pathItemMethods pathItem →
  hasEndpoint (buildPathTree paths) (parsePathSegments path) entry.
Proof.
  intros Hpath Hentry. unfold buildPathTree.
  generalize (mkPathNode "" [] [] "").
  induction paths as [|[p item] paths IH]; intros root; [by apply elem_of_nil in Hpath |].
  cbn [foldl]. apply elem_of_cons in Hpath as [[= <- <-] | Hpath]; [| by apply IH].
  clear IH. generalize (addPath_adds (parsePathSegments path) "" pathItem root entry Hentry).
  generalize (addPath (parsePathSegments path) "" pathItem root). clear root.
  induction paths as [|[p item] paths IH]; intros root Hroot; [done |].
  cbn [foldl]. by apply IH, addPath_keeps.
Qed.

(** Induction on the tree, with the hypothesis for all children. *)
Lemma PathNode_children_ind (P : PathNode → Prop) :
  (∀ seg cs ms full, Forall (λ kc, P kc.2) cs → P (mkPathNode seg cs ms full)) →
  ∀ node, P node.
Proof.
  intros Hstep. fix IH 1. intros [seg cs ms full]. apply Hstep.
  induction cs as [|[k c] cs IHcs]; constructor; [apply IH | apply IHcs].
Qed.

Lemma countBelow_children seg cs ms full :
  countBelow (mkPathNode seg cs ms full) = countChildren cs.
Proof.
  unfold countChildren. cbn [countBelow].
  induction cs as [|[k c] cs IH]; [done |]. cbn [fmap list_fmap sum_list snd]. by rewrite IH.
Qed.

(** ** The blocks and edges the import creates *)

Lemma findNode_elem ns x n : findNode ns x = Some n → n ∈ ns ∧ id n = x.
Proof.
  unfold findNode. induction ns as [|n' ns IH]; cbn [List.find]; [done |].
  destruct (bool_decide (id n' = x)) eqn:Hid.
  - intros [= ->]. apply bool_decide_eq_true in Hid. split; [left | done].
  - intros [Hin Heq]%IH. split; [by right | done].
Qed.

Lemma findNode_NoDup ns n : NoDup (id <$> ns) → n ∈ ns → findNode ns (id n) = Some n.
Proof.
  unfold findNode. induction ns as [|n' ns IH]; intros Hnd Hin; [by apply elem_of_nil in Hin |].
  rewrite fmap_cons in Hnd. apply NoDup_cons in Hnd as [Hfresh Hnd]. cbn [List.find].
  apply elem_of_cons in Hin as [-> | Hin]; [by rewrite bool_decide_eq_true_2 |].
  rewrite bool_decide_eq_false_2; [by apply IH |].
  intros Heq. apply Hfresh. rewrite Heq. by apply list_elem_of_fmap_2.
Qed.

Lemma findNode_snoc_new ns n : id n ∉ id <$> ns → findNode (ns ++ [n]) (id n) = Some n.
Proof.
  unfold findNode. induction ns as [|n' ns IH]; intros Hfresh; cbn [app List.find].
  - by rewrite bool_decide_eq_true_2.
  - rewrite fmap_cons in Hfresh. apply not_elem_of_cons in Hfresh as [Hne Hfresh].
    rewrite bool_decide_eq_false_2 by done. by apply IH.
Qed.

Lemma reachesBase_snoc ns es n e x :
  id n ∉ id <$> ns → reachesBase ns es x → reachesBase (ns ++ [n]) (es ++ [e]) x.
Proof.
  intros Hfresh. induction 1 as [x node Hfind Hbase | x node edge Hfind Hedge Htarget _ IH].
  - apply (reaches_here _ _ x node); [| done]. rewrite findNode_snoc; [done |].
    apply findNode_elem in Hfind as [Hin <-]. intros Heq. apply Hfresh. rewrite Heq.
    by apply list_elem_of_fmap_2.
  - apply (reaches_back _ _ x node edge); [| set_solver | done | done].
    rewrite findNode_snoc; [done |].
    apply findNode_elem in Hfind as [Hin <-]. intros Heq. apply Hfresh. rewrite Heq.
    by apply list_elem_of_fmap_2.
Qed.

Lemma grows_refl st : grows st st.
Proof. by split. Qed.

Lemma grows_trans st1 st2 st3 : grows st1 st2 → grows st2 st3 → grows st1 st3.
Proof. intros [??] [??]. split; by etrans. Qed.

Lemma grows_nodes st st' x :
  grows st st' → x ∈ id <$> imp_nodes st → x ∈ id <$> imp_nodes st'.
Proof. intros [[l ->] _]. rewrite fmap_app. set_solver. Qed.

Lemma routeTo_grows st st' d parent segs ids :
  grows st st' →
  routeTo (imp_nodes st) (imp_edges st) d parent segs ids →
  routeTo (imp_nodes st') (imp_edges st') d parent segs ids.
Proof.
  intros [[ns ->] [es ->]].
  induction 1 as [parent methodId edgeId Hn He | parent seg segs nodeId edgeId ids Hn He _ IH].
  - apply (route_method _ _ _ parent methodId edgeId); set_solver.
  - apply (route_resource _ _ _ parent seg segs nodeId edgeId ids); [set_solver.. | done].
Qed.

Section ImportProofs.
Variables (nanoid : nat → string) (spec : OpenAPISpec) (baseUrl : string).
Hypothesis nanoid_inj : Inj (=) (=) nanoid.

(** Pushing a block under a fresh id together with the edge from an
    existing block to it keeps the invariant. *)
Lemma attach_inv parent d st st' :
  imp_nodes st' = imp_nodes st ++ [ {| id := nanoid (nanoidCalls st); data := d |} ] →
  imp_edges st' = imp_edges st
    ++ [ {| edge_id := nanoid (S (nanoidCalls st)); source := parent;
            target := nanoid (nanoidCalls st) |} ] →
  nanoidCalls st' = S (S (nanoidCalls st)) →
  totalEndpoints st'
  = (if decide (type d = Method) then S (totalEndpoints st) else totalEndpoints st) →
  type d ≠ BaseUrl →
  parent ∈ id <$> imp_nodes st →
  importInv nanoid baseUrl st → importInv nanoid baseUrl st'.
Proof.
  intros Hns Hes Hcalls Hcount Hkind Hparent
    [Hids Heids Htargets Hissued Hdisj Hends Hroot Hbase Hconn Hcnt].
  assert (∀ x k, x ∈ id <$> imp_nodes st → nanoidCalls st ≤ k → x ≠ nanoid k) as Hfresh.
  { intros x k Hx Hk ->.
    destruct (Hissued (nanoid k)) as (k' & Hlt & Heq); [apply elem_of_app; by left |].
    apply nanoid_inj in Heq. lia. }
  assert (∀ x k, x ∈ edge_id <$> imp_edges st → nanoidCalls st ≤ k → x ≠ nanoid k)
    as Hfresh'.
  { intros x k Hx Hk ->.
    destruct (Hissued (nanoid k)) as (k' & Hlt & Heq); [apply elem_of_app; by right |].
    apply nanoid_inj in Heq. lia. }
  assert (nanoid (nanoidCalls st) ∉ id <$> imp_nodes st) as Hnew.
  { intros Hin. by apply (Hfresh _ (nanoidCalls st) Hin). }
  constructor; rewrite ?Hns, ?Hes, ?Hcalls, ?Hcount, ?fmap_app; cbn [fmap list_fmap id edge_id target].
  - apply NoDup_app. split_and!; [done | | apply NoDup_singleton].
    intros x Hx ->%list_elem_of_singleton. by apply Hnew.
  - apply NoDup_app. split_and!; [done | | apply NoDup_singleton].
    intros x Hx ->%list_elem_of_singleton.
    apply (Hfresh' _ (S (nanoidCalls st)) Hx); [lia | done].
  - apply NoDup_app. split_and!; [done | | apply NoDup_singleton].
    intros x Hx ->%list_elem_of_singleton. apply Hnew.
    apply list_elem_of_fmap in Hx as (e & -> & He). by apply Hends.
  - intros x Hx.
    assert (x ∈ (id <$> imp_nodes st) ++ (edge_id <$> imp_edges st)
            ∨ x = nanoid (nanoidCalls st) ∨ x = nanoid (S (nanoidCalls st))) as Hcases
      by set_solver.
    destruct Hcases as [Hold | [-> | ->]].
    + apply Hissued in Hold as (k & Hlt & ->). exists k. split; [lia | done].
    + exists (nanoidCalls st). split; [lia | done].
    + exists (S (nanoidCalls st)). split; [lia | done].
  - intros x [Hx | Hx%list_elem_of_singleton]%elem_of_app
             [Hx' | Hx'%list_elem_of_singleton]%elem_of_app.
    + by apply (Hdisj x).
    + apply (Hfresh _ (S (nanoidCalls st)) Hx); [lia | done].
    + by apply (Hfresh' _ (nanoidCalls st) Hx').
    + rewrite Hx in Hx'. apply nanoid_inj in Hx'. lia.
  - intros e [He | ->%list_elem_of_singleton]%elem_of_app; cbn [source target].
    + destruct (Hends e He). set_solver.
    + set_solver.
  - intros e [He | ->%list_elem_of_singleton]%elem_of_app; cbn [target]; [by apply Hroot |].
    intros Heq%nanoid_inj.
    destruct Hbase as (rest & Hbase & _).
    destruct (Hissued (nanoid 0)) as (k & Hlt & Hk%nanoid_inj); [| lia].
    rewrite Hbase. cbn. set_solver.
  - destruct Hbase as (rest & -> & Hrest). eexists. split; [by rewrite <- app_comm_cons |].
    apply Forall_app. split; [done |]. by apply Forall_singleton.
  - assert (∀ x, x ∈ id <$> imp_nodes st →
                 reachesBase
                   (imp_nodes st ++ [ {| id := nanoid (nanoidCalls st); data := d |} ])
                   (imp_edges st
                    ++ [ {| edge_id := nanoid (S (nanoidCalls st)); source := parent;
                            target := nanoid (nanoidCalls st) |} ]) x) as Hold.
    { intros x (n & -> & Hn)%list_elem_of_fmap. apply reachesBase_snoc; [done |]. by apply Hconn. }
    intros n [Hn | ->%list_elem_of_singleton]%elem_of_app.
    + apply Hold. by apply list_elem_of_fmap_2.
    + eapply (reaches_back _ _ _ {| id := nanoid (nanoidCalls st); data := d |}
                {| edge_id := nanoid (S (nanoidCalls st)); source := parent;
                   target := nanoid (nanoidCalls st) |});
        [| set_solver | done | by apply Hold].
      by apply (findNode_snoc_new (imp_nodes st) {| id := nanoid (nanoidCalls st); data := d |}).
  - rewrite filter_app, length_app, <- Hcnt.
    destruct (decide (type d = Method)) as [Hm | Hm].
    + rewrite filter_cons_True by done. cbn. lia.
    + rewrite filter_cons_False by done. cbn. lia.
Qed.

Lemma addResourceNode_spec parent seg st :
  importInv nanoid baseUrl st → parent ∈ id <$> imp_nodes st →
  importInv nanoid baseUrl (addResourceNode nanoid parent seg st)
  ∧ grows st (addResourceNode nanoid parent seg st)
  ∧ {| id := nanoid (nanoidCalls st); data := blockData Resource seg None |}
    ∈ imp_nodes (addResourceNode nanoid parent seg st)
  ∧ {| edge_id := nanoid (S (nanoidCalls st)); source := parent;
       target := nanoid (nanoidCalls st) |}
    ∈ imp_edges (addResourceNode nanoid parent seg st).
Proof.
  intros Hinv Hparent. split_and!.
  - by apply (attach_inv parent (blockData Resource seg None) st).
  - split; by apply prefix_app_r.
  - cbn. set_solver.
  - cbn. set_solver.
Qed.

Lemma addMethodNode_spec nodeId entry st :
  importInv nanoid baseUrl st → nodeId ∈ id <$> imp_nodes st →
  importInv nanoid baseUrl (addMethodNode nanoid spec nodeId st entry)
  ∧ grows st (addMethodNode nanoid spec nodeId st entry)
  ∧ {| id := nanoid (nanoidCalls st);
       data := methodBlockData entry.1 (extractBodyFields (requestBody entry.2) spec) |}
    ∈ imp_nodes (addMethodNode nanoid spec nodeId st entry)
  ∧ {| edge_id := nanoid (S (nanoidCalls st)); source := nodeId;
       target := nanoid (nanoidCalls st) |}
    ∈ imp_edges (addMethodNode nanoid spec nodeId st entry).
Proof.
  intros Hinv Hparent. split_and!.
  - by apply (attach_inv nodeId
                (methodBlockData entry.1 (extractBodyFields (requestBody entry.2) spec)) st).
  - split; by apply prefix_app_r.
  - cbn. set_solver.
  - cbn. set_solver.
Qed.

(** The loop over the methods of a child. *)
Lemma addMethods_spec nodeId ms : ∀ st,
  importInv nanoid baseUrl st → nodeId ∈ id <$> imp_nodes st →
  importInv nanoid baseUrl (foldl (addMethodNode nanoid spec nodeId) st ms)
  ∧ grows st (foldl (addMethodNode nanoid spec nodeId) st ms)
  ∧ ∀ entry, entry ∈ ms →
      ∃ methodId edgeId,
        {| id := methodId;
           data := methodBlockData entry.1 (extractBodyFields (requestBody entry.2) spec) |}
        ∈ imp_nodes (foldl (addMethodNode nanoid spec nodeId) st ms)
        ∧ {| edge_id := edgeId; source := nodeId; target := methodId |}
          ∈ imp_edges (foldl (addMethodNode nanoid spec nodeId) st ms).
Proof.
  induction ms as [|entry ms IH]; intros st Hinv Hparent; cbn [foldl].
  - split_and!; [done | apply grows_refl |]. intros entry Hin. by apply elem_of_nil in Hin.
  - destruct (addMethodNode_spec nodeId entry st Hinv Hparent) as (Hinv1 & Hgrow1 & Hn & He).
    destruct (IH _ Hinv1 (grows_nodes _ _ _ Hgrow1 Hparent)) as (Hinv2 & Hgrow2 & Hrest).
    split_and!; [done | by eapply grows_trans |].
    intros entry' [-> | Hin]%elem_of_cons; [| by apply Hrest].
    destruct Hgrow2 as [[ns Hns] [es Hes]]. eexists _, _. rewrite Hns, Hes.
    split; apply elem_of_app; left; [exact Hn | exact He].
Qed.

(** The recursive descent: it keeps the invariant, only appends, and lays
    out a route below [parentId] for every operation the tree holds below
    its root. *)
Lemma processNode_spec : ∀ node parentId st,
  importInv nanoid baseUrl st → parentId ∈ id <$> imp_nodes st →
  importInv nanoid baseUrl (processNode nanoid spec node parentId st)
  ∧ grows st (processNode nanoid spec node parentId st)
  ∧ ∀ segs entry, segs ≠ [] → hasEndpoint node segs entry →
      ∃ ids, routeTo (imp_nodes (processNode nanoid spec node parentId st))
               (imp_edges (processNode nanoid spec node parentId st))
               (methodBlockData entry.1 (extractBodyFields (requestBody entry.2) spec))
               parentId segs ids.
Proof.
  intros node. pattern node. apply PathNode_children_ind. clear node.
  intros seg0 cs ms full IHcs parentId st Hinv Hparent. cbn [processNode].
  assert (importInv nanoid baseUrl
            (processChildren nanoid spec (processNode nanoid spec) parentId cs st)
          ∧ grows st (processChildren nanoid spec (processNode nanoid spec) parentId cs st)
          ∧ ∀ k c segs entry, (k, c) ∈ cs → hasEndpoint c segs entry →
              ∃ ids, routeTo
                       (imp_nodes (processChildren nanoid spec (processNode nanoid spec)
                                     parentId cs st))
                       (imp_edges (processChildren nanoid spec (processNode nanoid spec)
                                     parentId cs st))
                       (methodBlockData entry.1
                          (extractBodyFields (requestBody entry.2) spec))
                       parentId (k :: segs) ids) as (Hinv' & Hgrow' & Hroutes).
  { clear seg0 ms full. revert st Hinv Hparent.
    induction cs as [|[k c] cs IH]; intros st Hinv Hparent; cbn [processChildren].
    - split_and!; [done | apply grows_refl |]. intros k c segs entry Hin.
      by apply elem_of_nil in Hin.
    - apply Forall_cons in IHcs as [IHc IHcs]. cbn [snd] in IHc.
      destruct (addResourceNode_spec parentId k st Hinv Hparent)
        as (Hinv1 & Hgrow1 & Hn1 & He1).
      set (st1 := addResourceNode nanoid parentId k st) in *.
      assert (nanoid (nanoidCalls st) ∈ id <$> imp_nodes st1) as Hnode1.
      { by apply (list_elem_of_fmap_2 id _ _ Hn1). }
      destruct (addMethods_spec (nanoid (nanoidCalls st)) (methods c) st1 Hinv1 Hnode1)
        as (Hinv2 & Hgrow2 & Hmethods).
      set (st2 := foldl (addMethodNode nanoid spec (nanoid (nanoidCalls st))) st1
                    (methods c)) in *.
      destruct (IHc (nanoid (nanoidCalls st)) st2 Hinv2 (grows_nodes _ _ _ Hgrow2 Hnode1))
        as (Hinv3 & Hgrow3 & Hbelow).
      set (st3 := processNode nanoid spec c (nanoid (nanoidCalls st)) st2) in *.
      assert (grows st st3) as Hgrow by (by repeat (eapply grows_trans; [| done])).
      destruct (IH IHcs st3 Hinv3 (grows_nodes _ _ _ Hgrow Hparent))
        as (Hinv4 & Hgrow4 & Hrest).
      split_and!; [done | by eapply grows_trans |].
      intros k' c' segs entry [[= -> ->] | Hin]%elem_of_cons Hend; [| by eapply Hrest].
      assert (∃ ids, routeTo (imp_nodes st3) (imp_edges st3)
                       (methodBlockData entry.1
                          (extractBodyFields (requestBody entry.2) spec))
                       (nanoid (nanoidCalls st)) segs ids) as [ids Hroute].
      { destruct Hend as [node entry Hentry | node seg child segs entry Hget Hend].
        - destruct (Hmethods entry Hentry) as (methodId & edgeId & Hn & He).
          exists [methodId]. apply (routeTo_grows st2 st3); [done |].
          by apply (route_method _ _ _ _ methodId edgeId).
        - apply Hbelow; [done |]. by eapply endpoint_below. }
      exists (nanoid (nanoidCalls st) :: ids). apply (routeTo_grows st3); [done |].
      apply (route_resource _ _ _ _ _ _ _ (nanoid (S (nanoidCalls st)))); [| | done].
      + apply (grows_trans st1 st2 st3 Hgrow2) in Hgrow3 as [[ns Hns] _]. rewrite Hns.
        apply elem_of_app. by left.
      + apply (grows_trans st1 st2 st3 Hgrow2) in Hgrow3 as [_ [es Hes]]. rewrite Hes.
        apply elem_of_app. by left. }
  split_and!; [done | done |].
  intros segs entry Hne Hend.
  inversion Hend as [node entry' Hentry | node seg child segs' entry' Hget Hend'];
    subst; [done |].
  cbn [children] in Hget. apply getChild_elem in Hget. by eapply Hroutes.
Qed.
End ImportProofs.

(** ** From a route to the URL *)

Lemma chainTo_reaches ns es p x : chainTo ns es p x → reachesBase ns es x.
Proof.
  induction 1 as [b nb Hfind Hbase | p y x n e _ IH Hfind Hkind He Hsrc Htgt].
  - by apply (reaches_here _ _ b nb).
  - apply (reaches_back _ _ x n e); [done.. |]. by rewrite Hsrc.
Qed.

Lemma chainTo_unique ns es :
  (∀ x, length (incomingEdges es x) ≤ 1) →
  ∀ p x, chainTo ns es p x → ∀ q, chainTo ns es q x → p = q.
Proof.
  intros Hdeg. induction 1 as [b nb Hfind Hbase | p y x n e _ IH Hfind Hkind He Hsrc Htgt];
    intros q Hq.
  - inversion Hq as [b' nb' Hfind' Hbase' | p' y' x' n' e' Hp' Hfind' Hkind' He' Hsrc' Htgt'];
      subst; [done |].
    rewrite Hfind in Hfind'. by simplify_eq.
  - inversion Hq as [b' nb' Hfind' Hbase' | p' y' x' n' e' Hp' Hfind' Hkind' He' Hsrc' Htgt'];
      subst.
    + rewrite Hfind in Hfind'. by simplify_eq.
    + assert (e = e') as <-.
      { assert (e ∈ incomingEdges es (target e)) as Hin
          by (by apply list_elem_of_filter).
        assert (e' ∈ incomingEdges es (target e)) as Hin'
          by (by apply list_elem_of_filter).
        specialize (Hdeg (target e)).
        destruct (incomingEdges es (target e)) as [|e0 [|e1 l]]; cbn in Hdeg; [| | lia].
        - by apply elem_of_nil in Hin.
        - apply list_elem_of_singleton in Hin, Hin'. congruence. }
      f_equal. by apply IH.
Qed.

(** On a graph without a second parent, a chain to the active id is the
    resolved path and gives the URL. *)
Lemma single_parent_chain_url s p t :
  (∀ x, length (incomingEdges (edges s) x) ≤ 1) →
  activePathId s = Some t → t ≠ "" → chainTo (nodes s) (edges s) p t →
  computeActivePathNodes (activePathId s) (nodes s) (edges s) = Some p
  ∧ getComputedUrl s
    = Some (Some (joinPath (segmentsOfPath (nodes s) (variables s) p))).
Proof.
  intros Hdeg Ha Ht Hchain. unfold computeActivePathNodes, getComputedUrl.
  rewrite Ha. unfold truthy. rewrite decide_False by done.
  destruct (walks_return (nodes s) (edges s) (variables s) t (walkFuel (edges s))
              (candidateIds_size _ _)) as (b & st & ust & Hrun & Hurl).
  rewrite Hrun, Hurl.
  pose proof (chainTo_reaches _ _ _ _ Hchain) as Hreach.
  assert (b = true) as -> by (by eapply traceBackwards_complete).
  destruct (single_parent_walks_agree _ _ (variables s) Hdeg _ _ _ _ _ _ Hrun Hurl)
    as (chain' & Hpath' & Hsegs).
  apply traceBackwards_chain in Hrun as (chain & Hpath & Hchain' & _).
  cbn in Hpath, Hpath', Hsegs. rewrite app_nil_r in Hpath, Hpath', Hsegs.
  assert (chain = p) as -> by (by eapply chainTo_unique).
  assert (chain' = p) as -> by congruence.
  rewrite Hpath. split; [done |].
  destruct (reachesBase_found _ _ _ Hreach) as [n ->].
  pose proof (traceBackwardsUrl_found _ _ _ _ _ _ _ Hurl) as Hne. cbn.
  rewrite bool_decide_eq_false_2 by (by destruct (path ust)). by rewrite Hsegs.
Qed.

Lemma segmentsOfPath_cons ns vars x l :
  segmentsOfPath ns vars (x :: l)
  = segmentsOfPath ns vars [x] ++ segmentsOfPath ns vars l.
Proof. apply (segmentsOfPath_app ns vars [x] l). Qed.

Lemma routeTo_nonempty ns es d parent segs ids : routeTo ns es d parent segs ids → ids ≠ [].
Proof. by destruct 1. Qed.

Lemma routeTo_length ns es d parent segs ids :
  routeTo ns es d parent segs ids → length ids = S (length segs).
Proof. induction 1; cbn; [done | by f_equal]. Qed.

Lemma routeTo_segments ns es d vars parent segs ids :
  NoDup (id <$> ns) → type d = Method → routeTo ns es d parent segs ids →
  segmentsOfPath ns vars ids = substituteParams vars <$> segs.
Proof.
  intros Hnd Hd.
  induction 1 as [parent methodId edgeId Hn He | parent seg segs nodeId edgeId ids Hn He _ IH].
  - pose proof (findNode_NoDup ns _ Hnd Hn) as Hfind. cbn [id] in Hfind.
    unfold segmentsOfPath. cbn [foldl]. rewrite Hfind. cbn [data]. rewrite Hd.
    by rewrite !decide_False.
  - pose proof (findNode_NoDup ns _ Hnd Hn) as Hfind. cbn [id] in Hfind.
    rewrite segmentsOfPath_cons, IH. unfold segmentsOfPath at 1. cbn [foldl].
    by rewrite Hfind.
Qed.

Lemma routeTo_chain ns es d parent segs ids :
  NoDup (id <$> ns) → type d ≠ BaseUrl → routeTo ns es d parent segs ids →
  ∀ p, chainTo ns es p parent →
       ∃ t, last ids = Some t ∧ chainTo ns es (p ++ ids) t
            ∧ {| id := t; data := d |} ∈ ns.
Proof.
  intros Hnd Hd.
  induction 1 as [parent methodId edgeId Hn He | parent seg segs nodeId edgeId ids Hn He Hroute IH];
    intros p Hp.
  - exists methodId. split_and!; [done | | done].
    by apply (chain_step ns es p parent methodId _
                {| edge_id := edgeId; source := parent; target := methodId |} Hp
                (findNode_NoDup ns _ Hnd Hn)).
  - assert (chainTo ns es (p ++ [nodeId]) nodeId) as Hstep
      by (by apply (chain_step ns es p parent nodeId _
                      {| edge_id := edgeId; source := parent; target := nodeId |} Hp
                      (findNode_NoDup ns _ Hnd Hn))).
    destruct (IH _ Hstep) as (t & Hlast & Hchain & Hin).
    exists t. rewrite <- app_assoc in Hchain. split_and!; [| done | done].
    apply routeTo_nonempty in Hroute. destruct ids; [done |]. done.
Qed.

Lemma importInv_initial nanoid baseUrl :
  importInv nanoid baseUrl
    {| imp_nodes := [ {| id := nanoid 0; data := blockData BaseUrl baseUrl None |} ];
       imp_edges := []; totalEndpoints := 0; nanoidCalls := 1 |}.
Proof.
  constructor; cbn [imp_nodes imp_edges totalEndpoints nanoidCalls fmap list_fmap id].
  - apply NoDup_singleton.
  - apply NoDup_nil_2.
  - apply NoDup_nil_2.
  - intros x Hx. exists 0. split; [lia | set_solver].
  - intros x _ Hx. by apply elem_of_nil in Hx.
  - intros e He. by apply elem_of_nil in He.
  - intros e He. by apply elem_of_nil in He.
  - by exists [].
  - intros n ->%list_elem_of_singleton.
    apply (reaches_here _ _ _ {| id := nanoid 0; data := blockData BaseUrl baseUrl None |});
      [| done].
    unfold findNode. cbn. by rewrite bool_decide_eq_true_2.
  - by rewrite filter_cons_False.
Qed.

Lemma importOpenAPI_inv nanoid spec :
  Inj (=) (=) nanoid →
  ∃ st, res_nodes (importOpenAPI nanoid spec) = imp_nodes st
        ∧ res_edges (importOpenAPI nanoid spec) = imp_edges st
        ∧ endpoints (stats (importOpenAPI nanoid spec)) = totalEndpoints st
        ∧ importInv nanoid (importBaseUrl spec) st
        ∧ ∀ segs entry, segs ≠ [] →
            hasEndpoint (buildPathTree (default [] (spec_paths spec))) segs entry →
            ∃ ids, routeTo (imp_nodes st) (imp_edges st)
                     (methodBlockData entry.1
                        (extractBodyFields (requestBody entry.2) spec))
                     (nanoid 0) segs ids.
Proof.
  intros Hinj. unfold importOpenAPI. cbn [res_nodes res_edges stats endpoints].
  eexists. split_and!; [done.. | |];
    apply (processNode_spec nanoid spec (importBaseUrl spec) Hinj);
    first [apply importInv_initial | cbn; set_solver].
Qed.


Lemma sampleNanoid_inj : Inj (=) (=) sampleNanoid.
Proof.
  intros k. induction k as [|k IH]; intros [|k'] Heq; cbn in Heq; try done.
  injection Heq as Heq. f_equal. by apply IH.
Qed.

Lemma sampleNanoid_nonempty k : sampleNanoid k ≠ "".
Proof. by destruct k. Qed.


(** X14. The imported canvas is a tree rooted at the base block.  The ids
    of the blocks are distinct, and so are the ids of the edges; every edge
    joins two imported blocks; no block has more than one incoming edge and
    the base block has none; the base block comes first and is the only
    one of its type; and from every block the base block is reached by
    following edges backwards, so every block resolves. *)
Theorem imported_canvas_is_tree (nanoid : nat → string) (spec : OpenAPISpec) :
  Inj (=) (=) nanoid →
  NoDup (id <$> res_nodes (importOpenAPI nanoid spec))
  ∧ NoDup (edge_id <$> res_edges (importOpenAPI nanoid spec))
  ∧ (∀ e, e ∈ res_edges (importOpenAPI nanoid spec) →
          source e ∈ id <$> res_nodes (importOpenAPI nanoid spec)
          ∧ target e ∈ id <$> res_nodes (importOpenAPI nanoid spec)
          ∧ target e ≠ nanoid 0)
  ∧ (∀ x, length (incomingEdges (res_edges (importOpenAPI nanoid spec)) x) ≤ 1)
  ∧ (∃ rest,
       res_nodes (importOpenAPI nanoid spec)
       = {| id := nanoid 0; data := blockData BaseUrl (importBaseUrl spec) None |} :: rest
       ∧ Forall (λ n, type (data n) ≠ BaseUrl) rest)
  ∧ (∀ n, n ∈ res_nodes (importOpenAPI nanoid spec) →
          reachesBase (res_nodes (importOpenAPI nanoid spec))
            (res_edges (importOpenAPI nanoid spec)) (id n)).
Proof.
  intros Hinj.
  destruct (importOpenAPI_inv nanoid spec Hinj) as (st & -> & -> & _ & Hinv & _).
  destruct Hinv as [Hids Heids Htargets Hissued Hdisj Hends Hroot Hbase Hconn Hcnt].
  split_and!; [done | done | | | done | done].
  - intros e He. destruct (Hends e He). split_and!; [done | done | by apply Hroot].
  - intros x. by apply distinct_targets_single_parent.
Qed.

Lemma imported_canvas_is_tree_witness :
  NoDup (id <$> res_nodes (importOpenAPI sampleNanoid sampleSpec))
  ∧ length (res_nodes (importOpenAPI sampleNanoid sampleSpec)) = 7
  ∧ length (res_edges (importOpenAPI sampleNanoid sampleSpec)) = 6.
Proof.
  split; [| by vm_compute].
  apply (imported_canvas_is_tree sampleNanoid sampleSpec sampleNanoid_inj).
Defined.

(** ** Counting the imported operations *)

Lemma countChildren_cons k c cs :
  countChildren ((k, c) :: cs) = length (methods c) + countBelow c + countChildren cs.
Proof. done. Qed.

Lemma addMethods_counts nanoid spec nodeId ms : ∀ st,
  totalEndpoints (foldl (addMethodNode nanoid spec nodeId) st ms)
  = totalEndpoints st + length ms
  ∧ length (filter (λ n, type (data n) = Method)
              (imp_nodes (foldl (addMethodNode nanoid spec nodeId) st ms)))
    = length (filter (λ n, type (data n) = Method) (imp_nodes st)) + length ms.
Proof.
  induction ms as [|entry ms IH]; intros st; cbn [foldl length]; [by rewrite !Nat.add_0_r |].
  destruct (IH (addMethodNode nanoid spec nodeId st entry)) as [-> ->].
  cbn [addMethodNode totalEndpoints imp_nodes].
  rewrite filter_app, length_app, filter_cons_True, filter_nil by done.
  cbn [length]. split; lia.
Qed.

Lemma processNode_counts nanoid spec : ∀ node parentId st,
  totalEndpoints (processNode nanoid spec node parentId st)
  = totalEndpoints st + countBelow node
  ∧ length (filter (λ n, type (data n) = Method)
              (imp_nodes (processNode nanoid spec node parentId st)))
    = length (filter (λ n, type (data n) = Method) (imp_nodes st)) + countBelow node.
Proof.
  intros node. pattern node. apply PathNode_children_ind. clear node.
  intros seg0 cs ms full IHcs parentId st. rewrite countBelow_children.
  cbn [processNode]. clear seg0 ms full. revert st.
  induction cs as [|[k c] cs IH]; intros st; cbn [processChildren].
  - unfold countChildren. cbn. by rewrite !Nat.add_0_r.
  - apply Forall_cons in IHcs as [IHc IHcs]. cbn [snd] in IHc.
    destruct (IH IHcs
                (processNode nanoid spec c (nanoid (nanoidCalls st))
                   (foldl (addMethodNode nanoid spec (nanoid (nanoidCalls st)))
                      (addResourceNode nanoid parentId k st) (methods c)))) as [-> ->].
    destruct (IHc (nanoid (nanoidCalls st))
                (foldl (addMethodNode nanoid spec (nanoid (nanoidCalls st)))
                   (addResourceNode nanoid parentId k st) (methods c))) as [-> ->].
    destruct (addMethods_counts nanoid spec (nanoid (nanoidCalls st)) (methods c)
                (addResourceNode nanoid parentId k st)) as [-> ->].
    cbn [addResourceNode totalEndpoints imp_nodes].
    rewrite filter_app, length_app, filter_cons_False, filter_nil by done.
    rewrite countChildren_cons. cbn [length]. split; lia.
Qed.

Lemma countChildren_setChild key child fresh cs :
  length (methods fresh) + countBelow fresh = 0 →
  countChildren (setChild key child cs)
  + (length (methods (default fresh (getChild key cs)))
     + countBelow (default fresh (getChild key cs)))
  = countChildren cs + (length (methods child) + countBelow child).
Proof.
  intros Hfresh.
  induction cs as [|[k c] cs IH]; cbn [setChild getChild].
  - rewrite countChildren_cons. unfold countChildren. simpl. lia.
  - case_decide; rewrite !countChildren_cons; simpl; lia.
Qed.

Lemma addPath_counts segs : ∀ currentPath pathItem node,
  length (methods (addPath segs currentPath pathItem node))
  = length (methods node)
    + (if decide (segs = []) then length (pathItemMethods pathItem) else 0)
  ∧ countBelow (addPath segs currentPath pathItem node)
    = countBelow node
      + (if decide (segs = []) then 0 else length (pathItemMethods pathItem)).
Proof.
  induction segs as [|seg segs IH]; intros currentPath pathItem [seg0 cs ms full];
    cbn [addPath methods children segment fullPath].
  - rewrite !countBelow_children, length_app, !decide_True by done. split; lia.
  - rewrite !countBelow_children, !decide_False by done. split; [lia |].
    pose proof (countChildren_setChild seg
                  (addPath segs (currentPath +:+ "/" +:+ seg) pathItem
                     (default (mkPathNode seg [] [] (currentPath +:+ "/" +:+ seg))
                        (getChild seg cs)))
                  (mkPathNode seg [] [] (currentPath +:+ "/" +:+ seg)) cs eq_refl) as Hset.
    destruct (IH (currentPath +:+ "/" +:+ seg) pathItem
                (default (mkPathNode seg [] [] (currentPath +:+ "/" +:+ seg))
                   (getChild seg cs))) as [Hm Hb].
    rewrite Hm, Hb in Hset. revert Hset. destruct (decide (segs = [])); lia.
Qed.

Lemma buildPathTree_count paths :
  countBelow (buildPathTree paths)
  = sum_list ((λ entry, if decide (parsePathSegments entry.1 = []) then 0
                        else length (pathItemMethods entry.2)) <$> paths).
Proof.
  unfold buildPathTree.
  assert (∀ root,
            countBelow (foldl (λ root '(path, pathItem),
                                 addPath (parsePathSegments path) "" pathItem root)
                          root paths)
            = countBelow root
              + sum_list ((λ entry, if decide (parsePathSegments entry.1 = []) then 0
                                    else length (pathItemMethods entry.2)) <$> paths))
    as Hgen; [| by rewrite Hgen].
  induction paths as [|[path pathItem] paths IH]; intros root; cbn [foldl fmap list_fmap sum_list];
    [lia |].
  rewrite IH. destruct (addPath_counts (parsePathSegments path) "" pathItem root) as [_ ->].
  cbn [fst snd]. unfold Datatypes.id. lia.
Qed.

Lemma buildPathTree_root_only paths :
  (∀ entry, entry ∈ paths → parsePathSegments entry.1 = []) →
  children (buildPathTree paths) = [].
Proof.
  unfold buildPathTree. generalize (eq_refl : children (mkPathNode "" [] [] "") = []).
  generalize (mkPathNode "" [] [] "").
  induction paths as [|[path pathItem] paths IH]; intros root Hroot Hall; [done |].
  cbn [foldl]. apply IH; [| intros entry Hin; apply Hall; by right].
  pose proof (Hall (path, pathItem) ltac:(left)) as Hnil. cbn [fst] in Hnil.
  by rewrite Hnil.
Qed.



(** * Body fields shared with the body history *)

Lemma fieldsAt_valid objects addresses :
  (∀ a, a ∈ addresses → a < length objects) →
  mapM (λ address, objects !! address) addresses = Some (fieldsAt objects addresses)
  ∧ length (fieldsAt objects addresses) = length addresses.
Proof.
  unfold fieldsAt. induction addresses as [|a addresses IH]; intros Hvalid; [done |].
  destruct (lookup_lt_is_Some_2 objects a) as [o Ho]; [apply Hvalid; left |].
  destruct IH as [IHm IHl]; [intros a' Ha'; apply Hvalid; by right |].
  cbn. rewrite Ho. cbn. rewrite IHm. cbn. by rewrite IHl.
Qed.

Lemma fieldsAt_app_old objects extra addresses :
  (∀ a, a ∈ addresses → a < length objects) →
  fieldsAt (objects ++ extra) addresses = fieldsAt objects addresses.
Proof.
  unfold fieldsAt. induction addresses as [|a addresses IH]; intros Hvalid; [done |].
  cbn. rewrite lookup_app_l by (apply Hvalid; left).
  rewrite IH; [done |]. intros a' Ha'. apply Hvalid. by right.
Qed.

Lemma fieldsAt_clones objects clones :
  fieldsAt (objects ++ clones) (seq (length objects) (length clones)) = clones.
Proof.
  unfold fieldsAt. revert objects.
  induction clones as [|o clones IH]; intros objects; [done |]. cbn [length seq omap list_omap].
  rewrite lookup_app_r, Nat.sub_diag by lia. cbn.
  f_equal. specialize (IH (objects ++ [o])).
  rewrite length_app, <- app_assoc in IH. cbn in IH.
  by rewrite Nat.add_1_r in IH.
Qed.

Lemma fieldsAt_alter_other objects f a addresses :
  a ∉ addresses → fieldsAt (alter f a objects) addresses = fieldsAt objects addresses.
Proof.
  unfold fieldsAt. induction addresses as [|x addresses IH]; intros Hnot; [done |].
  apply not_elem_of_cons in Hnot as [Hne Hnot]. cbn.
  rewrite list_lookup_alter_ne by done. by rewrite IH.
Qed.

Lemma fieldsAt_alter_at objects f addresses : ∀ index a,
  NoDup addresses → (∀ x, x ∈ addresses → x < length objects) →
  addresses !! index = Some a →
  fieldsAt (alter f a objects) addresses = alter f index (fieldsAt objects addresses).
Proof.
  induction addresses as [|x addresses IH]; intros index a Hnd Hvalid Hat; [done |].
  apply NoDup_cons in Hnd as [Hfresh Hnd].
  destruct (lookup_lt_is_Some_2 objects x) as [o Ho]; [apply Hvalid; left |].
  destruct index as [|index]; cbn in Hat.
  - simplify_eq. unfold fieldsAt. cbn [omap list_omap].
    rewrite list_lookup_alter_eq, Ho. cbn.
    f_equal. by apply fieldsAt_alter_other.
  - assert (x ≠ a) as Hne.
    { intros ->. apply Hfresh. by eapply list_elem_of_lookup_2. }
    unfold fieldsAt. cbn [omap list_omap]. rewrite list_lookup_alter_ne, Ho by done. cbn.
    f_equal. apply IH; [done | | done]. intros x' Hx'. apply Hvalid. by right.
Qed.

(** X17. A body restored from the history shares its field objects with the
    history item.  Recording the body of a block copies the fields, so that
    a later [handleFieldChange] on the block leaves the recorded item as it
    is; but after [onSelectBody] has put the array of the item into the
    block, [handleFieldChange] writes into the objects of the item, and the
    item no longer holds the body that was recorded. *)
Theorem restored_body_shares_objects (st : FieldStore) (newId : string) (now : Z)
    (m : HttpMethod) (url : string) (index : nat) (field : FieldMember)
    (newValue : string) :
  fieldStoreWf st → index < length (blockFields st) →
  ∃ st1 item,
    addBodyHistoryShared newId now m url (blockFields st) st = Some st1
    ∧ head (bodyHistoryRefs st1) = Some item
    ∧ fieldsAt (fieldObjects st1) (bhr_bodyFields item)
      = fieldsAt (fieldObjects st) (blockFields st)
    ∧ (∃ st2, handleFieldChange index field newValue st1 = Some st2
              ∧ fieldsAt (fieldObjects st2) (bhr_bodyFields item)
                = fieldsAt (fieldObjects st1) (bhr_bodyFields item)
              ∧ fieldsAt (fieldObjects st2) (blockFields st2)
                = alter (writeMember field newValue) index
                    (fieldsAt (fieldObjects st1) (blockFields st1)))
    ∧ (∃ st3, handleFieldChange index field newValue
                (onSelectBody (bhr_bodyFields item) st1) = Some st3
              ∧ fieldsAt (fieldObjects st3) (bhr_bodyFields item)
                = alter (writeMember field newValue) index
                    (fieldsAt (fieldObjects st1) (bhr_bodyFields item))).
Proof.
  intros (Hnd & Hblock & Hhist) Hindex.
  destruct (fieldsAt_valid (fieldObjects st) (blockFields st) Hblock) as [Hclone Hlen].
  unfold addBodyHistoryShared. rewrite decide_False by lia. rewrite Hclone.
  eexists _, _. split; [done |]. cbn [bodyHistoryRefs fieldObjects bhr_bodyFields].
  split; [done |]. rewrite fieldsAt_clones. split; [done |].
  destruct (lookup_lt_is_Some_2 (blockFields st) index Hindex) as [a Ha].
  split.
  - unfold handleFieldChange, blockFields at 1. cbn [blockBodyFields].
    fold (blockFields st). rewrite Ha. eexists. split; [done |].
    cbn [fieldObjects setBlockFields blockBodyFields].
    assert (a < length (fieldObjects st)) as Hlt
      by (apply Hblock; by eapply list_elem_of_lookup_2).
    split.
    + rewrite fieldsAt_alter_other, fieldsAt_clones; [done |].
      intros Hin%elem_of_seq. lia.
    + unfold blockFields at 1 3. cbn [blockBodyFields default]. fold (blockFields st).
      apply fieldsAt_alter_at; [done | | done].
      intros x Hx. rewrite length_app. specialize (Hblock x Hx). lia.
  - assert (index < length (seq (length (fieldObjects st))
                              (length (fieldsAt (fieldObjects st) (blockFields st)))))
      as Hindex' by (rewrite length_seq; lia).
    destruct (lookup_lt_is_Some_2 _ _ Hindex') as [a' Ha'].
    revert Ha'. generalize (fieldsAt (fieldObjects st) (blockFields st)).
    intros clones Ha'.
    unfold handleFieldChange, onSelectBody, blockFields.
    cbn [setBlockFields blockBodyFields default from_option bhr_bodyFields fieldObjects].
    unfold Datatypes.id. rewrite Ha'.
    eexists. split; [done |]. cbn [fieldObjects setBlockFields].
    etrans; [apply (fieldsAt_alter_at _ _ _ index a'); [apply NoDup_seq | | done] |].
    + intros x Hx%elem_of_seq. rewrite length_app. lia.
    + by rewrite fieldsAt_clones.
Qed.

Lemma restored_body_shares_objects_witness :
  fieldStoreWf sampleFieldStore
  ∧ ∃ st1 item st3,
      addBodyHistoryShared "h1" 1 POST "http://localhost:3000/auth/login"
        (blockFields sampleFieldStore) sampleFieldStore = Some st1
      ∧ head (bodyHistoryRefs st1) = Some item
      ∧ fieldsAt (fieldObjects st1) (bhr_bodyFields item)
        = [ {| bf_key := "email"; bf_value := "a@b.c" |};
            {| bf_key := "password"; bf_value := "secret" |} ]
      ∧ handleFieldChange 1 ValueMember "changed"
          (onSelectBody (bhr_bodyFields item) st1) = Some st3
      ∧ fieldsAt (fieldObjects st3) (bhr_bodyFields item)
        = [ {| bf_key := "email"; bf_value := "a@b.c" |};
            {| bf_key := "password"; bf_value := "changed" |} ].
Proof.
  assert (fieldStoreWf sampleFieldStore) as Hwf.
  { split_and!.
    - apply (bool_decide_unpack _). by vm_compute.
    - intros a Ha. cbn in *. set_solver by lia.
    - intros item Hitem. by apply elem_of_nil in Hitem. }
  split; [done |].
  destruct (restored_body_shares_objects sampleFieldStore "h1" 1 POST
              "http://localhost:3000/auth/login" 1 ValueMember "changed" Hwf)
    as (st1 & item & Hadd & Hhead & Hrec & _ & st3 & Hedit & Hchanged); [cbn; lia |].
  exists st1, item, st3. split_and!; [done | done | done | done |].
  by rewrite Hchanged, Hrec.
Defined.

Lemma filter_index_all {A} (l : list A) : ∀ k index,
  index < k →
  (filter (λ entry, entry.1 ≠ index) (imap (λ j x, (k + j, x)) l)).*2 = l.
Proof.
  induction l as [|x l IH]; intros k index Hlt; [done |]. cbn [imap].
  rewrite filter_cons_True by (cbn; lia). cbn [fmap list_fmap snd]. f_equal.
  rewrite <- (IH (S k) index) at 2 by lia. do 2 f_equal.
  apply imap_ext. intros j y _. cbn. f_equal. lia.
Qed.

Lemma filter_index_delete {A} (l : list A) : ∀ k index,
  (filter (λ entry, entry.1 ≠ k + index) (imap (λ j x, (k + j, x)) l)).*2
  = delete index l.
Proof.
  induction l as [|x l IH]; intros k index; [done |]. cbn [imap].
  assert (imap ((λ j y, (k + j, y)) ∘ S) l = imap (λ j y, (S k + j, y)) l) as ->.
  { apply imap_ext. intros j y _. cbn. f_equal. lia. }
  destruct index as [|index].
  - rewrite filter_cons_False by (cbn; lia). change (delete 0 (x :: l)) with l.
    apply filter_index_all. lia.
  - rewrite filter_cons_True by (cbn; lia).
    change (delete (S index) (x :: l)) with (x :: delete index l).
    cbn [fmap list_fmap snd].
    f_equal. rewrite <- (IH (S k) index). f_equal. apply list_filter_iff.
    intros [j z]. cbn. lia.
Qed.

(** X18. Apart from a write into a shared object, nothing changes a
    recorded body.  The edits of a block and the recording of a body keep
    the store well formed; [removeBodyField] removes exactly the field at
    the index; and what a history item holds is unchanged by [addBodyField],
    by [removeBodyField], by recording another body, and by
    [handleFieldChange] as long as the array of the block holds none of the
    objects of the item. *)
Theorem recorded_bodies_frame (st : FieldStore) :
  fieldStoreWf st →
  fieldStoreWf (addBodyField st)
  ∧ (∀ index, fieldStoreWf (removeBodyField index st)
              ∧ blockFields (removeBodyField index st) = delete index (blockFields st)
              ∧ fieldObjects (removeBodyField index st) = fieldObjects st)
  ∧ (∀ index field newValue st',
       handleFieldChange index field newValue st = Some st' → fieldStoreWf st')
  ∧ (∀ newId now m url st',
       addBodyHistoryShared newId now m url (blockFields st) st = Some st' →
       fieldStoreWf st')
  ∧ (∀ item, item ∈ bodyHistoryRefs st →
       fieldStoreWf (onSelectBody (bhr_bodyFields item) st)
       ∧ fieldsAt (fieldObjects (addBodyField st)) (bhr_bodyFields item)
         = fieldsAt (fieldObjects st) (bhr_bodyFields item)
       ∧ (∀ newId now m url st',
            addBodyHistoryShared newId now m url (blockFields st) st = Some st' →
            fieldsAt (fieldObjects st') (bhr_bodyFields item)
            = fieldsAt (fieldObjects st) (bhr_bodyFields item))
       ∧ (∀ index field newValue st',
            (∀ a, a ∈ blockFields st → a ∉ bhr_bodyFields item) →
            handleFieldChange index field newValue st = Some st' →
            fieldsAt (fieldObjects st') (bhr_bodyFields item)
            = fieldsAt (fieldObjects st) (bhr_bodyFields item))).
Proof.
  intros (Hnd & Hblock & Hhist).
  assert (∀ index, blockFields (removeBodyField index st) = delete index (blockFields st))
    as Hremove.
  { intros index. unfold removeBodyField, blockFields at 1.
    cbn [setBlockFields blockBodyFields default from_option]. unfold Datatypes.id.
    apply (filter_index_delete (blockFields st) 0 index). }
  split_and!.
  - split_and!.
    + unfold addBodyField, blockFields at 1.
      cbn [setBlockFields blockBodyFields default from_option]. unfold Datatypes.id.
      apply NoDup_app. split_and!; [done | | apply NoDup_singleton].
      intros a Ha ->%list_elem_of_singleton. specialize (Hblock _ Ha). lia.
    + unfold addBodyField, blockFields at 1.
      cbn [setBlockFields blockBodyFields default from_option fieldObjects].
      unfold Datatypes.id. rewrite length_app. cbn [length].
      intros a [Ha | ->%list_elem_of_singleton]%elem_of_app; [| lia].
      specialize (Hblock _ Ha). lia.
    + intros item Hitem. destruct (Hhist item Hitem) as [Hnd' Hvalid]. split; [done |].
      intros a Ha. cbn. rewrite length_app. specialize (Hvalid a Ha). lia.
  - intros index. split_and!; [| apply Hremove | done].
    split_and!; rewrite ?Hremove.
    + eapply sublist_NoDup; [exact Hnd | apply sublist_delete].
    + intros a Ha. apply Hblock. eapply elem_of_sublist; [done | apply sublist_delete].
    + done.
  - intros index field newValue st'. unfold handleFieldChange.
    destruct (blockFields st !! index) as [a|]; [| done]. intros [= <-].
    split_and!; unfold blockFields;
      cbn [setBlockFields blockBodyFields default from_option fieldObjects bodyHistoryRefs];
      unfold Datatypes.id; fold (blockFields st); rewrite ?length_alter; done.
  - intros newId now m url st'. unfold addBodyHistoryShared.
    case_decide; [by intros [= <-] |].
    destruct (mapM _ _) as [clones|]; [| done]. intros [= <-].
    split_and!; unfold blockFields;
      cbn [blockBodyFields default from_option fieldObjects bodyHistoryRefs];
      unfold Datatypes.id; fold (blockFields st); [done | |].
    + intros a Ha. rewrite length_app. specialize (Hblock a Ha). lia.
    + intros item Hitem.
      apply elem_of_cons in Hitem as [-> | Hitem%(subseteq_take 49)]; cbn [bhr_bodyFields].
      * split; [apply NoDup_seq |]. intros a Ha%elem_of_seq. rewrite length_app. lia.
      * destruct (Hhist item Hitem) as [Hnd' Hvalid]. split; [done |].
        intros a Ha. rewrite length_app. specialize (Hvalid a Ha). lia.
  - intros item Hitem. destruct (Hhist item Hitem) as [Hnd' Hvalid]. split_and!.
    + by split_and!.
    + by apply fieldsAt_app_old.
    + intros newId now m url st'. unfold addBodyHistoryShared.
      case_decide; [by intros [= <-] |].
      destruct (mapM _ _) as [clones|]; [| done]. intros [= <-].
      by apply fieldsAt_app_old.
    + intros index field newValue st' Hdisjoint. unfold handleFieldChange.
      destruct (blockFields st !! index) as [a|] eqn:Ha; [| done]. intros [= <-].
      cbn [setBlockFields fieldObjects]. apply fieldsAt_alter_other.
      apply Hdisjoint. by eapply list_elem_of_lookup_2.
Qed.

Lemma recorded_bodies_frame_witness :
  fieldStoreWf sampleFieldStore
  ∧ fieldStoreWf (addBodyField sampleFieldStore)
  ∧ blockFields (removeBodyField 0 sampleFieldStore) = [1].
Proof.
  assert (fieldStoreWf sampleFieldStore) as Hwf.
  { split_and!.
    - apply (bool_decide_unpack _). by vm_compute.
    - intros a Ha. cbn in *. set_solver by lia.
    - intros item Hitem. by apply elem_of_nil in Hitem. }
  destruct (recorded_bodies_frame sampleFieldStore Hwf) as (Hadd & Hremove & _).
  split_and!; [done | done |].
  by destruct (Hremove 0) as (_ & -> & _).
Defined.

(** * Block settings and the URL *)

Lemma traceBackwardsUrl_mapNode nodeId (f : ApiBlock → ApiBlock) ns es vars :
  (∀ n, id (f n) = id n) → (∀ n, type (data (f n)) = type (data n)) →
  (∀ n, value (data (f n)) = value (data n)) →
  ∀ fuel x st,
    traceBackwardsUrl fuel (mapNode nodeId f ns) es vars x st
    = traceBackwardsUrl fuel ns es vars x st.
Proof.
  intros Hid Htype Hvalue. induction fuel as [|fuel IH]; intros x st; [done |].
  cbn [traceBackwardsUrl]. destruct (decide (x ∈ urlVisited st)) as [|Hnew]; [done |].
  unfold mapNode. rewrite findNode_fmap by (intros n'; by case_decide).
  destruct (findNode ns x) as [n|]; cbn [fmap option_fmap option_map]; [| done].
  assert (type (data (if decide (id n = nodeId) then f n else n)) = type (data n)) as ->
    by (by case_decide).
  assert (value (data (if decide (id n = nodeId) then f n else n)) = value (data n)) as ->
    by (by case_decide).
  destruct (decide (type (data n) = BaseUrl)) as [|Hkind]; [done |].
  apply forEachEdge_ext. intros y st'. apply IH.
Qed.

Lemma getComputedUrl_mapNode nodeId (f : ApiBlock → ApiBlock) s :
  (∀ n, id (f n) = id n) → (∀ n, type (data (f n)) = type (data n)) →
  (∀ n, value (data (f n)) = value (data n)) →
  getComputedUrl (setNodes (mapNode nodeId f (nodes s)) s) = getComputedUrl s
  ∧ computeActivePathNodes (activePathId s) (mapNode nodeId f (nodes s)) (edges s)
    = computeActivePathNodes (activePathId s) (nodes s) (edges s).
Proof.
  intros Hid Htype Hvalue. split.
  - unfold getComputedUrl. cbn [activePathId nodes edges variables setNodes].
    destruct (truthy (activePathId s)) as [t|]; [| done].
    rewrite traceBackwardsUrl_mapNode by done.
    unfold mapNode at 1. rewrite findNode_fmap by (intros n'; by case_decide).
    by destruct (findNode (nodes s) t).
  - apply computeActivePathNodes_agree; [done | |done].
    intros t x _ _. symmetry. by apply kindOf_mapNode.
Qed.

(** X19. Block settings do not move the path.  Changing the body fields,
    the headers or the bearer token of a block changes neither the computed
    URL nor the resolved active path, so the stored projection stays
    current also under [handleBearerTokenChange], which writes the nodes
    without going through a store action; and the token set is the one the
    next request of the block sends. *)
Theorem block_settings_keep_url (nodeId : string) (s s' : CanvasState) :
  (∃ fields, s' = updateNodeBodyFields nodeId fields s)
  ∨ (∃ hs, s' = updateNodeHeaders nodeId hs s)
  ∨ (∃ token, s' = handleBearerTokenChange nodeId token s) →
  getComputedUrl s' = getComputedUrl s
  ∧ computeActivePathNodes (activePathId s') (nodes s') (edges s')
    = computeActivePathNodes (activePathId s) (nodes s) (edges s)
  ∧ (projectionCurrent s → projectionCurrent s')
  ∧ ∀ token n, s' = handleBearerTokenChange nodeId token s → token ≠ "" →
      findNode (nodes s) nodeId = Some n →
      ∃ n', findNode (nodes s') nodeId = Some n'
            ∧ ∀ url cfg, handleSendConfig (data n') (Some url) = Some cfg →
                cfg_headers cfg !! "Authorization" = Some ("Bearer " +:+ token).
Proof.
  intros Hedit.
  assert (∃ f, s' = setNodes (mapNode nodeId f (nodes s)) s
               ∧ (∀ n, id (f n) = id n) ∧ (∀ n, type (data (f n)) = type (data n))
               ∧ (∀ n, value (data (f n)) = value (data n)))
    as (f & -> & Hid & Htype & Hvalue).
  { destruct Hedit as [[fields ->] | [[hs ->] | [token ->]]];
      [exists (withBodyFields fields) | exists (withHeaders hs)
       | exists (withBearerToken token)]; by split_and!. }
  destruct (getComputedUrl_mapNode nodeId f s Hid Htype Hvalue) as [Hurl Hpath].
  split_and!; [done | done | |].
  - unfold projectionCurrent. cbn [activePathNodes activePathId nodes edges setNodes].
    by rewrite Hpath.
  - intros token n Heq Htoken Hfind.
    rewrite Heq. unfold handleBearerTokenChange, mapNode. cbn [nodes setNodes].
    rewrite findNode_fmap by (intros n'; by case_decide). rewrite Hfind.
    eexists. split; [done |].
    apply findNode_elem in Hfind as [_ Hn]. rewrite decide_True by done.
    intros url cfg. unfold handleSendConfig.
    destruct (truthy (Some url)); [| done]. intros [= <-]. cbn.
    unfold truthy. rewrite decide_False by done.
    rewrite setProperty_lookup; [by rewrite decide_True |].
    rewrite headersObj_lookup, decide_True; [done | by right].
Qed.

Lemma block_settings_keep_url_witness :
  getComputedUrl (handleBearerTokenChange "default-login-method" "t0k3n" loginSelected)
  = getComputedUrl loginSelected
  ∧ projectionCurrent (handleBearerTokenChange "default-login-method" "t0k3n" loginSelected).
Proof.
  destruct (block_settings_keep_url "default-login-method" loginSelected
              (handleBearerTokenChange "default-login-method" "t0k3n" loginSelected))
    as (Hurl & _ & Hproj & _).
  - right. right. by exists "t0k3n".
  - split; [done |]. apply Hproj. by vm_compute.
Defined.

(** * Saving and reloading *)

Section SessionProofs.
Context {NodeChange EdgeChange Connection : Type}.
Variable applyNodeChanges : list NodeChange → list ApiBlock → list ApiBlock.
Variable applyEdgeChanges : list EdgeChange → list Edge → list Edge.
Variable addEdge : Connection → string → list Edge → list Edge.

Lemma reachable_historiesBounded s :
  reachable applyNodeChanges applyEdgeChanges addEdge s → historiesBounded s.
Proof.
  induction 1 as [|s op s' _ IH Hfresh Hstep]; [unfold historiesBounded; cbn; lia |].
  by eapply step_historiesBounded.
Qed.

Lemma reachableFrom_invariants start s :
  reachableFrom applyNodeChanges applyEdgeChanges addEdge start s →
  projectionCurrent start → historiesBounded start →
  projectionCurrent s ∧ historiesBounded s.
Proof.
  induction 1 as [|s op s' _ IH Hfresh Hstep]; intros Hcur Hbound; [done |].
  destruct (IH Hcur Hbound) as [Hcur' Hbound']. split.
  - by eapply step_preserves_projection.
  - by eapply step_historiesBounded.
Qed.

End SessionProofs.

